(** * json-schema-go: parser, registry and validation executor

    A shallow embedding of the Go sources
    - [parser.go]  (the schema parser with its registry of indexed nodes, and
                    the earlier [Validator.IsValid] kept in the same file),
    - [vm.go]      (the first executor: type checks only),
    - the executor with [items] support that follows the tests in
      [validator_test.go],
    and of the seal pass and the executor over the registry, which are not
    among the sources and are modelled from the specification and the
    tests; together with the properties stated about them.

    Numbers: a Go [float64] is modelled as the rational it denotes ([Q]).
    The operations that are exact on [float64] (the comparisons, [math.Abs],
    [math.Round], [math.Trunc], [math.Mod]) are computed in [Q]; division
    and subtraction round their result to the nearest [float64]
    ([Float.fl]).  NaN and infinities are not represented.  Indices into
    the registry are [nat]. *)

From Stdlib Require Import QArith Qround Qabs Qminmax Qpower Lqa Ascii String.
From stdpp Require Import base option list strings pretty countable gmap.

Set Warnings "-register-all".

Local Open Scope string_scope.
Local Open Scope list_scope.

(* ===================================================================== *)
(** ** Decoded JSON values ([interface{}]) *)
(* ===================================================================== *)

(** What a Go [interface{}] holds in this code base: the six shapes produced
    by [encoding/json], plus [VInt] for a Go [int] put there by hand (the
    tests write ["type": 3]); the latter reaches the [default:] branches. *)
Inductive value : Type :=
| VNil
| VBool (b : bool)
| VFloat (f : Q)
| VString (s : string)
| VArray (elems : list value)
| VMap (fields : list (string * value))
| VInt (n : Z).

(** [input[key]] on a [map[string]interface{}]: keys of a Go map are
    unique, so the first binding is the binding. *)
Fixpoint mapIndex (key : string) (m : list (string * value)) : option value :=
  match m with
  | [] => None
  | (k, v) :: rest => if bool_decide (k = key) then Some v else mapIndex key rest
  end.

(** Nesting depth of a value, used to bound the recursion of the parser. *)
Fixpoint depth (v : value) : nat :=
  match v with
  | VArray elems => S (foldr (fun e d => Nat.max (depth e) d) 0 elems)
  | VMap fields => S (foldr (fun kv d => Nat.max (depth (snd kv)) d) 0 fields)
  | _ => 0
  end.

Definition depthFields (fields : list (string * value)) : nat :=
  foldr (fun kv d => Nat.max (depth (snd kv)) d) 0 fields.

Definition depthElems (elems : list value) : nat :=
  foldr (fun e d => Nat.max (depth e) d) 0 elems.

(* ===================================================================== *)
(** ** Numbers *)
(* ===================================================================== *)

Module Float.

(** [math.Round]: nearest integer, halves away from zero. *)
Definition Round (x : Q) : Q :=
  if Qle_bool 0 x then inject_Z (Qfloor (x + (1 # 2)))
  else inject_Z (Qceiling (x - (1 # 2))).

(** [math.Trunc]: the integer part, towards zero. *)
Definition Trunc (x : Q) : Q :=
  if Qle_bool 0 x then inject_Z (Qfloor x) else inject_Z (Qceiling x).

(** [math.Abs]. *)
Definition Abs (x : Q) : Q := Qabs x.

(** [math.Mod x y]: [x - y * Trunc (x / y)], with the sign of [x]. *)
Definition Mod (x y : Q) : Q := x - y * Trunc (x / y).

(** The nearest integer, ties to the even one. *)
Definition roundEven (x : Q) : Z :=
  let f := Qfloor x in
  match Qcompare (x - inject_Z f) (1 # 2) with
  | Lt => f
  | Gt => (f + 1)%Z
  | Eq => if Z.even f then f else (f + 1)%Z
  end.

(** The binary exponent of a positive rational: [2^k <= a < 2^(k+1)]. *)
Definition ilog2 (a : Q) : Z :=
  let k := (Z.log2 (Qnum a) - Z.log2 (Zpos (Qden a)))%Z in
  if Qle_bool (Qpower 2 k) a then k else (k - 1)%Z.

(** The [float64] an arithmetic operation returns for the exact result
    [x]: the nearest number with a 53-bit significand, ties to even, with
    gradual underflow below [2^-1022].  Overflow to an infinity is not
    modelled. *)
Definition fl (x : Q) : Q :=
  if Qeq_bool x 0 then 0%Q else
  let a := Qabs x in
  let e := Z.max (ilog2 a) (-1022) in
  let q := Qpower 2 (e - 52) in
  let n := (inject_Z (roundEven (a / q)) * q)%Q in
  Qred (if Qle_bool 0 x then n else (- n)%Q).

(** [x / y] and [x - y] of Go on [float64]. *)
Definition div (x y : Q) : Q := fl (x / y).
Definition sub (x y : Q) : Q := fl (x - y).

(** The comparisons of Go on [float64]. *)
Definition eq (x y : Q) : bool := Qeq_bool x y.
Definition lt (x y : Q) : bool := negb (Qle_bool y x).
Definition le (x y : Q) : bool := Qle_bool x y.
Definition gt (x y : Q) : bool := lt y x.
Definition ge (x y : Q) : bool := le y x.

End Float.

(* ===================================================================== *)
(** ** URLs and JSON Pointers (collaborators outside the repository) *)
(* ===================================================================== *)

(** [net/url.URL], restricted to the fields this code reads or writes. *)
Record URL : Type := mkURL {
  Scheme : string;
  Host : string;
  Path : string;
  Fragment : string
}.

#[global] Instance URL_eq_dec : EqDecision URL.
Proof. solve_decision. Defined.

(** [url.URL{}] *)
Definition URL_zero : URL := mkURL EmptyString EmptyString EmptyString EmptyString.

(** [u.Fragment = f] on a copy of [u]. *)
Definition withFragment (u : URL) (f : string) : URL :=
  mkURL (Scheme u) (Host u) (Path u) f.

(** The library functions the parser calls.  Statements that do not depend
    on what a particular URL denotes are proved for every implementation. *)
Class Lib : Type := {
  (** [url.Parse(s)] *)
  url_Parse : string -> option URL;
  (** [base.Parse(ref)]: parse [ref] and resolve it against [base] *)
  URL_Parse : URL -> string -> option URL;
  (** [jsonpointer.New(s)], giving the tokens *)
  jsonpointer_New : string -> option (list string);
  (** [jsonpointer.Ptr{Tokens: t}.String()] *)
  Ptr_String : list string -> string
}.

(* ===================================================================== *)
(** ** Methods with a receiver: state and errors *)
(* ===================================================================== *)

(** A method on a pointer receiver of type [S] that returns [(A, error)],
    or that may panic: the receiver is threaded through, and it is handed
    back as it stands when the method stops with an error. *)
Definition ST (S E A : Type) : Type := S -> S * (E + A).

Definition ret {S E A} (a : A) : ST S E A := fun st => (st, inr a).
Definition fail {S E A} (e : E) : ST S E A := fun st => (st, inl e).
Definition bind {S E A B} (m : ST S E A) (k : A -> ST S E B) : ST S E B :=
  fun st => match m st with
            | (st', inr a) => k a st'
            | (st', inl e) => (st', inl e)
            end.

Notation "'do' x <- m ; k" := (bind m (fun x => k))
  (at level 10, x name, m at level 100, k at level 200).
Notation "'do_' m ; k" := (bind m (fun _ => k))
  (at level 10, m at level 100, k at level 200).

(* ===================================================================== *)
(** ** parser.go: schema nodes, registry, parser *)
(* ===================================================================== *)

(** [jsonType]: [iota + 1] constants; the zero value is no type. *)
Inductive jsonType : Type :=
| jsonTypeNull
| jsonTypeBoolean
| jsonTypeNumber
| jsonTypeInteger
| jsonTypeString
| jsonTypeArray
| jsonTypeObject.

#[global] Instance jsonType_eq_dec : EqDecision jsonType.
Proof. solve_decision. Defined.

Record schemaType : Type := mkSchemaType {
  tIsSet : bool;
  tIsSingle : bool;
  Types : list jsonType
}.

Record schemaItems : Type := mkSchemaItems {
  iIsSet : bool;
  iIsSingle : bool;
  Schemas : list nat
}.

Record schemaRef : Type := mkSchemaRef {
  rIsSet : bool;
  rSchema : nat;
  rURI : URL;
  rBaseURI : URL;
  rPtr : list string
}.

Record schema : Type := mkSchema {
  ID : URL;
  Ref : schemaRef;
  Type_ : schemaType;
  Items : schemaItems
}.

(** [schema{}] and the zero values of its parts. *)
Definition schemaType_zero : schemaType := mkSchemaType false false [].
Definition schemaItems_zero : schemaItems := mkSchemaItems false false [].
Definition schemaRef_zero : schemaRef := mkSchemaRef false 0 URL_zero URL_zero [].
Definition schema_zero : schema :=
  mkSchema URL_zero schemaRef_zero schemaType_zero schemaItems_zero.

(** [func (t schemaType) contains(typ jsonType) bool] *)
Fixpoint containsTypes (ts : list jsonType) (typ : jsonType) : bool :=
  match ts with
  | [] => false
  | t :: rest => if bool_decide (t = typ) then true else containsTypes rest typ
  end.

Definition contains (t : schemaType) (typ : jsonType) : bool :=
  containsTypes (Types t) typ.

(** The runtime tag of an instance, as the [switch instance.(type)] of the
    executors tells it; a value that is no JSON has none. *)
Definition tagOf (v : value) : option jsonType :=
  match v with
  | VNil => Some jsonTypeNull
  | VBool _ => Some jsonTypeBoolean
  | VFloat _ => Some jsonTypeNumber
  | VString _ => Some jsonTypeString
  | VArray _ => Some jsonTypeArray
  | VMap _ => Some jsonTypeObject
  | VInt _ => None
  end.

(** The errors [Parse] returns.  [errFuel] is not an error of the program:
    it marks a run of the model that was given too little fuel
    (see [Parse_total]). *)
Inductive parseError : Type :=
| idNotString
| idNotValidURI
| refNotString
| invalidURI
| refFragmentNotPointer
| invalidTypeValue
| schemaNotObject
| errFuel.

(** [func parseJSONType(typ string) (jsonType, error)] *)
Definition parseJSONType (typ : string) : parseError + jsonType :=
  if bool_decide (typ = "null") then inr jsonTypeNull
  else if bool_decide (typ = "boolean") then inr jsonTypeBoolean
  else if bool_decide (typ = "number") then inr jsonTypeNumber
  else if bool_decide (typ = "integer") then inr jsonTypeInteger
  else if bool_decide (typ = "string") then inr jsonTypeString
  else if bool_decide (typ = "array") then inr jsonTypeArray
  else if bool_decide (typ = "object") then inr jsonTypeObject
  else inl invalidTypeValue.

(** *** The registry *)

(** Modelled from the spec: the type [registry] with [Insert] and
    [GetIndex] is not among the sources; section 4.2 gives
    "insert(uri, node) -> index (append-only; returns new index)" and
    "get(index) -> node".  The registry is the list of inserted nodes with
    their URIs, in insertion order. *)
Abbreviation registry := (list (URL * schema)).

Definition Insert (uri : URL) (s : schema) (r : registry) : registry * nat :=
  (r ++ [(uri, s)], length r).

Definition GetIndex (r : registry) (index : nat) : option schema :=
  snd <$> r !! index.

(** *** The parser state and its monad *)

Record parser : Type := mkParser {
  p_registry : registry;
  baseURI : URL;
  tokens : list string
}.

(** A method of [*parser] returning [(A, error)]: the parser is threaded
    through, and is also left as it is when an error is returned. *)
Definition M (A : Type) : Type := ST parser parseError A.

(** [func (p *parser) Push(token string)] *)
Definition Push (token : string) : M unit :=
  fun p => (mkParser (p_registry p) (baseURI p) (tokens p ++ [token]), inr tt).

(** [func (p *parser) Pop()] — slicing an empty slice to [-1] panics in Go;
    every [Pop] of [Parse] follows its [Push]. *)
Definition Pop : M unit :=
  fun p => (mkParser (p_registry p) (baseURI p) (removelast (tokens p)), inr tt).

Section WithLib.
Context {L : Lib}.

(** [func (p *parser) URI() url.URL] *)
Definition URI (p : parser) : URL :=
  withFragment (baseURI p) (Ptr_String (tokens p)).

(** The [$id] block of [Parse]: read only with an empty token stack. *)
Definition parseID (input : list (string * value)) (s : schema) : M schema :=
  fun p =>
    if bool_decide (length (tokens p) = 0) then
      match mapIndex "$id" input with
      | Some idValue =>
          match idValue with
          | VString idStr =>
              match url_Parse idStr with
              | Some uri =>
                  (mkParser (p_registry p) uri (tokens p),
                   inr (mkSchema uri (Ref s) (Type_ s) (Items s)))
              | None => (p, inl idNotValidURI)
              end
          | _ => (p, inl idNotString)
          end
      | None => (p, inr s)
      end
    else (p, inr s).

(** The [$ref] block of [Parse]. *)
Definition parseRef (input : list (string * value)) (s : schema) : M schema :=
  fun p =>
    match mapIndex "$ref" input with
    | Some refValue =>
        match refValue with
        | VString refStr =>
            match URL_Parse (baseURI p) refStr with
            | Some uri =>
                let refBaseURI := withFragment uri EmptyString in
                match jsonpointer_New (Fragment uri) with
                | Some ptr =>
                    (p, inr (mkSchema (ID s)
                               (mkSchemaRef true (rSchema (Ref s)) uri refBaseURI ptr)
                               (Type_ s) (Items s)))
                | None => (p, inl refFragmentNotPointer)
                end
            | None => (p, inl invalidURI)
            end
        | _ => (p, inl refNotString)
        end
    | None => (p, inr s)
    end.

(** The loop over a [type] array: [s.Type.Types[i] = jsonTyp]. *)
Fixpoint parseTypeList (i : nat) (typ : list value) (ts : list jsonType)
  : parseError + list jsonType :=
  match typ with
  | [] => inr ts
  | t :: rest =>
      match t with
      | VString t =>
          match parseJSONType t with
          | inr jsonTyp => parseTypeList (S i) rest (<[i := jsonTyp]> ts)
          | inl err => inl err
          end
      | _ => inl invalidTypeValue
      end
  end.

(** The [type] block of [Parse].  [make([]jsonType, n)] gives [n] zero
    values, which are no [jsonType]; every slot is overwritten before the
    slice is used, so the model fills it with [jsonTypeNull]. *)
Definition parseType (input : list (string * value)) (s : schema) : M schema :=
  match mapIndex "type" input with
  | Some typeValue =>
      match typeValue with
      | VString typ =>
          match parseJSONType typ with
          | inr jsonTyp =>
              ret (mkSchema (ID s) (Ref s) (mkSchemaType true true [jsonTyp]) (Items s))
          | inl err => fail err
          end
      | VArray typ =>
          match parseTypeList 0 typ (replicate (length typ) jsonTypeNull) with
          | inr ts =>
              ret (mkSchema (ID s) (Ref s) (mkSchemaType true false ts) (Items s))
          | inl err => fail err
          end
      | _ => fail invalidTypeValue
      end
  | None => ret s
  end.

(** [strconv.FormatInt(int64(i), 10)] for an index. *)
Definition FormatInt (i : nat) : string := pretty i.

(** [s.Items.Schemas[i] = subSchema] *)
Definition setItem (s : schema) (i subSchema : nat) : schema :=
  mkSchema (ID s) (Ref s) (Type_ s)
    (mkSchemaItems (iIsSet (Items s)) (iIsSingle (Items s))
       (<[i := subSchema]> (Schemas (Items s)))).

(** [for i, item := range items] of the tuple form of [items], over the
    recursive call [rec]. *)
Fixpoint parseItemsList (rec : list (string * value) -> M nat)
    (i : nat) (items : list value) (s : schema) : M schema :=
  match items with
  | [] => ret s
  | item :: rest =>
      do_ Push (FormatInt i);
      match item with
      | VMap item =>
          do subSchema <- rec item;
          let s := setItem s i subSchema in
          do_ Pop;
          parseItemsList rec (S i) rest s
      | _ => fail schemaNotObject
      end
  end.

(** [func (p *parser) Parse(input map[string]interface{}) (int, error)] *)
Fixpoint Parse (fuel : nat) (input : list (string * value)) : M nat :=
  match fuel with
  | 0 => fail errFuel
  | S fuel =>
      let s := schema_zero in
      do s <- parseID input s;
      do s <- parseRef input s;
      do s <- parseType input s;
      do s <-
        match mapIndex "items" input with
        | Some itemsValue =>
            match itemsValue with
            | VMap items =>
                do_ Push "items";
                do subSchema <- Parse fuel items;
                let s := mkSchema (ID s) (Ref s) (Type_ s)
                           (mkSchemaItems true true [subSchema]) in
                do_ Pop;
                ret s
            | VArray items =>
                do_ Push "items";
                let s := mkSchema (ID s) (Ref s) (Type_ s)
                           (mkSchemaItems true false (replicate (length items) 0)) in
                do s <- parseItemsList (Parse fuel) 0 items s;
                do_ Pop;
                ret s
            | _ => fail schemaNotObject
            end
        | None => ret s
        end;
      fun p =>
        let '(r, index) := Insert (URI p) s (p_registry p) in
        (mkParser r (baseURI p) (tokens p), inr index)
  end.

(** [func parseSubSchema(registry, baseURI, tokens, input) (schema, error)] *)
Definition parseSubSchema (fuel : nat) (r : registry) (base : URL)
    (toks : list string) (input : list (string * value))
  : registry * (parseError + option schema) :=
  match Parse fuel input (mkParser r base toks) with
  | (p, inr index) => (p_registry p, inr (GetIndex (p_registry p) index))
  | (p, inl err) => (p_registry p, inl err)
  end.

(** [func parseRootSchema(registry, input) (schema, error)] *)
Definition parseRootSchema (fuel : nat) (r : registry)
    (input : list (string * value)) :=
  parseSubSchema fuel r URL_zero [] input.

End WithLib.

(* ===================================================================== *)
(** ** A reference implementation of the collaborators *)
(* ===================================================================== *)

(** A small executable stand-in for [net/url] and [json-pointer], used to
    run the parser on the documents of the tests.  It covers references of
    the form [scheme://host/path#fragment] and their relative forms; user
    information, queries, opaque URLs, percent-escapes and the removal of
    dot segments are left out. *)
Module GoLib.

(** [strings.Cut(s, c)] for a one-byte separator. *)
Fixpoint cut (c : ascii) (s : string) : option (string * string) :=
  match s with
  | EmptyString => None
  | String a rest =>
      if bool_decide (a = c) then Some (EmptyString, rest)
      else match cut c rest with
           | Some (before, after) => Some (String a before, after)
           | None => None
           end
  end.

(** The part of [s] up to and including its last [c] ([base[:i+1]]). *)
Fixpoint uptoLast (c : ascii) (s : string) : string :=
  match s with
  | EmptyString => EmptyString
  | String a rest =>
      match cut c s with
      | None => EmptyString
      | Some _ => String a (uptoLast c rest)
      end
  end.

Definition isLetter (a : ascii) : bool :=
  let n := nat_of_ascii a in
  (Nat.leb 65 n && Nat.leb n 90) || (Nat.leb 97 n && Nat.leb n 122).

Definition isSchemeChar (a : ascii) : bool :=
  let n := nat_of_ascii a in
  (Nat.leb 48 n && Nat.leb n 57) || bool_decide (a = "+"%char)
  || bool_decide (a = "-"%char) || bool_decide (a = "."%char).

(** [getScheme]: [None] is the error "missing protocol scheme". *)
Fixpoint getScheme (i : nat) (s : string) (all : string)
  : option (string * string) :=
  match s with
  | EmptyString => Some (EmptyString, all)
  | String a rest =>
      if isLetter a then
        match getScheme (S i) rest all with
        | Some (EmptyString, _) => Some (EmptyString, all)
        | Some (sch, r) => Some (String a sch, r)
        | None => None
        end
      else if isSchemeChar a then
        match i with
        | 0 => Some (EmptyString, all)
        | _ => match getScheme (S i) rest all with
               | Some (EmptyString, _) => Some (EmptyString, all)
               | Some (sch, r) => Some (String a sch, r)
               | None => None
               end
        end
      else if bool_decide (a = ":"%char) then
        match i with
        | 0 => None
        | _ => Some (String ":"%char EmptyString, rest)
        end
      else Some (EmptyString, all)
  end.

Definition dropColon (s : string) : string :=
  match cut ":"%char s with Some (b, _) => b | None => s end.

Definition hasPrefix (pre s : string) : bool := String.prefix pre s.

Definition parse (rawURL : string) : option URL :=
  let '(u, frag) := match cut "#"%char rawURL with
                    | Some (u, frag) => (u, frag)
                    | None => (rawURL, EmptyString)
                    end in
  match getScheme 0 u u with
  | None => None
  | Some (sch, rest) =>
      let scheme := dropColon sch in
      if hasPrefix "//" rest then
        let after := String.substring 2 (String.length rest - 2) rest in
        match cut "/"%char after with
        | Some (host, path) => Some (mkURL scheme host (String "/"%char path) frag)
        | None => Some (mkURL scheme after EmptyString frag)
        end
      else if bool_decide (scheme <> EmptyString) && negb (hasPrefix "/" rest) then None
      else Some (mkURL scheme EmptyString rest frag)
  end.

Definition resolvePath (base ref : string) : string :=
  let full :=
    if bool_decide (ref = EmptyString) then base
    else if hasPrefix "/" ref then ref
    else String.append (uptoLast "/"%char base) ref in
  if bool_decide (full = EmptyString) then EmptyString
  else if hasPrefix "/" full then full
  else String "/"%char full.

(** [func (u *URL) ResolveReference(ref *URL) *URL] *)
Definition ResolveReference (u ref : URL) : URL :=
  let scheme := if bool_decide (Scheme ref = EmptyString) then Scheme u else Scheme ref in
  if bool_decide (Scheme ref <> EmptyString) || bool_decide (Host ref <> EmptyString) then
    mkURL scheme (Host ref) (resolvePath (Path ref) EmptyString) (Fragment ref)
  else
    let frag := if bool_decide (Path ref = EmptyString) && bool_decide (Fragment ref = EmptyString)
                then Fragment u else Fragment ref in
    mkURL scheme (Host u) (resolvePath (Path u) (Path ref)) frag.

Definition resolve (u : URL) (ref : string) : option URL :=
  match parse ref with
  | Some refURL => Some (ResolveReference u refURL)
  | None => None
  end.

(** Tokens of a pointer: [~1] stands for [/] and [~0] for [~]. *)
Fixpoint escape (t : string) : string :=
  match t with
  | EmptyString => EmptyString
  | String a rest =>
      if bool_decide (a = "~"%char) then String "~"%char (String "0"%char (escape rest))
      else if bool_decide (a = "/"%char) then String "~"%char (String "1"%char (escape rest))
      else String a (escape rest)
  end.

Fixpoint unescape (t : string) : string :=
  match t with
  | EmptyString => EmptyString
  | String a rest =>
      match rest with
      | String b rest' =>
          if bool_decide (a = "~"%char) && bool_decide (b = "1"%char)
          then String "/"%char (unescape rest')
          else if bool_decide (a = "~"%char) && bool_decide (b = "0"%char)
          then String "~"%char (unescape rest')
          else String a (unescape rest)
      | EmptyString => String a EmptyString
      end
  end.

(** [strings.Split(s, "/")] *)
Fixpoint split (s : string) (cur : string) : list string :=
  match s with
  | EmptyString => [cur]
  | String a rest =>
      if bool_decide (a = "/"%char) then cur :: split rest EmptyString
      else split rest (String.append cur (String a EmptyString))
  end.

Definition New (s : string) : option (list string) :=
  match s with
  | EmptyString => Some []
  | String a rest =>
      if bool_decide (a = "/"%char) then Some (unescape <$> split rest EmptyString)
      else None
  end.

Definition String_ (toks : list string) : string :=
  foldr (fun t acc => String.append (String "/"%char (escape t)) acc) EmptyString toks.

#[global] Instance lib : Lib := {|
  url_Parse := parse;
  URL_Parse := resolve;
  jsonpointer_New := New;
  Ptr_String := String_
|}.

End GoLib.


(* ===================================================================== *)
(** ** Documents without nested [$id] *)
(* ===================================================================== *)

(** [stripID v] removes every [$id] member from every object inside [v],
    and from [v] itself when it is an object. *)
Fixpoint stripID (v : value) : value :=
  match v with
  | VArray elems => VArray (map stripID elems)
  | VMap fields =>
      VMap ((fix go (fs : list (string * value)) : list (string * value) :=
               match fs with
               | [] => []
               | (k, w) :: rest =>
                   if bool_decide (k = "$id") then go rest
                   else (k, stripID w) :: go rest
               end) fields)
  | _ => v
  end.

Fixpoint stripFields (fs : list (string * value)) : list (string * value) :=
  match fs with
  | [] => []
  | (k, w) :: rest =>
      if bool_decide (k = "$id") then stripFields rest
      else (k, stripID w) :: stripFields rest
  end.

(** The document with its own members kept and every [$id] below removed. *)
Definition stripNested (fs : list (string * value)) : list (string * value) :=
  map (fun kv => (kv.1, stripID kv.2)) fs.

(* ===================================================================== *)
(** ** vm.go: the state of the executor *)
(* ===================================================================== *)

#[global] Instance URL_countable : Countable URL.
Proof.
  refine (inj_countable'
            (fun u => (Scheme u, Host u, Path u, Fragment u))
            (fun t => match t with (a, b, c, d) => mkURL a b c d end) _).
  by intros [].
Defined.

(** The types and helpers that both versions of the executor share. *)
Module Vm.

(** [ValidationError]; a [jsonpointer.Ptr] is its token list. *)
Record ValidationError : Type := mkValidationError {
  InstancePath : list string;
  SchemaPath : list string;
  URI : URL
}.

(** [schemaStack]: where we are in a schema, and in which one. *)
Record schemaStack : Type := mkSchemaStack {
  id : URL;
  tokens : list string
}.

Record stack : Type := mkStack {
  instance : list string;
  schemas : list schemaStack
}.

Record vm (Schema : Type) : Type := mkVm {
  registry : gmap URL Schema;
  stack_ : stack;
  errors : list ValidationError
}.
Arguments mkVm {Schema} _ _ _.
Arguments registry {Schema} _.
Arguments stack_ {Schema} _.
Arguments errors {Schema} _.

(** How a call ends other than by returning: the two errors of [exec], and
    the two panics that can arise (an index or slice bound out of range,
    and the explicit [panic] on a value that is no JSON). *)
Inductive vmError : Type :=
| errNoSchema (uri : URL)
| errPointer
| panicBounds
| panicNonJSON.

Section WithSchema.
Context {Schema : Type}.

Definition setStack (v : vm Schema) (st : stack) : vm Schema :=
  mkVm (registry v) st (errors v).

(** [func (vm *vm) pushNewSchema(id url.URL, tokens []string)] *)
Definition pushNewSchema (id0 : URL) (toks : list string)
  : ST (vm Schema) vmError unit :=
  fun v =>
    (setStack v (mkStack (instance (stack_ v))
                   (schemas (stack_ v) ++ [mkSchemaStack id0 toks])),
     inr tt).

(** [func (vm *vm) pushSchemaToken(token string)]:
    [s := &vm.stack.schemas[len-1]; s.tokens = append(s.tokens, token)] *)
Definition pushSchemaToken (token : string) : ST (vm Schema) vmError unit :=
  fun v =>
    let ss := schemas (stack_ v) in
    match last ss with
    | None => (v, inl panicBounds)
    | Some s =>
        let s' := mkSchemaStack (id s) (tokens s ++ [token]) in
        (setStack v (mkStack (instance (stack_ v)) (<[length ss - 1 := s']> ss)),
         inr tt)
    end.

(** [func (vm *vm) pushInstanceToken(token string)] *)
Definition pushInstanceToken (token : string) : ST (vm Schema) vmError unit :=
  fun v =>
    (setStack v (mkStack (instance (stack_ v) ++ [token]) (schemas (stack_ v))),
     inr tt).

(** [func (vm *vm) popInstanceToken()] *)
Definition popInstanceToken : ST (vm Schema) vmError unit :=
  fun v =>
    match instance (stack_ v) with
    | [] => (v, inl panicBounds)
    | toks => (setStack v (mkStack (removelast toks) (schemas (stack_ v))), inr tt)
    end.

(** [func (vm *vm) reportError()]: the two paths are copied. *)
Definition reportError : ST (vm Schema) vmError unit :=
  fun v =>
    match last (schemas (stack_ v)) with
    | None => (v, inl panicBounds)
    | Some schemaStack0 =>
        let instancePath := instance (stack_ v) in
        let schemaPath := tokens schemaStack0 in
        (mkVm (registry v) (stack_ v)
           (errors v ++ [mkValidationError instancePath schemaPath (id schemaStack0)]),
         inr tt)
    end.

End WithSchema.

End Vm.

(* ===================================================================== *)
(** ** vm.go: the executor, type checks only *)
(* ===================================================================== *)

Module VM1.
Import Vm.

(** [Schema] as this file uses it: a [Type] with [contains].  The
    constants [JSONTypeNull], ... are the [jsonType] values. *)
Record Schema : Type := mkSchema { Type_ : schemaType }.

(** [func (vm *vm) popSchemaToken()] of vm.go:
    [s := vm.stack.schemas[len-1]] copies the [schemaStack];
    [s.tokens = s.tokens[:len(s.tokens)-1]] shortens the copy, and the
    element of [vm.stack.schemas] is left as it was. *)
Definition popSchemaToken : ST (vm Schema) vmError unit :=
  fun v =>
    match last (schemas (stack_ v)) with
    | None => (v, inl panicBounds)
    | Some s =>
        match tokens s with
        | [] => (v, inl panicBounds)
        | toks =>
            let s := mkSchemaStack (id s) (removelast toks) in
            (v, inr tt)
        end
    end.

(** The three lines every failing branch of [execSchema] runs. *)
Definition typeError : ST (vm Schema) vmError unit :=
  do_ pushSchemaToken "type";
  do_ reportError;
  popSchemaToken.

(** [func (vm *vm) execSchema(schema Schema, instance interface{}) error] *)
Definition execSchema (schema : Schema) (inst : value)
  : ST (vm Schema) vmError unit :=
  do_ match inst with
      | VNil =>
          if negb (contains (Type_ schema) jsonTypeNull) then typeError else ret tt
      | VBool _ =>
          if negb (contains (Type_ schema) jsonTypeBoolean) then typeError else ret tt
      | VFloat val =>
          let typeOk := false in
          let typeOk :=
            if contains (Type_ schema) jsonTypeInteger
            then Float.eq val (Float.Round val) else typeOk in
          if negb typeOk && negb (contains (Type_ schema) jsonTypeNumber)
          then typeError else ret tt
      | VString _ =>
          if negb (contains (Type_ schema) jsonTypeString) then typeError else ret tt
      | VArray _ =>
          if negb (contains (Type_ schema) jsonTypeArray) then typeError else ret tt
      | VMap _ =>
          if negb (contains (Type_ schema) jsonTypeObject) then typeError else ret tt
      | VInt _ => typeError
      end;
  ret tt.

Section WithLib.
Context {L : Lib}.

(** [func (vm *vm) exec(uri url.URL, instance interface{}) error] *)
Definition exec (uri : URL) (inst : value) : ST (vm Schema) vmError unit :=
  fun v =>
    let absoluteURI := withFragment uri EmptyString in
    match registry v !! absoluteURI with
    | None => (v, inl (errNoSchema absoluteURI))
    | Some schema =>
        match jsonpointer_New (Fragment uri) with
        | None => (v, inl errPointer)
        | Some fragPtr =>
            (do_ pushNewSchema absoluteURI fragPtr;
             execSchema schema inst) v
        end
    end.

End WithLib.

End VM1.

(* ===================================================================== *)
(** ** The executor with [items] (the later vm.go, kept with the tests) *)
(* ===================================================================== *)

Module VM2.
Import Vm.

(** [Schema] as this version uses it: [Type] and [Items] are pointers, and
    the sub-schemas are held by value. *)
Inductive Schema : Type :=
| mkSchema (Type_ : option schemaType) (Items : option schemaItems)
with schemaItems : Type :=
| mkSchemaItems (IsSingle : bool) (Single : Schema) (List_ : list Schema).

Definition Type_ (s : Schema) : option schemaType :=
  match s with mkSchema t _ => t end.
Definition Items (s : Schema) : option schemaItems :=
  match s with mkSchema _ i => i end.
Definition IsSingle (i : schemaItems) : bool :=
  match i with mkSchemaItems b _ _ => b end.
Definition Single (i : schemaItems) : Schema :=
  match i with mkSchemaItems _ s _ => s end.
Definition List_ (i : schemaItems) : list Schema :=
  match i with mkSchemaItems _ _ l => l end.

(** [func (vm *vm) popSchemaToken()] of this version:
    [s := &vm.stack.schemas[len-1]; s.tokens = s.tokens[:len(s.tokens)-1]] *)
Definition popSchemaToken : ST (vm Schema) vmError unit :=
  fun v =>
    let ss := schemas (stack_ v) in
    match last ss with
    | None => (v, inl panicBounds)
    | Some s =>
        match tokens s with
        | [] => (v, inl panicBounds)
        | toks =>
            let s' := mkSchemaStack (id s) (removelast toks) in
            (setStack v (mkStack (instance (stack_ v)) (<[length ss - 1 := s']> ss)),
             inr tt)
        end
    end.

Definition typeError : ST (vm Schema) vmError unit :=
  do_ pushSchemaToken "type";
  do_ reportError;
  popSchemaToken.

(** [schema.Type != nil && !schema.Type.contains(t)] *)
Definition typeMismatch (ty : option schemaType) (t : jsonType) : bool :=
  match ty with
  | Some ty => negb (contains ty t)
  | None => false
  end.

(** The body of [for i, elem := range val] in the single-schema branch. *)
Definition itemStep (rec : value -> ST (vm Schema) vmError unit)
    (i : nat) (elem : value) : ST (vm Schema) vmError unit :=
  do_ pushInstanceToken (FormatInt i);
  do_ rec elem;
  popInstanceToken.

(** The body of the loop over a tuple. *)
Definition tupleStep (rec : value -> ST (vm Schema) vmError unit)
    (i : nat) (elem : value) : ST (vm Schema) vmError unit :=
  let token := FormatInt i in
  do_ pushInstanceToken token;
  do_ pushSchemaToken token;
  do_ rec elem;
  do_ popInstanceToken;
  popSchemaToken.

(** [for i, elem := range val { ... }] of the single-schema branch, over
    the recursive call [rec] on [schema.Items.Single]. *)
Fixpoint itemsLoop (rec : value -> ST (vm Schema) vmError unit)
    (i : nat) (val : list value) : ST (vm Schema) vmError unit :=
  match val with
  | [] => ret tt
  | elem :: rest =>
      do_ itemStep rec i elem;
      itemsLoop rec (S i) rest
  end.

(** [for i := 0; i < len(schema.Items.List) && i < len(val); i++ { ... }]
    of the tuple branch, walking the two slices side by side; [recs] are
    the recursive calls on the elements of [schema.Items.List]. *)
Fixpoint tupleLoop (i : nat) (recs : list (value -> ST (vm Schema) vmError unit))
    (val : list value) : ST (vm Schema) vmError unit :=
  match recs, val with
  | rec :: recs', elem :: rest =>
      do_ tupleStep rec i elem;
      tupleLoop (S i) recs' rest
  | _, _ => ret tt
  end.

(** [func (vm *vm) execSchema(schema Schema, instance interface{}) error].
    The value returned by a recursive call is dropped in the source; it is
    always [nil], and a panic unwinds through the callers. *)
Fixpoint execSchema (schema : Schema) (inst : value) {struct schema}
  : ST (vm Schema) vmError unit :=
  match schema with
  | mkSchema ty items =>
      do_ match inst with
          | VNil =>
              if typeMismatch ty jsonTypeNull then typeError else ret tt
          | VBool _ =>
              if typeMismatch ty jsonTypeBoolean then typeError else ret tt
          | VFloat val =>
              match ty with
              | Some ty =>
                  let typeOk := false in
                  let typeOk :=
                    if contains ty jsonTypeInteger
                    then Float.eq val (Float.Round val) else typeOk in
                  if negb typeOk && negb (contains ty jsonTypeNumber)
                  then typeError else ret tt
              | None => ret tt
              end
          | VString _ =>
              if typeMismatch ty jsonTypeString then typeError else ret tt
          | VArray val =>
              do_ (if typeMismatch ty jsonTypeArray then typeError else ret tt);
              match items with
              | Some (mkSchemaItems isSingle single subs) =>
                  if isSingle then
                    do_ pushSchemaToken "items";
                    do_ itemsLoop (execSchema single) 0 val;
                    popSchemaToken
                  else
                    do_ pushSchemaToken "items";
                    do_ tupleLoop 0 (map execSchema subs) val;
                    popSchemaToken
              | None => ret tt
              end
          | VMap _ =>
              if typeMismatch ty jsonTypeObject then typeError else ret tt
          | VInt _ => fail panicNonJSON
          end;
      ret tt
  end.

(** The zero [Schema], which [List[i]] never yields inside the loop. *)
Definition Schema_zero : Schema := mkSchema None None.


Section WithLib.
Context {L : Lib}.

(** [func (vm *vm) exec(uri url.URL, instance interface{}) error] *)
Definition exec (uri : URL) (inst : value) : ST (vm Schema) vmError unit :=
  fun v =>
    let absoluteURI := withFragment uri EmptyString in
    match registry v !! absoluteURI with
    | None => (v, inl (errNoSchema absoluteURI))
    | Some schema =>
        match jsonpointer_New (Fragment uri) with
        | None => (v, inl errPointer)
        | Some fragPtr =>
            (do_ pushNewSchema absoluteURI fragPtr;
             execSchema schema inst) v
        end
    end.

End WithLib.

End VM2.

(* ===================================================================== *)
(** ** parser.go, second part: [Validator.IsValid] *)
(* ===================================================================== *)

(** [regexp]: the two functions [IsValid] calls. *)
Class RegexpLib : Type := {
  Regexp : Type;
  (** [regexp.Compile(expr)]; [None] is the error *)
  regexp_Compile : string -> option Regexp;
  (** [re.MatchString(s)] *)
  MatchString : Regexp -> string -> bool
}.

Module Validator.

Inductive SimpleType : Type :=
| IntegerSimpleType
| NumberSimpleType
| StringSimpleType
| ObjectSimpleType
| ArraySimpleType
| BooleanSimpleType
| NullSimpleType.

(** The types [Schema] and its [Document] are declared outside the sources;
    these are the fields [IsValid] reads, pointers as options. *)
Record schemaType : Type := mkSchemaType {
  IsSingle : bool;
  Single : SimpleType;
  List_ : list SimpleType
}.

Record Document : Type := mkDocument {
  Minimum : option Q;
  ExclusiveMinimum : option Q;
  Maximum : option Q;
  ExclusiveMaximum : option Q;
  MultipleOf : option Q;
  MaxLength : option Z;
  MinLength : option Z;
  Pattern : option string;
  Type_ : option schemaType
}.

Record Schema : Type := mkSchema {
  IsTrivial : bool;
  TrivialValue : bool;
  Document_ : Document
}.

(** [const DefaultEpsilon float64 = 1e-3]: the [float64] nearest to it. *)
Definition DefaultEpsilon : Q := Float.fl (1 # 1000).

Record Validator : Type := mkValidator {
  schema_ : Schema;
  Epsilon : Q
}.

(** [func NewValidator(schema Schema) Validator] *)
Definition NewValidator (schema : Schema) : Validator :=
  mkValidator schema DefaultEpsilon.

(** What a call of [IsValid] does: return a boolean, or panic. *)
Inductive result : Type :=
| Return (b : bool)
| Panic.

(** [utf8.RuneCountInString] on well-formed UTF-8: the bytes that do not
    continue a sequence ([10xxxxxx]). *)
Fixpoint RuneCountInString (s : string) : Z :=
  match s with
  | EmptyString => 0%Z
  | String a rest =>
      let n := nat_of_ascii a in
      ((if Nat.leb 128 n && Nat.leb n 191 then 0 else 1) + RuneCountInString rest)%Z
  end.

(** [func assertSimpleType(simpleType SimpleType, data interface{}) bool] *)
Definition assertSimpleType (simpleType : SimpleType) (data : value) : bool :=
  match simpleType with
  | IntegerSimpleType =>
      match data with
      | VFloat num => if negb (Float.eq num (Float.Trunc num)) then false else true
      | _ => false
      end
  | NumberSimpleType => match data with VFloat _ => true | _ => false end
  | StringSimpleType => match data with VString _ => true | _ => false end
  | ObjectSimpleType => match data with VMap _ => true | _ => false end
  | ArraySimpleType => match data with VArray _ => true | _ => false end
  | BooleanSimpleType => match data with VBool _ => true | _ => false end
  | NullSimpleType => match data with VNil => true | _ => false end
  end.

(** The loop over [document.Type.List]: [allFailed] after it. *)
Fixpoint allFailedAfter (l : list SimpleType) (data : value) (allFailed : bool) : bool :=
  match l with
  | [] => allFailed
  | simpleType :: rest =>
      allFailedAfter rest data
        (if assertSimpleType simpleType data then false else allFailed)
  end.

Section WithRegexp.
Context {R : RegexpLib}.

(** [func (v Validator) IsValid(data interface{}) bool] *)
Definition IsValid (v : Validator) (data : value) : result :=
  if IsTrivial (schema_ v) then Return (TrivialValue (schema_ v)) else
  let document := Document_ (schema_ v) in
  if match Minimum document, data with
     | Some m, VFloat num => Float.lt num m
     | _, _ => false
     end then Return false else
  if match ExclusiveMinimum document, data with
     | Some m, VFloat num => Float.le num m
     | _, _ => false
     end then Return false else
  if match Maximum document, data with
     | Some m, VFloat num => Float.gt num m
     | _, _ => false
     end then Return false else
  if match ExclusiveMaximum document, data with
     | Some m, VFloat num => Float.ge num m
     | _, _ => false
     end then Return false else
  if match MultipleOf document, data with
     | Some d, VFloat num =>
         let mod_ := Float.div (Float.Mod (Float.Abs num) d) d in
         Float.gt mod_ (Epsilon v) && Float.lt mod_ (Float.sub 1 (Epsilon v))
     | _, _ => false
     end then Return false else
  if match MaxLength document, data with
     | Some n, VString str => Z.ltb n (RuneCountInString str)
     | _, _ => false
     end then Return false else
  if match MinLength document, data with
     | Some n, VString str => Z.ltb (RuneCountInString str) n
     | _, _ => false
     end then Return false else
  match
    match Pattern document, data with
    | Some pat, VString str =>
        match regexp_Compile pat with
        | None => Some Panic
        | Some re => if negb (MatchString re str) then Some (Return false) else None
        end
    | _, _ => None
    end
  with
  | Some r => r
  | None =>
      if match Type_ document with
         | Some ty =>
             if IsSingle ty then negb (assertSimpleType (Single ty) data)
             else allFailedAfter (List_ ty) data true
         | None => false
         end then Return false else
      Return true
  end.

End WithRegexp.

(** A [Document] with no keyword, and the two one-keyword documents. *)
Definition Document_zero : Document :=
  mkDocument None None None None None None None None None.

Definition multipleOfOnly (d : Q) : Schema :=
  mkSchema false false
    (mkDocument None None None None (Some d) None None None None).

Definition patternOnly (pat : string) : Schema :=
  mkSchema false false
    (mkDocument None None None None None None None (Some pat) None).

Definition typeOnly (t : SimpleType) : Schema :=
  mkSchema false false
    (mkDocument None None None None None None None None
       (Some (mkSchemaType true t []))).

End Validator.

(** A stand-in for [regexp], enough to run [IsValid]: a pattern with a [[]
    that is never closed does not compile, and a pattern that compiles is
    searched for as it stands. *)
Module ToyRegexp.

Fixpoint closed (s : string) (inClass : bool) : bool :=
  match s with
  | EmptyString => negb inClass
  | String a rest =>
      if inClass then closed rest (negb (bool_decide (a = "]"%char)))
      else closed rest (bool_decide (a = "["%char))
  end.

Fixpoint search (pat s : string) : bool :=
  String.prefix pat s ||
  match s with
  | EmptyString => false
  | String _ rest => search pat rest
  end.

#[global] Instance lib : RegexpLib := {|
  Regexp := string;
  regexp_Compile := fun pat => if closed pat false then Some pat else None;
  MatchString := search
|}.

End ToyRegexp.

(* ===================================================================== *)
(** ** Sealing and the executor over the registry *)
(* ===================================================================== *)

(** The registry's seal pass, [NewValidator], [Validate] and the executor
    they run ([$ref], [allOf], [MaxErrors], [MaxStackDepth]) are not among
    the sources; the tests that call them are.  They are modelled here from
    sections 4.2, 4.3 and 6 of the specification, over the [schema] nodes
    that parser.go produces and the stacks of vm.go. *)
Module Executor.
Import Vm.

(** Modelled from the spec: [ValidatorConfig]; the sources use it only in
    the tests ([MaxErrors: 5, MaxStackDepth: 10]).  [MaxErrors = 0] is the
    default, "effectively unbounded". *)
Record ValidatorConfig : Type := mkConfig {
  MaxErrors : nat;
  MaxStackDepth : nat
}.

(** Modelled from the spec: what happens once [MaxErrors] errors are
    recorded, which is missing with the executor.  The specification and
    the tests disagree here.  [ContinueAfterCap] follows the words of
    section 4.3, "no new errors are appended, but traversal mechanics
    continue unaffected".  [StopAtCap] is what [TestValidatorMaxErrors]
    asserts of the program ("max depth > errors, so no stack overflow should
    occur"): the run ends at the cap.  [NewValidator] builds validators
    with [StopAtCap]; the other reading is kept for comparison. *)
Inductive capPolicy : Type :=
| StopAtCap
| ContinueAfterCap.

(** Modelled from the spec: a node of the sealed registry, the [schema] of
    parser.go together with [allOf], "ordered sequences of sub-schema
    indices" (section 3), which the parser at hand does not read. *)
Record node : Type := mkNode {
  base : schema;
  AllOf : list nat
}.

Definition nodeOf (s : schema) : node := mkNode s [].

(** Modelled from the spec: the two ways a build fails (section 7),
    under the names the tests use. *)
Inductive buildError : Type :=
| ErrInvalidSchema (e : parseError)
| ErrMissingURIs (URIs : list URL).

(** Modelled from the spec: how a run ends other than by returning
    (section 7): the stack overflow, the failed lookup of a schema, and the
    panics of vm.go; [errMaxErrors] is the signal that the error list is
    full, and [errExecFuel] marks a run of the model with too little
    fuel. *)
Inductive execError : Type :=
| ErrStackOverflow
| ErrNoSuchSchema
| errMaxErrors
| errPanic (e : vmError)
| errExecFuel.

(** Modelled from the spec: the state a run owns, the [stack] and the
    [errors] of the [vm] of vm.go. *)
Record state : Type := mkState {
  stack_ : stack;
  errors : list ValidationError
}.

(** Modelled from the spec: a validator, the sealed registry, the index of
    the root of the first document and the configuration; [policy] is no
    field of the program (see [capPolicy]). *)
Record Validator : Type := mkValidator {
  registry : list (URL * node);
  root : nat;
  config : ValidatorConfig;
  policy : capPolicy
}.

(** Modelled from the spec: the helpers of vm.go (in their later version)
    on this state, and [popSchema], which closes what [pushNewSchema]
    opened. *)
Definition pushNewSchema (id0 : URL) (toks : list string) : ST state execError unit :=
  fun st =>
    (mkState (mkStack (instance (stack_ st))
                (schemas (stack_ st) ++ [mkSchemaStack id0 toks])) (errors st),
     inr tt).

Definition popSchema : ST state execError unit :=
  fun st =>
    match schemas (stack_ st) with
    | [] => (st, inl (errPanic panicBounds))
    | ss => (mkState (mkStack (instance (stack_ st)) (removelast ss)) (errors st),
             inr tt)
    end.

Definition pushSchemaToken (token : string) : ST state execError unit :=
  fun st =>
    let ss := schemas (stack_ st) in
    match last ss with
    | None => (st, inl (errPanic panicBounds))
    | Some s =>
        let s' := mkSchemaStack (id s) (tokens s ++ [token]) in
        (mkState (mkStack (instance (stack_ st)) (<[length ss - 1 := s']> ss))
           (errors st),
         inr tt)
    end.

Definition popSchemaToken : ST state execError unit :=
  fun st =>
    let ss := schemas (stack_ st) in
    match last ss with
    | None => (st, inl (errPanic panicBounds))
    | Some s =>
        match tokens s with
        | [] => (st, inl (errPanic panicBounds))
        | toks =>
            let s' := mkSchemaStack (id s) (removelast toks) in
            (mkState (mkStack (instance (stack_ st)) (<[length ss - 1 := s']> ss))
               (errors st),
             inr tt)
        end
    end.

Definition pushInstanceToken (token : string) : ST state execError unit :=
  fun st =>
    (mkState (mkStack (instance (stack_ st) ++ [token]) (schemas (stack_ st)))
       (errors st),
     inr tt).

Definition popInstanceToken : ST state execError unit :=
  fun st =>
    match instance (stack_ st) with
    | [] => (st, inl (errPanic panicBounds))
    | toks => (mkState (mkStack (removelast toks) (schemas (stack_ st))) (errors st),
               inr tt)
    end.

(** Modelled from the spec: [reportError] under the error cap.  With
    [StopAtCap] the error that fills the list ends the run ([errMaxErrors],
    which [Validate] turns into a result); with [ContinueAfterCap] a full
    list is left as it is and the caller goes on. *)
Definition reportError (cfg : ValidatorConfig) (pol : capPolicy)
  : ST state execError unit :=
  fun st =>
    match last (schemas (stack_ st)) with
    | None => (st, inl (errPanic panicBounds))
    | Some schemaStack0 =>
        let err := mkValidationError (instance (stack_ st)) (tokens schemaStack0)
                     (id schemaStack0) in
        match pol with
        | StopAtCap =>
            let st' := mkState (stack_ st) (errors st ++ [err]) in
            if bool_decide (length (errors st') = MaxErrors cfg)
            then (st', inl errMaxErrors) else (st', inr tt)
        | ContinueAfterCap =>
            if bool_decide (MaxErrors cfg <> 0 /\ length (errors st) = MaxErrors cfg)
            then (st, inr tt)
            else (mkState (stack_ st) (errors st ++ [err]), inr tt)
        end
    end.

Section WithLib.
Context {L : Lib}.

(** *** Building and sealing *)

(** Modelled from the spec: the loop of the build step over the documents,
    "each document is parsed with an empty base URI unless it declares
    [$id]" (section 6), that is [parseRootSchema] on each, keeping the
    index of each root; the fuel given to [Parse] is above the depth of the
    document (see [Parse_total]). *)
Fixpoint parseAll (docs : list (list (string * value)))
    (r : list (URL * schema)) (roots : list nat)
  : parseError + (list (URL * schema) * list nat) :=
  match docs with
  | [] => inr (r, roots)
  | doc :: rest =>
      match Parse (S (depthFields doc)) doc (mkParser r URL_zero []) with
      | (p, inr index) => parseAll rest (p_registry p) (roots ++ [index])
      | (_, inl err) => inl err
      end
  end.

(** Modelled from the spec: "checks whether a Schema Node exists whose
    id/root URI matches the ref's absolute target" (section 4.2). *)
Definition hasDocument (r : list (URL * schema)) (target : URL) : bool :=
  existsb (fun e => bool_decide (withFragment e.1 EmptyString = target)) r.

(** Modelled from the spec: a node with a [$ref] whose target document is
    not registered. *)
Definition unresolved (r : list (URL * schema)) (e : URL * schema) : bool :=
  rIsSet (Ref e.2) && negb (hasDocument r (rBaseURI (Ref e.2))).

(** Modelled from the spec: the seal pass, which "iterates every inserted
    Schema Node in insertion order" and collects the missing targets, one
    per referencing node ("deduplication is not applied"). *)
Definition missingURIs (r : list (URL * schema)) : list URL :=
  (fun e => rBaseURI (Ref e.2)) <$> filter (fun e => unresolved r e = true) r.

(** Modelled from the spec: "if the list is non-empty, sealing fails with
    a structured error carrying that list". *)
Definition seal (r : list (URL * schema)) : buildError + list (URL * node) :=
  match missingURIs r with
  | [] => inr ((fun e => (e.1, nodeOf e.2)) <$> r)
  | uris => inl (ErrMissingURIs uris)
  end.

(** Modelled from the spec: [NewValidatorWithConfig(schemas, config)];
    "validates against the first/root document" (section 6). *)
Definition NewValidatorWithConfig (docs : list (list (string * value)))
    (cfg : ValidatorConfig) : buildError + Validator :=
  match parseAll docs [] [] with
  | inl err => inl (ErrInvalidSchema err)
  | inr (r, roots) =>
      match seal r with
      | inl err => inl err
      | inr nodes => inr (mkValidator nodes (default 0 (head roots)) cfg StopAtCap)
      end
  end.

(** Modelled from the spec: the defaults, [MaxErrors] "effectively
    unbounded" and [MaxStackDepth] "e.g. 64". *)
Definition defaultConfig : ValidatorConfig := mkConfig 0 64.

Definition NewValidator (docs : list (list (string * value)))
  : buildError + Validator :=
  NewValidatorWithConfig docs defaultConfig.

(** *** Execution *)

(** Modelled from the spec: the target of a reference, the node registered
    under the absolute target URI with the pointer as its fragment. *)
Definition resolve (r : list (URL * node)) (ref : schemaRef)
  : option (nat * (URL * node)) :=
  list_find (fun e => e.1 = withFragment (rBaseURI ref) (Ptr_String (rPtr ref))) r.

(** The three lines of a failing check, as in vm.go. *)
Definition typeError (cfg : ValidatorConfig) (pol : capPolicy)
  : ST state execError unit :=
  do_ pushSchemaToken "type";
  do_ reportError cfg pol;
  popSchemaToken.

(** [schema.Type] is set and does not contain [t]. *)
Definition typeMismatch (ty : schemaType) (t : jsonType) : bool :=
  tIsSet ty && negb (contains ty t).

(** [for i, elem := range val] under a single [items] schema. *)
Fixpoint itemsLoop (rec : value -> ST state execError unit)
    (i : nat) (val : list value) : ST state execError unit :=
  match val with
  | [] => ret tt
  | elem :: rest =>
      do_ pushInstanceToken (FormatInt i);
      do_ rec elem;
      do_ popInstanceToken;
      itemsLoop rec (S i) rest
  end.

(** [for i := 0; i < len(Schemas) && i < len(val); i++] under a tuple. *)
Fixpoint tupleLoop (rec : nat -> value -> ST state execError unit)
    (i : nat) (subs : list nat) (val : list value) : ST state execError unit :=
  match subs, val with
  | sub :: subs', elem :: rest =>
      let token := FormatInt i in
      do_ pushInstanceToken token;
      do_ pushSchemaToken token;
      do_ rec sub elem;
      do_ popInstanceToken;
      do_ popSchemaToken;
      tupleLoop rec (S i) subs' rest
  | _, _ => ret tt
  end.

(** The members of [allOf], each under its index. *)
Fixpoint allOfLoop (rec : nat -> ST state execError unit)
    (i : nat) (subs : list nat) : ST state execError unit :=
  match subs with
  | [] => ret tt
  | sub :: rest =>
      do_ pushSchemaToken (FormatInt i);
      do_ rec sub;
      do_ popSchemaToken;
      allOfLoop rec (S i) rest
  end.

(** Modelled from the spec: the step for [$ref] (section 4.3): a reference
    "pushes a new schema-stack entry tagged with the target schema's own id
    and an empty token list, increments current depth, and recurses into
    the target Schema Node with the same instance value and instance path",
    and "exceeding [MaxStackDepth] aborts the entire validation call with a
    stack-overflow failure".  [depth] counts the references that are open;
    [rec] is the recursive call. *)
Definition refStep (rec : nat -> nat -> value -> ST state execError unit)
    (v : Validator) (depth : nat) (ref : schemaRef) (inst : value)
  : ST state execError unit :=
  if rIsSet ref then
    match resolve (registry v) ref with
    | None => fail ErrNoSuchSchema
    | Some (target, (uri, _)) =>
        do_ pushNewSchema (withFragment uri EmptyString) [];
        let depth := depth + 1 in
        if bool_decide (MaxStackDepth (config v) < depth)
        then fail ErrStackOverflow
        else
          do_ rec depth target inst;
          popSchema
    end
  else ret tt.

(** Modelled from the spec: the checks by the runtime tag of the instance;
    they are those of the executor with [items] above, with the sub-schemas
    taken from the registry by index; [rec] is the recursive call on a node
    and a value. *)
Definition instanceStep (rec : nat -> value -> ST state execError unit)
    (cfg : ValidatorConfig) (pol : capPolicy) (s : schema) (inst : value)
  : ST state execError unit :=
  match inst with
  | VNil =>
      if typeMismatch (Type_ s) jsonTypeNull then typeError cfg pol else ret tt
  | VBool _ =>
      if typeMismatch (Type_ s) jsonTypeBoolean then typeError cfg pol else ret tt
  | VFloat val =>
      if tIsSet (Type_ s) then
        let typeOk := false in
        let typeOk :=
          if contains (Type_ s) jsonTypeInteger
          then Float.eq val (Float.Round val) else typeOk in
        if negb typeOk && negb (contains (Type_ s) jsonTypeNumber)
        then typeError cfg pol else ret tt
      else ret tt
  | VString _ =>
      if typeMismatch (Type_ s) jsonTypeString then typeError cfg pol else ret tt
  | VArray val =>
      do_ (if typeMismatch (Type_ s) jsonTypeArray
           then typeError cfg pol else ret tt);
      if iIsSet (Items s) then
        if iIsSingle (Items s) then
          match Schemas (Items s) !! 0 with
          | None => fail (errPanic panicBounds)
          | Some sub =>
              do_ pushSchemaToken "items";
              do_ itemsLoop (rec sub) 0 val;
              popSchemaToken
          end
        else
          do_ pushSchemaToken "items";
          do_ tupleLoop rec 0 (Schemas (Items s)) val;
          popSchemaToken
      else ret tt
  | VMap _ =>
      if typeMismatch (Type_ s) jsonTypeObject then typeError cfg pol else ret tt
  | VInt _ => fail (errPanic panicNonJSON)
  end.

(** Modelled from the spec: [allOf], "every member must independently
    validate; all of their errors propagate". *)
Definition allOfStep (rec : nat -> ST state execError unit) (subs : list nat)
  : ST state execError unit :=
  match subs with
  | [] => ret tt
  | _ =>
      do_ pushSchemaToken "allOf";
      do_ allOfLoop rec 0 subs;
      popSchemaToken
  end.

(** Modelled from the spec: the executor over the sealed registry, on the
    node at [index].  [errExecFuel] marks a run of the model with too little
    fuel. *)
Fixpoint exec (fuel : nat) (v : Validator) (depth index : nat) (inst : value)
  : ST state execError unit :=
  match fuel with
  | 0 => fail errExecFuel
  | S fuel =>
      match registry v !! index with
      | None => fail (errPanic panicBounds)
      | Some (_, nd) =>
          do_ refStep (exec fuel v) v depth (Ref (base nd)) inst;
          do_ instanceStep (exec fuel v depth) (config v) (policy v) (base nd) inst;
          do_ allOfStep (fun sub => exec fuel v depth sub inst) (AllOf nd);
          ret tt
      end
  end.

(** Modelled from the spec: the run of [validate(registry, instance,
    config)] "against the first/root document": the state it ends in, and
    how it ends. *)
Definition run (fuel : nat) (v : Validator) (inst : value)
  : state * (execError + unit) :=
  let st0 := mkState (mkStack [] []) [] in
  match registry v !! root v with
  | None => (st0, inl ErrNoSuchSchema)
  | Some (uri, _) =>
      (do_ pushNewSchema (withFragment uri EmptyString) [];
       exec fuel v 0 (root v) inst) st0
  end.

(** Modelled from the spec: what [validate] returns, the list of recorded
    errors or the failure that ended the run.  A run ended by the error
    cap returns its errors ([TestValidatorMaxErrors]). *)
Definition Validate (fuel : nat) (v : Validator) (inst : value)
  : execError + list ValidationError :=
  match run fuel v inst with
  | (st, inr _) => inr (errors st)
  | (st, inl errMaxErrors) => inr (errors st)
  | (_, inl e) => inl e
  end.

End WithLib.

End Executor.

(* ===================================================================== *)
(** ** The documents and registries of the tests *)
(* ===================================================================== *)

(** The document of the test "references to non-existent URIs". *)
Definition docMissingRefs : list (string * value) :=
  [("$ref", VString "http://example.com/1");
   ("items", VArray [VMap [("$ref", VString "http://example.com/2")];
                     VMap [("$ref", VString "http://example.com/3")];
                     VMap [("$ref", VString "http://example.com/4#/fragment")]])].

(** A nested object that declares its own [$id] and refers to itself. *)
Definition nestedWithID : list (string * value) :=
  [("$id", VString "http://other.example/nested"); ("$ref", VString "#")].

Definition docNestedID : list (string * value) :=
  [("$id", VString "http://example.com/root"); ("items", VMap nestedWithID)].

(** The schema [{"type": "null"}] for the two versions of the executor. *)
Definition typeNull : schemaType := mkSchemaType true true [jsonTypeNull].

Definition vm1Start : Vm.vm VM1.Schema :=
  Vm.mkVm {[ URL_zero := VM1.mkSchema typeNull ]} (Vm.mkStack [] []) [].

Definition vm2Start : Vm.vm VM2.Schema :=
  Vm.mkVm {[ URL_zero := VM2.mkSchema (Some typeNull) None ]} (Vm.mkStack [] []) [].

(** The schemas of three scenarios, for the executor with [items]:
    [{"items": {"type": "null"}}], [{"type": ["null", "integer"]}] and
    [{"items": [{"type": "null"}]}]; and its state inside [exec]. *)
Definition itemsAllNull : VM2.Schema :=
  VM2.mkSchema None
    (Some (VM2.mkSchemaItems true (VM2.mkSchema (Some typeNull) None) [])).

Definition nullOrInteger : VM2.Schema :=
  VM2.mkSchema (Some (mkSchemaType true false [jsonTypeNull; jsonTypeInteger])) None.

Definition tupleOfNull : VM2.Schema :=
  VM2.mkSchema None
    (Some (VM2.mkSchemaItems false VM2.Schema_zero
             [VM2.mkSchema (Some typeNull) None])).

Definition vm2AtRoot : Vm.vm VM2.Schema :=
  Vm.mkVm ∅ (Vm.mkStack [] [Vm.mkSchemaStack URL_zero []]) [].

(** A state of vm.go inside [exec], after [pushNewSchema]. *)
Definition vmAtRoot : Vm.vm VM1.Schema :=
  Vm.mkVm ∅ (Vm.mkStack [] [Vm.mkSchemaStack URL_zero []]) [].

(** The document of [TestValidatorOverflow] and the registry it seals to. *)
Definition docSelfRef : list (string * value) := [("$ref", VString "#")].

Definition refToRoot : schemaRef := mkSchemaRef true 0 URL_zero URL_zero [].

Definition registrySelfRef : list (URL * Executor.node) :=
  [(URL_zero,
    Executor.nodeOf (mkSchema URL_zero refToRoot schemaType_zero schemaItems_zero))].

(** The registry of [TestValidatorMaxErrors],
    [{"allOf": [{"type": "null"}, {"$ref": "#"}]}], in insertion order. *)
Definition registryMaxErrors : list (URL * Executor.node) :=
  [(mkURL EmptyString EmptyString EmptyString "/allOf/0",
    Executor.mkNode (mkSchema URL_zero schemaRef_zero typeNull schemaItems_zero) []);
   (mkURL EmptyString EmptyString EmptyString "/allOf/1",
    Executor.mkNode (mkSchema URL_zero refToRoot schemaType_zero schemaItems_zero) []);
   (URL_zero, Executor.mkNode schema_zero [0; 1])].

(** The validator of the test ([MaxErrors: 5, MaxStackDepth: 10]), and the
    same with the list left to grow. *)
Definition validatorMaxErrors (pol : Executor.capPolicy) : Executor.Validator :=
  Executor.mkValidator registryMaxErrors 2 (Executor.mkConfig 5 10) pol.

Definition validatorUncapped : Executor.Validator :=
  Executor.mkValidator registryMaxErrors 2 (Executor.mkConfig 0 10) Executor.StopAtCap.

(** The error the test expects five times. *)
Definition expectedError : Vm.ValidationError :=
  Vm.mkValidationError [] ["allOf"; "0"; "type"] URL_zero.

(* ===================================================================== *)
(** ** Predicates of the statements *)
(* ===================================================================== *)

(** Every node inserted at or after position [lo] has all its [items]
    sub-schemas at positions from [lo] up to, and excluding, its own, and
    the base of its reference is the target without its fragment. *)
Definition childrenBefore (lo : nat) (r : registry) : Prop :=
  forall j u s, lo <= j -> r !! j = Some (u, s) ->
    Forall (fun c => lo <= c < j) (Schemas (Items s)) /\
    rBaseURI (Ref s) = withFragment (rURI (Ref s)) EmptyString.

(** The first [i] slots of a tuple's index list are filled with positions
    in [[lo, hi)]. *)
Definition slotsFilled (lo hi i : nat) (l : list nat) : Prop :=
  forall k c, k < i -> l !! k = Some c -> lo <= c < hi.

(** What a run of the recursive call guarantees. *)
Definition parseGrows (rec : list (string * value) -> M nat) : Prop :=
  forall input p p' res lo,
    rec input p = (p', res) ->
    lo <= length (p_registry p) ->
    childrenBefore lo (p_registry p) ->
    (exists added, p_registry p' = p_registry p ++ added) /\
    childrenBefore lo (p_registry p') /\
    (forall idx, res = inr idx ->
       length (p_registry p) <= idx /\ S idx = length (p_registry p')).

(** A call that returns leaves the token stack as it found it, and below
    the root it leaves the base URI alone. *)
Definition parseKeeps (rec : list (string * value) -> M nat) : Prop :=
  forall input p p' res,
    rec input p = (p', res) ->
    (forall idx, res = inr idx -> tokens p' = tokens p) /\
    (tokens p <> [] -> baseURI p' = baseURI p).

(** [input'] answers every lookup but [$id] as [input] does, up to [$id]
    members below. *)
Definition sameBelow (input' input : list (string * value)) : Prop :=
  forall key, key <> "$id" -> mapIndex key input' = stripID <$> mapIndex key input.

(** A computation that never runs out of fuel. *)
Definition neverFuel {A} (m : M A) : Prop := forall p, (m p).2 <> inl errFuel.

(** Whether the [type] check of [VM1.execSchema] lets an instance through. *)
Definition typeOk (ty : schemaType) (inst : value) : bool :=
  match inst with
  | VFloat val =>
      (contains ty jsonTypeInteger && Float.eq val (Float.Round val))
      || contains ty jsonTypeNumber
  | VInt _ => false
  | _ => match tagOf inst with
         | Some t => contains ty t
         | None => false
         end
  end.

(** A computation that, when it returns, has put the stacks back. *)
Definition restores (m : ST (Vm.vm VM2.Schema) Vm.vmError unit) : Prop :=
  forall v v', m v = (v', inr tt) -> Vm.stack_ v' = Vm.stack_ v.

(** A computation that, started below the cap, ends at the cap exactly when
    it ends with [errMaxErrors], and below it otherwise. *)
Definition capped (N : nat) {A} (m : ST Executor.state Executor.execError A) : Prop :=
  forall st st' res,
    length (Executor.errors st) < N -> m st = (st', res) ->
    match res with
    | inl Executor.errMaxErrors => length (Executor.errors st') = N
    | _ => length (Executor.errors st') < N
    end.

(** A computation that records nothing and does not end at the cap. *)
Definition silent {A} (m : ST Executor.state Executor.execError A) : Prop :=
  forall st st' res,
    m st = (st', res) ->
    Executor.errors st' = Executor.errors st /\ res <> inl Executor.errMaxErrors.

(* ===================================================================== *)
(** ** Further definitions of the statements *)
(* ===================================================================== *)

(** The name [parseJSONType] reads a type from. *)
Definition jsonTypeName (t : jsonType) : string :=
  match t with
  | jsonTypeNull => "null"
  | jsonTypeBoolean => "boolean"
  | jsonTypeNumber => "number"
  | jsonTypeInteger => "integer"
  | jsonTypeString => "string"
  | jsonTypeArray => "array"
  | jsonTypeObject => "object"
  end.

(** A tuple whose second element is no object, and an object with a
    keyword the parser does not know. *)
Definition docBadTuple : list (string * value) :=
  [("items", VArray [VMap []; VString "foo"])].

Definition docWithPattern : list (string * value) :=
  [("type", VString "null"); ("pattern", VString "[")].

(** A value of [encoding/json] all through: no [VInt] inside. *)
Fixpoint isJSON (v : value) : bool :=
  match v with
  | VArray elems => forallb isJSON elems
  | VMap fields => forallb (fun kv => isJSON kv.2) fields
  | VInt _ => false
  | _ => true
  end.

(** [m'] returns whatever [m] returns short of running out of fuel. *)
Definition fuelRefines {A} (m m' : M A) : Prop :=
  forall p p' res, m p = (p', res) -> res <> inl errFuel -> m' p = (p', res).

(** What the executor with [items] is to decide: the [type] of a schema
    admits the instance, and so do the schemas under [items] for the
    elements of an array, one schema for all of them or one for each of the
    leading ones. *)
Definition typeValid (ty : option schemaType) (inst : value) : bool :=
  match ty with
  | Some ty => typeOk ty inst
  | None => true
  end.

Fixpoint allPairs (checks : list (value -> bool)) (val : list value) : bool :=
  match checks, val with
  | check :: checks', elem :: rest => check elem && allPairs checks' rest
  | _, _ => true
  end.

Fixpoint valid (schema : VM2.Schema) (inst : value) {struct schema} : bool :=
  match schema with
  | VM2.mkSchema ty items =>
      typeValid ty inst &&
      match inst, items with
      | VArray val, Some (VM2.mkSchemaItems isSingle single subs) =>
          if isSingle then forallb (valid single) val
          else allPairs (map valid subs) val
      | _, _ => true
      end
  end.

(** An error recorded below the instance path [inst] and the place [s] of
    the schema stack. *)
Definition rootedAt (inst : list string) (s : Vm.schemaStack)
    (e : Vm.ValidationError) : Prop :=
  Vm.URI e = Vm.id s /\
  inst `prefix_of` Vm.InstancePath e /\
  Vm.tokens s `prefix_of` Vm.SchemaPath e.

(** A step of the executor started with [s] on top of the schema stack: it
    appends errors rooted at the place it started from, puts the stacks
    back when it returns, and on a JSON value ([J]) it returns, with no
    error exactly when the value is valid ([V]). *)
Definition checks (J V : bool) (m : ST (Vm.vm VM2.Schema) Vm.vmError unit) : Prop :=
  forall v s,
    last (Vm.schemas (Vm.stack_ v)) = Some s ->
    exists v' res new,
      m v = (v', res) /\
      Vm.registry v' = Vm.registry v /\
      Vm.errors v' = Vm.errors v ++ new /\
      Forall (rootedAt (Vm.instance (Vm.stack_ v)) s) new /\
      (res = inr tt -> Vm.stack_ v' = Vm.stack_ v) /\
      (J = true -> res = inr tt /\ (new = [] <-> V = true)).

(** A validator of [IsValid] with the keywords for numbers, for strings or
    [type] taken out of its document. *)
Definition withoutNumeric (v : Validator.Validator) : Validator.Validator :=
  let s := Validator.schema_ v in
  let d := Validator.Document_ s in
  Validator.mkValidator
    (Validator.mkSchema (Validator.IsTrivial s) (Validator.TrivialValue s)
       (Validator.mkDocument None None None None None
          (Validator.MaxLength d) (Validator.MinLength d) (Validator.Pattern d)
          (Validator.Type_ d)))
    (Validator.Epsilon v).

Definition withoutString (v : Validator.Validator) : Validator.Validator :=
  let s := Validator.schema_ v in
  let d := Validator.Document_ s in
  Validator.mkValidator
    (Validator.mkSchema (Validator.IsTrivial s) (Validator.TrivialValue s)
       (Validator.mkDocument
          (Validator.Minimum d) (Validator.ExclusiveMinimum d)
          (Validator.Maximum d) (Validator.ExclusiveMaximum d)
          (Validator.MultipleOf d) None None None (Validator.Type_ d)))
    (Validator.Epsilon v).

Definition withoutType (v : Validator.Validator) : Validator.Validator :=
  let s := Validator.schema_ v in
  let d := Validator.Document_ s in
  Validator.mkValidator
    (Validator.mkSchema (Validator.IsTrivial s) (Validator.TrivialValue s)
       (Validator.mkDocument
          (Validator.Minimum d) (Validator.ExclusiveMinimum d)
          (Validator.Maximum d) (Validator.ExclusiveMaximum d)
          (Validator.MultipleOf d)
          (Validator.MaxLength d) (Validator.MinLength d) (Validator.Pattern d)
          None))
    (Validator.Epsilon v).

(** A [type] admits a value: the one type does, or one of the list. *)
Definition typeAccepts (ty : Validator.schemaType) (data : value) : bool :=
  if Validator.IsSingle ty then Validator.assertSimpleType (Validator.Single ty) data
  else existsb (fun t => Validator.assertSimpleType t data) (Validator.List_ ty).

(** The type of [IsValid] that goes with a runtime tag. *)
Definition simpleTypeOf (t : jsonType) : Validator.SimpleType :=
  match t with
  | jsonTypeNull => Validator.NullSimpleType
  | jsonTypeBoolean => Validator.BooleanSimpleType
  | jsonTypeNumber => Validator.NumberSimpleType
  | jsonTypeInteger => Validator.IntegerSimpleType
  | jsonTypeString => Validator.StringSimpleType
  | jsonTypeArray => Validator.ArraySimpleType
  | jsonTypeObject => Validator.ObjectSimpleType
  end.

(* ===================================================================== *)
(** ** Properties of the parser *)
(* ===================================================================== *)

Section ParserFacts.
Context {L : Lib}.

(** Splitting a run of [bind]. *)
Lemma bind_inv {S E A B} (m : ST S E A) (k : A -> ST S E B) p p' res :
  bind m k p = (p', res) ->
  (exists p1 a, m p = (p1, inr a) /\ k a p1 = (p', res)) \/
  (exists e, m p = (p', inl e) /\ res = inl e).
Proof.
  unfold bind. destruct (m p) as [p1 [e | a]] eqn:Hm; intros H.
  - right. exists e. by inversion H.
  - left. by exists p1, a.
Qed.

Lemma Parse_S fuel input :
  Parse (S fuel) input =
    (do s <- parseID input schema_zero;
     do s <- parseRef input s;
     do s <- parseType input s;
     do s <-
       match mapIndex "items" input with
       | Some itemsValue =>
           match itemsValue with
           | VMap items =>
               do_ Push "items";
               do subSchema <- Parse fuel items;
               let s := mkSchema (ID s) (Ref s) (Type_ s)
                          (mkSchemaItems true true [subSchema]) in
               do_ Pop;
               ret s
           | VArray items =>
               do_ Push "items";
               let s := mkSchema (ID s) (Ref s) (Type_ s)
                          (mkSchemaItems true false (replicate (length items) 0)) in
               do s <- parseItemsList (Parse fuel) 0 items s;
               do_ Pop;
               ret s
           | _ => fail schemaNotObject
           end
       | None => ret s
       end;
     fun p =>
       let '(r, index) := Insert (URI p) s (p_registry p) in
       (mkParser r (baseURI p) (tokens p), inr index)).
Proof. reflexivity. Qed.

(** The three keyword blocks before [items] leave the registry and the
    token stack alone, and never touch [Items]. *)
Lemma parseID_inv input s p p' res :
  parseID input s p = (p', res) ->
  p_registry p' = p_registry p /\ tokens p' = tokens p /\
  (tokens p <> [] -> p' = p /\ res = inr s) /\
  (forall s', res = inr s' -> Items s' = Items s /\ Ref s' = Ref s /\ Type_ s' = Type_ s).
Proof.
  unfold parseID. intros H.
  case_bool_decide as Hlen.
  - assert (tokens p = []) as Htok by (by destruct (tokens p)).
    destruct (mapIndex "$id" input) as [[| | |idStr| | |]|];
      try destruct (url_Parse idStr);
      inversion H; subst; simpl; split_and!; try done;
      intros s' Hs'; inversion Hs'; by subst.
  - inversion H; subst. split_and!; try done.
    intros s' Hs'; by inversion Hs'; subst.
Qed.

Lemma parseRef_inv input s p p' res :
  parseRef input s p = (p', res) ->
  p' = p /\
  (forall s', res = inr s' ->
     Items s' = Items s /\ ID s' = ID s /\ Type_ s' = Type_ s /\
     (rBaseURI (Ref s) = withFragment (rURI (Ref s)) EmptyString ->
      rBaseURI (Ref s') = withFragment (rURI (Ref s')) EmptyString)).
Proof.
  unfold parseRef. intros H.
  destruct (mapIndex "$ref" input) as [[| | |refStr| | |]|];
    try destruct (URL_Parse (baseURI p) refStr) as [uri|];
    try destruct (jsonpointer_New (Fragment uri));
    inversion H; subst; split; try done;
    intros s' Hs'; inversion Hs'; by subst.
Qed.

Lemma parseType_inv input s p p' res :
  parseType input s p = (p', res) ->
  p' = p /\ (forall s', res = inr s' -> Items s' = Items s /\ ID s' = ID s /\ Ref s' = Ref s).
Proof.
  unfold parseType, ret, fail. intros H.
  destruct (mapIndex "type" input) as [[| | |typ|typ| |]|];
    try destruct (parseJSONType typ);
    try destruct (parseTypeList 0 typ _);
    inversion H; subst; split; try done;
    intros s' Hs'; inversion Hs'; by subst.
Qed.

(** *** The node a call inserts *)

Lemma parseItemsList_fields rec items :
  forall i s p p' s',
    parseItemsList rec i items s p = (p', inr s') ->
    ID s' = ID s /\ Ref s' = Ref s.
Proof.
  induction items as [|item rest IH]; intros i s p p' s' H.
  - by inversion H; subst.
  - simpl in H. apply bind_inv in H as [(p1 & [] & Hpush & H)|(e & _ & He)];
      [|by inversion He].
    destruct item as [| | | | |item|]; try (by inversion H).
    apply bind_inv in H as [(p2 & sub & Hsub & H)|(e & _ & He)];
      [|by inversion He].
    apply bind_inv in H as [(p3 & [] & Hpop & H)|(e & _ & He)];
      [|by inversion He].
    by apply IH in H as [-> ->].
Qed.

Lemma Parse_node fuel input p p' idx :
  Parse fuel input p = (p', inr idx) ->
  exists p1 s1 s2 s,
    parseID input schema_zero p = (p1, inr s1) /\
    parseRef input s1 p1 = (p1, inr s2) /\
    GetIndex (p_registry p') idx = Some s /\
    ID s = ID s1 /\ Ref s = Ref s2.
Proof.
  destruct fuel as [|fuel]; intros H; [by inversion H|].
  rewrite Parse_S in H.
  apply bind_inv in H as [(p1 & s1 & H1 & H)|(e & _ & He)]; [|by inversion He].
  apply bind_inv in H as [(p2 & s2 & H2 & H)|(e & _ & He)]; [|by inversion He].
  pose proof (parseRef_inv _ _ _ _ _ H2) as [-> Hs2].
  destruct (Hs2 s2 eq_refl) as (_ & Hid2 & _).
  apply bind_inv in H as [(p3 & s3 & H3 & H)|(e & _ & He)]; [|by inversion He].
  apply parseType_inv in H3 as (-> & Hs3).
  destruct (Hs3 s3 eq_refl) as (_ & Hid3 & Href3).
  apply bind_inv in H as [(p4 & s4 & H4 & H)|(e & _ & He)]; [|by inversion He].
  assert (ID s4 = ID s3 /\ Ref s4 = Ref s3) as [Hid4 Href4].
  { destruct (mapIndex "items" input) as [[| | | |items|items|]|];
      try (by inversion H4; subst).
    - apply bind_inv in H4 as [(q1 & [] & Hpush & H4)|(e & _ & He)];
        [|by inversion He].
      apply bind_inv in H4 as [(q2 & s5 & Hl & H4)|(e & _ & He)];
        [|by inversion He].
      apply parseItemsList_fields in Hl as [Hid Href]. simpl in Hid, Href.
      apply bind_inv in H4 as [(q3 & [] & Hpop & H4)|(e & _ & He)];
        [|by inversion He].
      by inversion H4; subst.
    - apply bind_inv in H4 as [(q1 & [] & Hpush & H4)|(e & _ & He)];
        [|by inversion He].
      apply bind_inv in H4 as [(q2 & sub & Hsub & H4)|(e & _ & He)];
        [|by inversion He].
      apply bind_inv in H4 as [(q3 & [] & Hpop & H4)|(e & _ & He)];
        [|by inversion He].
      by inversion H4; subst. }
  unfold Insert in H. inversion H; subst; simpl.
  exists p1, s1, s2, s4. split; [done|]. split; [done|]. split.
  - unfold GetIndex. by rewrite list_lookup_middle.
  - split; congruence.
Qed.

(** *** Insertion order *)

Lemma childrenBefore_nil lo r : length r <= lo -> childrenBefore lo r.
Proof.
  intros Hlen j u s Hj Hlook. apply lookup_lt_Some in Hlook. lia.
Qed.

Lemma parseItemsList_grows rec (Hrec : parseGrows rec) items :
  forall i s p p' res lo,
    parseItemsList rec i items s p = (p', res) ->
    lo <= length (p_registry p) ->
    childrenBefore lo (p_registry p) ->
    slotsFilled lo (length (p_registry p)) i (Schemas (Items s)) ->
    i + length items <= length (Schemas (Items s)) ->
    (exists added, p_registry p' = p_registry p ++ added) /\
    childrenBefore lo (p_registry p') /\
    (forall s', res = inr s' ->
       length (Schemas (Items s')) = length (Schemas (Items s)) /\
       slotsFilled lo (length (p_registry p')) (i + length items) (Schemas (Items s'))).
Proof.
  induction items as [|item rest IH]; intros i s p p' res lo H Hlo Hcb Hslots Hlen.
  - inversion H; subst. split; [by exists []; rewrite app_nil_r|].
    split; [done|]. intros s' Hs'; inversion Hs'; subst. split; [done|].
    by rewrite Nat.add_0_r.
  - simpl in H. apply bind_inv in H as [(p1 & [] & Hpush & H)|(e & Hpush & _)];
      [|by inversion Hpush].
    inversion Hpush; subst p1; clear Hpush.
    destruct item as [| | | | |item|]; try (inversion H; subst; simpl;
      split; [by exists []; rewrite app_nil_r|]; split; [done|]; by intros s' Hs').
    apply bind_inv in H as [(p2 & sub & Hsub & H)|(e & Hsub & ->)].
    + apply (Hrec _ _ _ _ lo) in Hsub as ([added Hadd] & Hcb2 & Hidx); [|done|done].
      simpl in Hadd. destruct (Hidx sub eq_refl) as [Hge Hsz]. simpl in Hge.
      apply bind_inv in H as [(p3 & [] & Hpop & H)|(e & Hpop & _)];
        [|by inversion Hpop].
      inversion Hpop; subst p3; clear Hpop.
      apply (IH _ _ _ _ _ lo) in H; simpl; simpl in Hlen.
      * destruct H as ([added' Hadd'] & Hcb3 & Hs'). simpl in Hadd'.
        split; [exists (added ++ added'); by rewrite Hadd', Hadd, app_assoc|].
        split; [done|]. intros s' Hres. destruct (Hs' s' Hres) as [Hl Hsl].
        simpl in Hl. rewrite length_insert in Hl. split; [done|].
        by replace (i + S (length rest)) with (S i + length rest) by lia.
      * rewrite Hadd, length_app. lia.
      * done.
      * intros k c Hk Hlook. destruct (decide (k = i)) as [->|Hne].
        -- rewrite list_lookup_insert_eq in Hlook by lia.
           inversion Hlook; subst. lia.
        -- rewrite list_lookup_insert_ne in Hlook by done.
           assert (k < i) as Hki by lia.
           specialize (Hslots k c Hki Hlook). rewrite Hadd, length_app. lia.
      * rewrite length_insert. lia.
    + apply (Hrec _ _ _ _ lo) in Hsub as ([added Hadd] & Hcb2 & Hidx); [|done|done].
      simpl in Hadd. split; [by exists added|]. split; [done|]. by intros s' Hs'.
Qed.

Lemma slotsFilled_Forall lo hi l :
  slotsFilled lo hi (length l) l -> Forall (fun c => lo <= c < hi) l.
Proof.
  intros H. apply Forall_lookup. intros k c Hlook.
  apply (H k c); [|done]. by apply lookup_lt_Some in Hlook.
Qed.

Lemma childrenBefore_snoc lo r u s :
  lo <= length r ->
  childrenBefore lo r ->
  Forall (fun c => lo <= c < length r) (Schemas (Items s)) ->
  rBaseURI (Ref s) = withFragment (rURI (Ref s)) EmptyString ->
  childrenBefore lo (r ++ [(u, s)]).
Proof.
  intros Hlo Hcb Hs Hn j u' s' Hj Hlook.
  destruct (decide (j < length r)) as [Hlt|Hge].
  - rewrite lookup_app_l in Hlook by done. by apply (Hcb j u').
  - pose proof (lookup_lt_Some _ _ _ Hlook) as Hb.
    rewrite length_app in Hb; simpl in Hb.
    assert (j = length r) as -> by lia.
    rewrite list_lookup_middle in Hlook by done. by inversion Hlook; subst.
Qed.

Lemma Parse_grows fuel : parseGrows (Parse fuel).
Proof.
  induction fuel as [|fuel IH]; intros input p p' res lo H Hlo Hcb.
  { inversion H; subst. split; [by exists []; rewrite app_nil_r|].
    split; [done|]. by intros idx Hidx. }
  pose proof H as Hwhole.
  rewrite Parse_S in H.
  apply bind_inv in H as [(p1 & s1 & H1 & H)|(e & H1 & ->)]; cycle 1.
  { apply parseID_inv in H1 as (Hr & _). rewrite Hr.
    split; [by exists []; rewrite app_nil_r|]. split; [done|]. by intros idx Hidx. }
  apply parseID_inv in H1 as (Hr1 & _ & _ & Hs1).
  destruct (Hs1 s1 eq_refl) as (Hi1 & _).
  apply bind_inv in H as [(p2 & s2 & H2 & H)|(e & H2 & ->)]; cycle 1.
  { apply parseRef_inv in H2 as (-> & _). rewrite Hr1.
    split; [by exists []; rewrite app_nil_r|]. split; [done|]. by intros idx Hidx. }
  apply parseRef_inv in H2 as (-> & Hs2). destruct (Hs2 s2 eq_refl) as (Hi2 & _).
  apply bind_inv in H as [(p3 & s3 & H3 & H)|(e & H3 & ->)]; cycle 1.
  { apply parseType_inv in H3 as (-> & _). rewrite Hr1.
    split; [by exists []; rewrite app_nil_r|]. split; [done|]. by intros idx Hidx. }
  apply parseType_inv in H3 as (-> & Hs3). destruct (Hs3 s3 eq_refl) as (Hi3 & _).
  assert (Items s3 = schemaItems_zero) as Hzero by (by rewrite Hi3, Hi2, Hi1).
  clear Hs1 Hs2 Hs3 Hi1 Hi2 Hi3.
  rewrite <- Hr1 in Hlo, Hcb |- *. clear Hr1.
  (* the [items] block: a registry that has grown, and children in range *)
  assert (forall p4 res4,
    match mapIndex "items" input with
    | Some itemsValue =>
        match itemsValue with
        | VMap items =>
            do_ Push "items";
            do subSchema <- Parse fuel items;
            let s := mkSchema (ID s3) (Ref s3) (Type_ s3)
                       (mkSchemaItems true true [subSchema]) in
            do_ Pop;
            ret s
        | VArray items =>
            do_ Push "items";
            let s := mkSchema (ID s3) (Ref s3) (Type_ s3)
                       (mkSchemaItems true false (replicate (length items) 0)) in
            do s <- parseItemsList (Parse fuel) 0 items s;
            do_ Pop;
            ret s
        | _ => fail schemaNotObject
        end
    | None => ret s3
    end p1 = (p4, res4) ->
    (exists added, p_registry p4 = p_registry p1 ++ added) /\
    childrenBefore lo (p_registry p4) /\
    (forall s4, res4 = inr s4 ->
       Forall (fun c => lo <= c < length (p_registry p4)) (Schemas (Items s4))))
    as Hitems.
  { intros p4 res4 H4.
    destruct (mapIndex "items" input) as [[| | | |items|items|]|];
      try (inversion H4; subst; split; [by exists []; rewrite app_nil_r|];
           split; [done|]; intros s4 Hs4; inversion Hs4; subst;
           rewrite ?Hzero; by constructor).
    - (* tuple *)
      apply bind_inv in H4 as [(q1 & [] & Hpush & H4)|(e & Hpush & _)];
        [|by inversion Hpush].
      inversion Hpush; subst q1; clear Hpush.
      apply bind_inv in H4 as [(q2 & s4 & Hl & H4)|(e & Hl & ->)].
      + apply (parseItemsList_grows _ IH _ _ _ _ _ _ lo) in Hl
          as (Hadd & Hcb2 & Hs4); simpl; try done.
        * destruct (Hs4 s4 eq_refl) as [Hlen Hsl]. simpl in Hlen, Hsl.
          rewrite length_replicate in Hlen.
          apply bind_inv in H4 as [(q3 & [] & Hpop & H4)|(e & Hpop & _)];
            [|by inversion Hpop].
          inversion Hpop; subst q3; clear Hpop. inversion H4; subst; simpl.
          split; [done|]. split; [done|].
          intros s5 Hs5; inversion Hs5; subst.
          apply slotsFilled_Forall. by rewrite Hlen.
        * intros k c Hk. lia.
        * by rewrite length_replicate.
      + apply (parseItemsList_grows _ IH _ _ _ _ _ _ lo) in Hl
          as (Hadd & Hcb2 & Hs4); simpl; try done.
        * intros k c Hk. lia.
        * by rewrite length_replicate.
    - (* single *)
      apply bind_inv in H4 as [(q1 & [] & Hpush & H4)|(e & Hpush & _)];
        [|by inversion Hpush].
      inversion Hpush; subst q1; clear Hpush.
      apply bind_inv in H4 as [(q2 & sub & Hsub & H4)|(e & Hsub & ->)].
      + apply (IH _ _ _ _ lo) in Hsub as (Hadd & Hcb2 & Hidx); [|done|done].
        destruct (Hidx sub eq_refl) as [Hge Hsz]. simpl in Hge, Hadd.
        apply bind_inv in H4 as [(q3 & [] & Hpop & H4)|(e & Hpop & _)];
          [|by inversion Hpop].
        inversion Hpop; subst q3; clear Hpop. inversion H4; subst; simpl.
        split; [done|]. split; [done|].
        intros s5 Hs5; inversion Hs5; subst; simpl.
        constructor; [lia|constructor].
      + apply (IH _ _ _ _ lo) in Hsub as (Hadd & Hcb2 & Hidx); [|done|done].
        simpl in Hadd. split; [done|]. split; [done|]. by intros s4 Hs4. }
  apply bind_inv in H as [(p4 & s4 & H4 & H)|(e & H4 & ->)].
  - apply Hitems in H4 as ([added Hadd] & Hcb4 & Hs4).
    specialize (Hs4 s4 eq_refl).
    unfold Insert in H. inversion H; subst; simpl.
    split; [exists (added ++ [(URI p4, s4)]); by rewrite Hadd, app_assoc|].
    split.
    + apply childrenBefore_snoc; [rewrite Hadd, length_app; lia|done|done|].
      apply Parse_node in Hwhole
        as (q1 & t1 & t2 & t & Hq1 & Hq2 & Hget & _ & Href).
      unfold GetIndex in Hget. simpl in Hget.
      rewrite list_lookup_middle in Hget by done. inversion Hget; subst t.
      apply parseID_inv in Hq1 as (_ & _ & _ & Ht1).
      destruct (Ht1 t1 eq_refl) as (_ & Hr1' & _).
      apply parseRef_inv in Hq2 as (_ & Ht2).
      destruct (Ht2 t2 eq_refl) as (_ & _ & _ & Hnorm).
      rewrite Href. apply Hnorm. by rewrite Hr1'.
    + intros idx Hidx; inversion Hidx; subst.
      rewrite length_app; simpl. rewrite Hadd, length_app. lia.
  - apply Hitems in H4 as (Hadd & Hcb4 & _).
    split; [done|]. split; [done|]. by intros idx Hidx.
Qed.


(** *** The token stack and the base URI across a call *)

Lemma removelast_snoc {A} (l : list A) (x : A) : removelast (l ++ [x]) = l.
Proof. by rewrite removelast_last. Qed.

Lemma parseItemsList_keeps rec (Hrec : parseKeeps rec) items :
  forall i s p p' res,
    parseItemsList rec i items s p = (p', res) ->
    (forall s', res = inr s' -> tokens p' = tokens p) /\
    baseURI p' = baseURI p.
Proof.
  induction items as [|item rest IH]; intros i s p p' res H.
  - by inversion H; subst.
  - simpl in H. apply bind_inv in H as [(p1 & [] & Hpush & H)|(e & Hpush & _)];
      [|by inversion Hpush].
    inversion Hpush; subst p1; clear Hpush.
    destruct item as [| | | | |item|]; try (by inversion H; subst).
    apply bind_inv in H as [(p2 & sub & Hsub & H)|(e & Hsub & ->)].
    + apply Hrec in Hsub as [Htok Hbase]. simpl in Htok, Hbase.
      specialize (Htok sub eq_refl).
      apply bind_inv in H as [(p3 & [] & Hpop & H)|(e & Hpop & _)];
        [|by inversion Hpop].
      inversion Hpop; subst p3; clear Hpop.
      apply IH in H as [Htok' Hbase']. simpl in Htok', Hbase'.
      rewrite Htok, removelast_snoc in Htok'. split; [done|].
      rewrite Hbase'. apply Hbase. by destruct (tokens p).
    + apply Hrec in Hsub as [_ Hbase]. simpl in Hbase.
      split; [done|]. apply Hbase. by destruct (tokens p).
Qed.

Lemma Parse_keeps fuel : parseKeeps (Parse fuel).
Proof.
  induction fuel as [|fuel IH]; intros input p p' res H.
  { by inversion H; subst. }
  rewrite Parse_S in H.
  apply bind_inv in H as [(p1 & s1 & H1 & H)|(e & H1 & ->)]; cycle 1.
  { apply parseID_inv in H1 as (_ & _ & Hne & _).
    split; [done|]. intros Hp. by destruct (Hne Hp) as [-> _]. }
  apply parseID_inv in H1 as (_ & Htok1 & Hne1 & _).
  assert (tokens p <> [] -> baseURI p1 = baseURI p) as Hbase1
    by (intros Hp; by destruct (Hne1 Hp) as [-> _]).
  clear Hne1.
  apply bind_inv in H as [(p2 & s2 & H2 & H)|(e & H2 & ->)]; cycle 1.
  { apply parseRef_inv in H2 as (-> & _). by split. }
  apply parseRef_inv in H2 as (-> & _).
  apply bind_inv in H as [(p3 & s3 & H3 & H)|(e & H3 & ->)]; cycle 1.
  { apply parseType_inv in H3 as (-> & _). by split. }
  apply parseType_inv in H3 as (-> & _).
  apply bind_inv in H as [(p4 & s4 & H4 & H)|(e & H4 & ->)].
  - assert (tokens p4 = tokens p1 /\ baseURI p4 = baseURI p1) as [Htok4 Hbase4].
    { destruct (mapIndex "items" input) as [[| | | |items|items|]|];
        try (by inversion H4; subst).
      - apply bind_inv in H4 as [(q1 & [] & Hpush & H4)|(e & Hpush & _)];
          [|by inversion Hpush].
        inversion Hpush; subst q1; clear Hpush.
        apply bind_inv in H4 as [(q2 & s5 & Hl & H4)|(e & Hl & Hres)];
          [|by inversion Hres].
        apply (parseItemsList_keeps _ IH) in Hl as [Htok Hbase].
        simpl in Htok, Hbase. specialize (Htok s5 eq_refl).
        apply bind_inv in H4 as [(q3 & [] & Hpop & H4)|(e & Hpop & _)];
          [|by inversion Hpop].
        inversion Hpop; subst q3; clear Hpop. inversion H4; subst; simpl.
        by rewrite Htok, removelast_snoc.
      - apply bind_inv in H4 as [(q1 & [] & Hpush & H4)|(e & Hpush & _)];
          [|by inversion Hpush].
        inversion Hpush; subst q1; clear Hpush.
        apply bind_inv in H4 as [(q2 & sub & Hsub & H4)|(e & Hsub & Hres)];
          [|by inversion Hres].
        apply IH in Hsub as [Htok Hbase]. simpl in Htok, Hbase.
        specialize (Htok sub eq_refl).
        apply bind_inv in H4 as [(q3 & [] & Hpop & H4)|(e & Hpop & _)];
          [|by inversion Hpop].
        inversion Hpop; subst q3; clear Hpop. inversion H4; subst; simpl.
        rewrite Htok, removelast_snoc. split; [done|].
        apply Hbase. by destruct (tokens p1). }
    unfold Insert in H. inversion H; subst; simpl. split.
    + intros _ _. by rewrite Htok4.
    + intros Hp. rewrite Hbase4. by apply Hbase1.
  - split; [done|]. intros Hp. rewrite <- (Hbase1 Hp).
    destruct (mapIndex "items" input) as [[| | | |items|items|]|];
      try (by inversion H4; subst).
    + apply bind_inv in H4 as [(q1 & [] & Hpush & H4)|(e' & Hpush & _)];
        [|by inversion Hpush].
      inversion Hpush; subst q1; clear Hpush.
      apply bind_inv in H4 as [(q2 & s5 & Hl & H4)|(e' & Hl & _)].
      * apply bind_inv in H4 as [(q3 & [] & Hpop & H4)|(e' & Hpop & _)];
          [by inversion H4|by inversion Hpop].
      * by apply (parseItemsList_keeps _ IH) in Hl as [_ Hbase].
    + apply bind_inv in H4 as [(q1 & [] & Hpush & H4)|(e' & Hpush & _)];
        [|by inversion Hpush].
      inversion Hpush; subst q1; clear Hpush.
      apply bind_inv in H4 as [(q2 & sub & Hsub & H4)|(e' & Hsub & _)].
      * apply bind_inv in H4 as [(q3 & [] & Hpop & H4)|(e' & Hpop & _)];
          [by inversion H4|by inversion Hpop].
      * apply IH in Hsub as [_ Hbase]. simpl in Hbase.
        apply Hbase. by destruct (tokens p1).
Qed.

(** The base URI a successful call leaves is the one its [$id] block set. *)
Lemma Parse_base fuel input p p' idx :
  Parse fuel input p = (p', inr idx) ->
  baseURI p' = baseURI (parseID input schema_zero p).1.
Proof.
  destruct fuel as [|fuel]; intros H; [by inversion H|].
  rewrite Parse_S in H.
  apply bind_inv in H as [(p1 & s1 & H1 & H)|(e & _ & He)]; [|by inversion He].
  rewrite H1. cbn [fst].
  apply bind_inv in H as [(p2 & s2 & H2 & H)|(e & _ & He)]; [|by inversion He].
  apply parseRef_inv in H2 as (-> & _).
  apply bind_inv in H as [(p3 & s3 & H3 & H)|(e & _ & He)]; [|by inversion He].
  apply parseType_inv in H3 as (-> & _).
  apply bind_inv in H as [(p4 & s4 & H4 & H)|(e & _ & He)]; [|by inversion He].
  assert (baseURI p4 = baseURI p1) as Hbase4.
  { destruct (mapIndex "items" input) as [[| | | |items|items|]|];
      try (by inversion H4; subst).
    - apply bind_inv in H4 as [(q1 & [] & Hpush & H4)|(e & _ & He)];
        [|by inversion He].
      inversion Hpush; subst q1; clear Hpush.
      apply bind_inv in H4 as [(q2 & s5 & Hl & H4)|(e & _ & He)];
        [|by inversion He].
      apply (parseItemsList_keeps _ (Parse_keeps fuel)) in Hl as [_ Hbase].
      apply bind_inv in H4 as [(q3 & [] & Hpop & H4)|(e & _ & He)];
        [|by inversion He].
      inversion Hpop; subst q3; clear Hpop. by inversion H4; subst.
    - apply bind_inv in H4 as [(q1 & [] & Hpush & H4)|(e & _ & He)];
        [|by inversion He].
      inversion Hpush; subst q1; clear Hpush.
      apply bind_inv in H4 as [(q2 & sub & Hsub & H4)|(e & _ & He)];
        [|by inversion He].
      apply Parse_keeps in Hsub as [_ Hbase]. simpl in Hbase.
      apply bind_inv in H4 as [(q3 & [] & Hpop & H4)|(e & _ & He)];
        [|by inversion He].
      inversion Hpop; subst q3; clear Hpop. inversion H4; subst; simpl.
      apply Hbase. by destruct (tokens p1). }
  unfold Insert in H. by inversion H; subst.
Qed.

(** *** Nested [$id] members are not read *)

Lemma stripID_VMap fields : stripID (VMap fields) = VMap (stripFields fields).
Proof.
  reflexivity.
Qed.

Lemma mapIndex_stripFields key fs :
  key <> "$id" -> mapIndex key (stripFields fs) = stripID <$> mapIndex key fs.
Proof.
  intros Hkey. induction fs as [|[k w] rest IH]; [done|]. simpl.
  destruct (decide (k = "$id")) as [->|Hk].
  - rewrite bool_decide_eq_true_2 by done.
    rewrite (bool_decide_eq_false_2 ("$id" = key)) by congruence. done.
  - rewrite (bool_decide_eq_false_2 (k = "$id")) by done. simpl.
    case_bool_decide; [done|apply IH].
Qed.

Lemma mapIndex_stripNested key fs :
  mapIndex key (stripNested fs) = stripID <$> mapIndex key fs.
Proof.
  induction fs as [|[k w] rest IH]; [done|]. simpl.
  case_bool_decide; [done|apply IH].
Qed.

Lemma parseTypeList_strip typ :
  forall i ts, parseTypeList i (map stripID typ) ts = parseTypeList i typ ts.
Proof.
  induction typ as [|t rest IH]; intros i ts; [done|].
  destruct t; simpl; try done.
  destruct (parseJSONType s); [done|apply IH].
Qed.

Lemma parseRef_strip input' input s p :
  sameBelow input' input -> parseRef input' s p = parseRef input s p.
Proof.
  intros Hsame. unfold parseRef. rewrite Hsame by done.
  by destruct (mapIndex "$ref" input) as [[]|].
Qed.

Lemma parseType_strip input' input s p :
  sameBelow input' input -> parseType input' s p = parseType input s p.
Proof.
  intros Hsame. unfold parseType. rewrite Hsame by done.
  destruct (mapIndex "type" input) as [[]|]; simpl; try done.
  by rewrite parseTypeList_strip, length_map.
Qed.

Lemma parseID_strip input' input s p :
  (tokens p = [] -> mapIndex "$id" input' = stripID <$> mapIndex "$id" input) ->
  parseID input' s p = parseID input s p.
Proof.
  intros Hid. unfold parseID. case_bool_decide as Hlen; [|done].
  rewrite Hid by (by destruct (tokens p)).
  by destruct (mapIndex "$id" input) as [[]|].
Qed.

Lemma bind_ext {S E A B} (m m' : ST S E A) (k k' : A -> ST S E B) p :
  m' p = m p ->
  (forall a p1, m p = (p1, inr a) -> k' a p1 = k a p1) ->
  bind m' k' p = bind m k p.
Proof.
  intros Hm Hk. unfold bind. rewrite Hm.
  destruct (m p) as [p1 [e|a]]; [done|by apply Hk].
Qed.

Lemma parseItemsList_strip rec items :
  (forall item q, tokens q <> [] -> rec (stripFields item) q = rec item q) ->
  forall i s p,
    parseItemsList rec i (map stripID items) s p = parseItemsList rec i items s p.
Proof.
  intros Hrec. induction items as [|item rest IH]; intros i s p; [done|].
  change (map stripID (item :: rest)) with (stripID item :: map stripID rest).
  destruct item as [| | | | |item|]; try done.
  rewrite stripID_VMap.
  cbn [parseItemsList]. apply bind_ext; [done|].
  intros [] p1 Hpush. inversion Hpush; subst p1; clear Hpush.
  apply bind_ext.
  - apply Hrec. simpl. by destruct (tokens p).
  - intros sub p2 _. apply bind_ext; [done|]. intros [] p3 _. apply IH.
Qed.

Lemma Parse_strip_gen fuel :
  forall input' input p,
    sameBelow input' input ->
    (tokens p = [] -> mapIndex "$id" input' = stripID <$> mapIndex "$id" input) ->
    Parse fuel input' p = Parse fuel input p.
Proof.
  induction fuel as [|fuel IH]; intros input' input p Hsame Hid; [done|].
  assert (forall item q, tokens q <> [] ->
            Parse fuel (stripFields item) q = Parse fuel item q) as Hrec.
  { intros item q Hq. apply IH; [|done].
    intros key Hkey. by apply mapIndex_stripFields. }
  rewrite !Parse_S.
  apply bind_ext; [by apply parseID_strip|]. intros s1 p1 _.
  apply bind_ext; [by apply parseRef_strip|]. intros s2 p2 _.
  apply bind_ext; [by apply parseType_strip|]. intros s3 p3 _.
  apply bind_ext; [|done].
  rewrite Hsame by done.
  destruct (mapIndex "items" input) as [[| | | |items|items|]|]; try done.
  - change (stripID <$> Some (VArray items)) with (Some (VArray (map stripID items))).
    cbv beta iota. rewrite length_map.
    apply bind_ext; [done|]. intros [] q1 _.
    apply bind_ext; [|done]. apply parseItemsList_strip, Hrec.
  - change (stripID <$> Some (VMap items)) with (Some (stripID (VMap items))).
    rewrite stripID_VMap. cbv beta iota.
    apply bind_ext; [done|]. intros [] q1 Hpush.
    inversion Hpush; subst q1; clear Hpush.
    apply bind_ext; [|done]. apply Hrec. simpl. by destruct (tokens p3).
Qed.

(** *** Totality: fuel above the nesting depth is enough *)

Lemma mapIndex_depth key input v :
  mapIndex key input = Some v -> depth v <= depthFields input.
Proof.
  induction input as [|[k w] rest IH]; [done|]. simpl.
  case_bool_decide as Hk; intros H.
  - inversion H; subst. unfold depthFields; simpl. lia.
  - specialize (IH H). unfold depthFields in *; simpl. lia.
Qed.

Lemma neverFuel_bind {A B} (m : M A) (k : A -> M B) :
  neverFuel m -> (forall a, neverFuel (k a)) -> neverFuel (bind m k).
Proof.
  intros Hm Hk p. unfold bind. specialize (Hm p).
  destruct (m p) as [p1 [e|a]]; simpl in *; [|apply Hk].
  intros Heq. apply Hm. by inversion Heq.
Qed.

Lemma parseItemsList_neverFuel rec items :
  (forall item, depth (VMap item) <= depthElems items -> neverFuel (rec item)) ->
  forall i s, neverFuel (parseItemsList rec i items s).
Proof.
  induction items as [|item rest IH]; intros Hrec i s; [by intros p|].
  simpl. apply neverFuel_bind; [by intros p|]. intros _.
  destruct item as [| | | | |item|]; try by intros p.
  apply neverFuel_bind.
  - apply Hrec. unfold depthElems; simpl. lia.
  - intros sub. apply neverFuel_bind; [by intros p|]. intros _.
    apply IH. intros item' Hd. apply Hrec. unfold depthElems in *; simpl in *. lia.
Qed.

Lemma Parse_total fuel :
  forall input, depthFields input < fuel -> neverFuel (Parse fuel input).
Proof.
  induction fuel as [|fuel IH]; intros input Hd; [lia|].
  rewrite Parse_S.
  apply neverFuel_bind.
  { intros p. unfold parseID. case_bool_decide; [|done].
    destruct (mapIndex "$id" input) as [[| | |idStr| | |]|];
      try destruct (url_Parse idStr); done. }
  intros s1. apply neverFuel_bind.
  { intros p. unfold parseRef.
    destruct (mapIndex "$ref" input) as [[| | |refStr| | |]|];
      try destruct (URL_Parse (baseURI p) refStr) as [uri|];
      try destruct (jsonpointer_New (Fragment uri)); done. }
  intros s2. apply neverFuel_bind.
  { intros p. unfold parseType, ret, fail.
    destruct (mapIndex "type" input) as [[| | |typ|typ| |]|] eqn:E; try done.
    - unfold parseJSONType. repeat case_bool_decide; done.
    - assert (forall i ts, parseTypeList i typ ts <> inl errFuel) as Hno.
      { clear. induction typ as [|[| | |t| | |] rest IHt]; intros i ts; try done.
        simpl. unfold parseJSONType. repeat case_bool_decide; try apply IHt; done. }
      specialize (Hno 0 (replicate (length typ) jsonTypeNull)).
      destruct (parseTypeList 0 typ _) as [e|ts]; simpl; congruence. }
  intros s3. apply neverFuel_bind; [|by intros s4 p].
  destruct (mapIndex "items" input) as [[| | | |items|items|]|] eqn:E;
    try by intros p.
  - apply mapIndex_depth in E. simpl in E.
    apply neverFuel_bind; [by intros p|]. intros _.
    apply neverFuel_bind; [|intros s4; apply neverFuel_bind; by intros p].
    apply parseItemsList_neverFuel. intros item Hitem. apply IH.
    simpl in Hitem. fold (depthFields item) in Hitem.
    fold (depthElems items) in E. lia.
  - apply mapIndex_depth in E. simpl in E. fold (depthFields items) in E.
    apply neverFuel_bind; [by intros p|]. intros _.
    apply neverFuel_bind; [apply IH; lia|].
    intros sub. apply neverFuel_bind; by intros p.
Qed.

(** ** C8 *)

(** C8. Insertion into the registry is a post-order of the parse tree: a
    successful [Parse] appends to the registry, the node it returns is the
    last one inserted, and every node inserted during the call has all
    the sub-schemas under its [items] at smaller indices, all of which
    were inserted during the same call. *)
Theorem Parse_post_order fuel input p p' idx :
  Parse fuel input p = (p', inr idx) ->
  (exists added, p_registry p' = p_registry p ++ added) /\
  S idx = length (p_registry p') /\
  length (p_registry p) <= idx /\
  forall j u s, length (p_registry p) <= j ->
    p_registry p' !! j = Some (u, s) ->
    Forall (fun c => length (p_registry p) <= c < j) (Schemas (Items s)).
Proof.
  intros H.
  destruct (Parse_grows fuel input p p' (inr idx) (length (p_registry p)) H)
    as (Hadd & Hcb & Hidx); [done|by apply childrenBefore_nil|].
  destruct (Hidx idx eq_refl) as [Hge Hsz].
  split; [done|]. split; [done|]. split; [done|].
  intros j u s Hj Hlook. exact (proj1 (Hcb j u s Hj Hlook)).
Qed.

(** ** C9 *)

(** C9, as the code has it.  [$id] is read only with an empty token stack,
    that is at the document root, where it becomes the base URI as it
    stands.  Below the root a [$id] is not read: the parse gives the same
    result with or without any [$id] below the object it is given and, for
    a nested object, with or without that object's own [$id]; the base URI
    of the parser stays as it was, the node gets no [ID], and its [$ref] is
    resolved against that base URI. *)
Theorem Parse_nested_id_not_read fuel input p :
  Parse fuel (stripNested input) p = Parse fuel input p /\
  (tokens p = [] ->
     forall idStr uri p' idx,
       mapIndex "$id" input = Some (VString idStr) ->
       url_Parse idStr = Some uri ->
       Parse fuel input p = (p', inr idx) ->
       baseURI p' = uri) /\
  (tokens p <> [] ->
     Parse fuel (stripFields input) p = Parse fuel input p /\
     baseURI (Parse fuel input p).1 = baseURI p /\
     forall p' idx, Parse fuel input p = (p', inr idx) ->
       exists s, GetIndex (p_registry p') idx = Some s /\
         ID s = URL_zero /\
         forall refStr, mapIndex "$ref" input = Some (VString refStr) ->
           URL_Parse (baseURI p) refStr = Some (rURI (Ref s))).
Proof.
  split.
  { apply Parse_strip_gen.
    - intros key _. apply mapIndex_stripNested.
    - intros _. apply mapIndex_stripNested. }
  split.
  { intros Hp idStr uri p' idx Hid Huri H.
    rewrite (Parse_base _ _ _ _ _ H). unfold parseID.
    by rewrite Hp, Hid, Huri. }
  intros Hp. split; [|split].
  - apply Parse_strip_gen; [|done].
    intros key Hkey. by apply mapIndex_stripFields.
  - destruct (Parse fuel input p) as [p' res] eqn:E.
    by apply Parse_keeps in E as [_ Hbase]; apply Hbase.
  - intros p' idx H.
    apply Parse_node in H as (p1 & s1 & s2 & s & H1 & H2 & Hget & Hid & Href).
    apply parseID_inv in H1 as (_ & _ & Hne & _).
    destruct (Hne Hp) as [-> Hs1]. inversion Hs1; subst s1.
    exists s. split; [done|]. split; [done|].
    intros refStr Hlook. unfold parseRef in H2. rewrite Hlook in H2.
    destruct (URL_Parse (baseURI p) refStr) as [uri|]; [|by inversion H2].
    destruct (jsonpointer_New (Fragment uri)); [|by inversion H2].
    inversion H2; subst s2. by rewrite Href.
Qed.

End ParserFacts.

Lemma Parse_post_order_witness :
  let run := Parse 3 docMissingRefs (mkParser [] URL_zero []) in
  run.2 = inr 3 /\
  (Schemas ∘ Items ∘ snd) <$> p_registry run.1 = [[]; []; []; [0; 1; 2]] /\
  forall j u s, 0 <= j ->
    p_registry run.1 !! j = Some (u, s) ->
    Forall (fun c => 0 <= c < j) (Schemas (Items s)).
Proof.
  split; [vm_compute; reflexivity|]. split; [vm_compute; reflexivity|].
  refine (proj2 (proj2 (proj2
    (Parse_post_order 3 docMissingRefs (mkParser [] URL_zero []) _ 3 _)))).
  vm_compute. reflexivity.
Defined.

Lemma Parse_nested_id_not_read_witness :
  let root := mkParser [] URL_zero [] in
  let p := mkParser [] (mkURL "http" "example.com" "/root" EmptyString) ["items"] in
  (tokens root = [] /\
   baseURI (Parse 3 docNestedID root).1 = mkURL "http" "example.com" "/root" EmptyString) /\
  (tokens p <> [] /\
   Parse 2 (stripFields nestedWithID) p = Parse 2 nestedWithID p /\
   baseURI (Parse 2 nestedWithID p).1 = baseURI p).
Proof.
  pose (root := mkParser [] URL_zero []).
  pose (p := mkParser [] (mkURL "http" "example.com" "/root" EmptyString) ["items"]).
  assert (tokens root = []) as Hroot by reflexivity.
  assert (tokens p <> []) as Hp by done.
  assert (Parse 3 docNestedID root = ((Parse 3 docNestedID root).1, inr 1))
    as Hrun by (vm_compute; reflexivity).
  split; split.
  - exact Hroot.
  - exact (proj1 (proj2 (Parse_nested_id_not_read 3 docNestedID root)) Hroot
             "http://example.com/root" (mkURL "http" "example.com" "/root" EmptyString)
             _ 1 eq_refl eq_refl Hrun).
  - exact Hp.
  - destruct (proj2 (proj2 (Parse_nested_id_not_read 2 nestedWithID p)) Hp)
      as (H1 & H2 & _).
    split; [exact H1|exact H2].
Defined.

(** C9 as stated fails: the [$ref] inside a nested object that carries
    [$id] is resolved against the root's base URI; the nested [$id] leaves
    no trace in the node or in the parser. *)
Lemma Parse_nested_id_counterexample :
  let run := Parse 3 docNestedID (mkParser [] URL_zero []) in
  let nested := GetIndex (p_registry run.1) 0 in
  (rURI ∘ Ref) <$> nested = URL_Parse (mkURL "http" "example.com" "/root" EmptyString) "#" /\
  (rURI ∘ Ref) <$> nested <> URL_Parse (mkURL "http" "other.example" "/nested" EmptyString) "#" /\
  ID <$> nested = Some URL_zero /\
  baseURI run.1 = mkURL "http" "example.com" "/root" EmptyString.
Proof. vm_compute. split_and!; congruence. Qed.

(* ===================================================================== *)
(** ** Rounding *)
(* ===================================================================== *)

Section Rounding.
Local Open Scope Q_scope.

Lemma Qfloor_half z : Qfloor (inject_Z z + (1 # 2)) = z.
Proof.
  pose proof (Qfloor_le (inject_Z z + (1 # 2))) as H1.
  pose proof (Qlt_floor (inject_Z z + (1 # 2))) as H2.
  set (f := Qfloor (inject_Z z + (1 # 2))) in *.
  assert (inject_Z f < inject_Z (z + 1)) as H3.
  { rewrite inject_Z_plus. change (inject_Z 1) with 1. lra. }
  assert (inject_Z z < inject_Z (f + 1)) as H4.
  { rewrite inject_Z_plus in H2 |- *. change (inject_Z 1) with 1 in *. lra. }
  rewrite <- Zlt_Qlt in H3, H4. lia.
Qed.

Lemma Qceiling_half z : Qceiling (inject_Z z - (1 # 2)) = z.
Proof.
  unfold Qceiling.
  assert (- (inject_Z z - (1 # 2)) == inject_Z (- z) + (1 # 2)) as ->.
  { rewrite inject_Z_opp. ring. }
  rewrite Qfloor_half. lia.
Qed.

Lemma Round_comp x y : x == y -> Float.Round x = Float.Round y.
Proof.
  intros H. unfold Float.Round. rewrite H.
  destruct (Qle_bool 0 y); f_equal; [apply Qfloor_comp|apply Qceiling_comp]; rewrite H; reflexivity.
Qed.

Lemma Round_int z : Float.Round (inject_Z z) = inject_Z z.
Proof.
  unfold Float.Round. destruct (Qle_bool 0 (inject_Z z)).
  - rewrite Qfloor_half; reflexivity.
  - rewrite Qceiling_half; reflexivity.
Qed.

Lemma Trunc_int z : Float.Trunc (inject_Z z) = inject_Z z.
Proof.
  unfold Float.Trunc. destruct (Qle_bool 0 (inject_Z z)).
  - rewrite Qfloor_Z; reflexivity.
  - rewrite Qceiling_Z; reflexivity.
Qed.

Lemma Trunc_comp x y : x == y -> Float.Trunc x = Float.Trunc y.
Proof.
  intros H. unfold Float.Trunc. rewrite H.
  destruct (Qle_bool 0 y); f_equal; [apply Qfloor_comp|apply Qceiling_comp]; rewrite H; reflexivity.
Qed.

Lemma eq_Round_integral x :
  Float.eq x (Float.Round x) = true <-> exists z : Z, x == inject_Z z.
Proof.
  unfold Float.eq. rewrite Qeq_bool_iff. split.
  - intros H. unfold Float.Round in H.
    destruct (Qle_bool 0 x); eauto.
  - intros [z Hz]. rewrite (Round_comp _ _ Hz), Round_int. exact Hz.
Qed.

Lemma eq_Trunc_integral x :
  Float.eq x (Float.Trunc x) = true <-> exists z : Z, x == inject_Z z.
Proof.
  unfold Float.eq. rewrite Qeq_bool_iff. split.
  - intros H. unfold Float.Trunc in H.
    destruct (Qle_bool 0 x); eauto.
  - intros [z Hz]. rewrite (Trunc_comp _ _ Hz), Trunc_int. exact Hz.
Qed.

Lemma eq_Round_opp x :
  Float.eq (- x) (Float.Round (- x)) = Float.eq x (Float.Round x).
Proof.
  apply eq_true_iff_eq. rewrite !eq_Round_integral. split; intros [z Hz].
  - exists (- z)%Z. rewrite inject_Z_opp, <- Hz. ring.
  - exists (- z)%Z. rewrite inject_Z_opp, <- Hz. reflexivity.
Qed.

Lemma lt_true x y : Float.lt x y = true <-> x < y.
Proof.
  unfold Float.lt. rewrite negb_true_iff. split.
  - intros H. apply Qnot_le_lt. intros Hle. apply Qle_bool_iff in Hle. congruence.
  - intros H. destruct (Qle_bool y x) eqn:E; [|done].
    apply Qle_bool_iff in E. by apply Qlt_not_le in H.
Qed.

Lemma lt_false x y : Float.lt x y = false <-> y <= x.
Proof.
  unfold Float.lt. rewrite negb_false_iff. apply Qle_bool_iff.
Qed.

Lemma le_true x y : Float.le x y = true <-> x <= y.
Proof. apply Qle_bool_iff. Qed.

Lemma le_false x y : Float.le x y = false <-> y < x.
Proof.
  unfold Float.le. split.
  - intros H. apply Qnot_le_lt. intros Hle. apply Qle_bool_iff in Hle. congruence.
  - intros H. destruct (Qle_bool x y) eqn:E; [|done].
    apply Qle_bool_iff in E. by apply Qlt_not_le in H.
Qed.

(** *** Rounding to [float64] *)

Lemma fl_zero x : x == 0 -> Float.fl x = 0.
Proof.
  intros H. unfold Float.fl. by rewrite (proj2 (Qeq_bool_iff x 0) H).
Qed.

Lemma roundEven_near y : Qabs (inject_Z (Float.roundEven y) - y) <= 1 # 2.
Proof.
  unfold Float.roundEven.
  pose proof (Qfloor_le y) as Hlo. pose proof (Qlt_floor y) as Hhi.
  rewrite inject_Z_plus in Hhi. change (inject_Z 1) with 1 in Hhi.
  apply Qabs_Qle_condition.
  destruct (Qcompare_spec (y - inject_Z (Qfloor y)) (1 # 2)) as [He|Hl|Hg].
  - destruct (Z.even (Qfloor y)); rewrite ?inject_Z_plus;
      change (inject_Z 1) with 1; split; lra.
  - split; lra.
  - rewrite inject_Z_plus. change (inject_Z 1) with 1. split; lra.
Qed.

Lemma ilog2_le0 a : 0 < a -> a <= 1 -> (Float.ilog2 a <= 0)%Z.
Proof.
  destruct a as [n d]. unfold Qlt, Qle, Float.ilog2. cbn [Qnum Qden].
  intros Hpos Hle.
  assert (Z.log2 n <= Z.log2 (Z.pos d))%Z by (apply Z.log2_le_mono; lia).
  destruct (Qle_bool _ _); lia.
Qed.

(** Below 1 in absolute value a result is rounded by at most [2^-53]. *)
Lemma fl_near x : Qabs x <= 1 -> Qabs (Float.fl x - x) <= 1 # 9007199254740992.
Proof.
  intros Hx. unfold Float.fl. destruct (Qeq_bool x 0) eqn:E0.
  { apply Qeq_bool_iff in E0. apply Qabs_Qle_condition. split; lra. }
  apply Qeq_bool_neq in E0.
  assert (0 < Qabs x) as Hpos.
  { apply Qabs_case; intros Hs; lra. }
  pose proof (ilog2_le0 _ Hpos Hx) as He0.
  set (e := Z.max (Float.ilog2 (Qabs x)) (-1022)).
  assert (e <= 0)%Z as He by lia.
  set (q := Qpower 2 (e - 52)).
  assert (0 < q) as Hq0 by (apply Qpower_0_lt; lra).
  assert (q <= 1 # 4503599627370496) as Hq.
  { change (1 # 4503599627370496) with (Qpower 2 (-52)).
    apply Qpower_le_compat_l; [lia|lra]. }
  pose proof (roundEven_near (Qabs x / q)) as Hn.
  set (n := inject_Z (Float.roundEven (Qabs x / q))) in *.
  apply Qabs_Qle_condition in Hn as [Hn1 Hn2].
  assert (Qabs x == (Qabs x / q) * q) as Hr by (field; lra).
  set (r := Qabs x / q) in *.
  assert ((r - (1 # 2)) * q <= n * q) as H1
    by (apply Qmult_le_compat_r; lra).
  assert (n * q <= (r + (1 # 2)) * q) as H2
    by (apply Qmult_le_compat_r; lra).
  rewrite Qred_correct. apply Qabs_Qle_condition.
  destruct (Qle_bool 0 x) eqn:Es.
  - apply Qle_bool_iff in Es. rewrite (Qabs_pos x Es) in Hr. split; lra.
  - assert (x <= 0) as Hneg.
    { destruct (Qlt_le_dec 0 x) as [Hlt|Hle]; [|done].
      apply Qlt_le_weak, Qle_bool_iff in Hlt. congruence. }
    rewrite (Qabs_neg x Hneg) in Hr. split; lra.
Qed.

(** The tolerance test of [multipleOf] against the two ends [e] and [top]. *)
Lemma tolerance_ends (m e top : Q) :
  negb (Float.gt m e && Float.lt m top) = true <-> m <= e \/ top <= m.
Proof.
  unfold Float.gt, Float.lt.
  rewrite negb_andb, !negb_involutive, orb_true_iff, !Qle_bool_iff.
  reflexivity.
Qed.

End Rounding.

(* ===================================================================== *)
(** ** Properties of the first executor (vm.go) *)
(* ===================================================================== *)

Section StackFacts.

Lemma last_insert_last {A} (l : list A) (x : A) :
  l <> [] -> last (<[length l - 1 := x]> l) = Some x.
Proof.
  intros Hl. destruct (nil_or_length_pos l) as [->|Hpos]; [done|].
  rewrite last_lookup, length_insert.
  replace (Nat.pred (length l)) with (length l - 1) by lia.
  apply list_lookup_insert_eq. lia.
Qed.

Lemma last_is_Some {A} (l : list A) : l <> [] -> exists x, last l = Some x.
Proof.
  intros Hl. destruct (last l) as [x|] eqn:E; [by exists x|].
  by apply last_None in E.
Qed.

Lemma insert_last_twice {A} (l : list A) (x y : A) :
  <[length (<[length l - 1 := x]> l) - 1 := y]> (<[length l - 1 := x]> l)
  = <[length l - 1 := y]> l.
Proof. by rewrite length_insert, list_insert_insert_eq. Qed.

Lemma insert_last_id {A} (l : list A) (x : A) :
  last l = Some x -> <[length l - 1 := x]> l = l.
Proof.
  intros H. apply list_insert_id. rewrite last_lookup in H.
  by replace (length l - 1) with (Nat.pred (length l)) by lia.
Qed.

End StackFacts.

Section VM1Facts.
Import Vm VM1.

(** What [typeError] does on a state with a schema stack: one error is
    appended, and the token stays on the stack. *)
Lemma typeError_run (v : vm Schema) s :
  last (schemas (stack_ v)) = Some s ->
  typeError v =
    (mkVm (registry v)
       (mkStack (instance (stack_ v))
          (<[length (schemas (stack_ v)) - 1 :=
               mkSchemaStack (id s) (tokens s ++ ["type"])]> (schemas (stack_ v))))
       (errors v ++ [mkValidationError (instance (stack_ v))
                       (tokens s ++ ["type"]) (id s)]),
     inr tt).
Proof.
  intros Hlast.
  assert (schemas (stack_ v) <> []) as Hne by (intros E; by rewrite E in Hlast).
  unfold typeError, bind, pushSchemaToken. rewrite Hlast.
  unfold reportError. cbn [stack_ setStack schemas instance registry errors].
  rewrite (last_insert_last _ _ Hne).
  unfold popSchemaToken. cbn [stack_ setStack schemas instance registry errors tokens id].
  rewrite (last_insert_last _ _ Hne). cbn [tokens].
  by destruct (tokens s ++ ["type"]) eqn:E; [destruct (tokens s); inversion E|].
Qed.

Lemma execSchema_run (schema : Schema) (inst : value) (v : vm Schema) :
  schemas (stack_ v) <> [] ->
  exists v', execSchema schema inst v = (v', inr tt) /\
    (typeOk (VM1.Type_ schema) inst = true -> v' = v) /\
    (typeOk (VM1.Type_ schema) inst = false ->
       exists e, errors v' = errors v ++ [e]).
Proof.
  intros Hne. destruct (last_is_Some _ Hne) as [s Hs].
  pose proof (typeError_run v s Hs) as Hte.
  unfold execSchema, bind.
  destruct inst as [|b|val|str|elems|fields|n]; simpl;
    try (destruct (contains (VM1.Type_ schema) _) eqn:Ec; simpl;
         [eexists; split; [reflexivity|]; split; [done|done]
         |rewrite Hte; eexists; split; [reflexivity|]; split; [done|]; intros _;
          by eexists]).
  - destruct (contains (VM1.Type_ schema) jsonTypeInteger) eqn:Ei;
      destruct (contains (VM1.Type_ schema) jsonTypeNumber) eqn:En;
      try destruct (Float.eq val (Float.Round val)) eqn:Er; simpl;
      try (eexists; split; [reflexivity|]; split; done);
      rewrite Hte; eexists; (split; [reflexivity|]); (split; [done|]); intros _;
      by eexists.
  - rewrite Hte. eexists. split; [reflexivity|]. split; [done|]. intros _. by eexists.
Qed.

Lemma app_singleton_neq {A} (l : list A) (x : A) : l ++ [x] <> l.
Proof.
  intros H. apply (f_equal length) in H. rewrite length_app in H. simpl in H. lia.
Qed.

(** ** C4 *)

(** C4. Against a schema whose [type] is ["integer"], the check of
    [execSchema] records no error exactly when the instance is a number
    equal to its own rounding, and this does not depend on the sign of the
    number; with any set of types, an instance that is no number passes
    exactly when its runtime tag is in the set.  [assertSimpleType], the
    check of the earlier validator, agrees for ["integer"]. *)
Theorem type_integer_check (inst : value) (v : vm Schema) :
  schemas (stack_ v) <> [] ->
  let integer := mkSchema (mkSchemaType true true [jsonTypeInteger]) in
  (exists v', execSchema integer inst v = (v', inr tt) /\
     (errors v' = errors v <->
      exists f, inst = VFloat f /\ Float.eq f (Float.Round f) = true)) /\
  (forall f v1 v2,
     execSchema integer (VFloat f) v = (v1, inr tt) ->
     execSchema integer (VFloat (- f)) v = (v2, inr tt) ->
     (errors v1 = errors v <-> errors v2 = errors v)) /\
  (forall ty,
     (forall f, inst <> VFloat f) ->
     exists v', execSchema (mkSchema ty) inst v = (v', inr tt) /\
       (errors v' = errors v <->
        exists t, tagOf inst = Some t /\ contains ty t = true)) /\
  (Validator.assertSimpleType Validator.IntegerSimpleType inst = true <->
     exists f, inst = VFloat f /\ Float.eq f (Float.Round f) = true).
Proof.
  intros Hne integer.
  assert (forall schema i, exists v', execSchema schema i v = (v', inr tt) /\
            (errors v' = errors v <-> typeOk (VM1.Type_ schema) i = true)) as Hrun.
  { intros schema i. destruct (execSchema_run schema i v Hne) as (v' & Hex & Hok & Hbad).
    exists v'. split; [done|]. split.
    - intros Herr. destruct (typeOk _ i) eqn:E; [done|].
      destruct (Hbad eq_refl) as [e He]. rewrite He in Herr.
      by apply app_singleton_neq in Herr.
    - intros Hty. by rewrite (Hok Hty). }
  split; [|split; [|split]].
  - destruct (Hrun integer inst) as (v' & Hex & Hiff). exists v'. split; [done|].
    rewrite Hiff. destruct inst; simpl; split; try done;
      try (by intros (f0 & Hf & _)).
    + rewrite orb_false_r. intros H. by exists f.
    + intros (f0 & Hf & Hr). inversion Hf; subst. by rewrite orb_false_r.
  - intros f v1 v2 H1 H2.
    destruct (Hrun integer (VFloat f)) as (v1' & Hex1 & Hiff1).
    destruct (Hrun integer (VFloat (- f)%Q)) as (v2' & Hex2 & Hiff2).
    rewrite H1 in Hex1. rewrite H2 in Hex2.
    inversion Hex1; inversion Hex2; subst.
    rewrite Hiff1, Hiff2. simpl. by rewrite eq_Round_opp.
  - intros ty Hnum. destruct (Hrun (mkSchema ty) inst) as (v' & Hex & Hiff).
    exists v'. split; [done|]. rewrite Hiff.
    destruct inst; simpl; split; try done;
      try (by intros H; eexists);
      try (by intros (t & Ht & Hc); inversion Ht; subst).
    + by destruct (Hnum f).
    + by destruct (Hnum f).
  - destruct inst; simpl; split; try done; try (by intros (f0 & Hf & _)).
    + intros H. exists f. split; [done|].
      destruct (Float.eq f (Float.Trunc f)) eqn:E; [|done].
      apply eq_Trunc_integral in E. by apply eq_Round_integral.
    + intros (f0 & Hf & Hr). inversion Hf; subst.
      apply eq_Round_integral in Hr. apply eq_Trunc_integral in Hr. by rewrite Hr.
Qed.

(** *** The schema token after a failing check *)

(** After a failing check of [execSchema] in vm.go the token pushed for it
    is still on the schema stack: [popSchemaToken] shortens a copy. *)
Lemma execSchema_leaves_token (schema : Schema) (inst : value) (v : vm Schema) s :
  last (schemas (stack_ v)) = Some s ->
  typeOk (VM1.Type_ schema) inst = false ->
  exists v', execSchema schema inst v = (v', inr tt) /\
    last (schemas (stack_ v')) = Some (mkSchemaStack (id s) (tokens s ++ ["type"])).
Proof.
  intros Hs Hbad.
  assert (schemas (stack_ v) <> []) as Hne by (intros E; by rewrite E in Hs).
  pose proof (typeError_run v s Hs) as Hte.
  assert (last (schemas (stack_ (typeError v).1)) =
            Some (mkSchemaStack (id s) (tokens s ++ ["type"]))) as Hl.
  { rewrite Hte. simpl. by apply last_insert_last. }
  unfold execSchema, bind.
  destruct inst as [|b|val|str|elems|fields|n]; simpl in *;
    try (destruct (contains (VM1.Type_ schema) _) eqn:Ec; simpl in *; [done|];
         rewrite Hte in Hl |- *; by eexists).
  - destruct (contains (VM1.Type_ schema) jsonTypeInteger) eqn:Ei;
      destruct (contains (VM1.Type_ schema) jsonTypeNumber) eqn:En;
      try destruct (Float.eq val (Float.Round val)) eqn:Er; simpl in *; try done;
      rewrite Hte in Hl |- *; by eexists.
  - rewrite Hte in Hl |- *. by eexists.
Qed.

End VM1Facts.

Lemma type_integer_check_witness :
  Vm.schemas (Vm.stack_ vmAtRoot) <> [] /\
  exists v',
    VM1.execSchema (VM1.mkSchema (mkSchemaType true true [jsonTypeInteger]))
      (VFloat (- 2 # 1)) vmAtRoot = (v', inr tt) /\
    (Vm.errors v' = Vm.errors vmAtRoot <->
     exists f, VFloat (- 2 # 1) = VFloat f /\ Float.eq f (Float.Round f) = true).
Proof.
  assert (Vm.schemas (Vm.stack_ vmAtRoot) <> []) as H by done.
  split; [exact H|].
  exact (proj1 (type_integer_check (VFloat (- 2 # 1)) vmAtRoot H)).
Defined.

(* ===================================================================== *)
(** ** Properties of the executor with [items] *)
(* ===================================================================== *)

Section VM2Facts.
Import Vm VM2.




(** ** C10 *)


(** *** The stacks across a check (this version pops what it pushed) *)

Section Schema_induction.
Variable P : Schema -> Prop.
Hypothesis Hleaf : forall ty, P (mkSchema ty None).
Hypothesis Hitems : forall ty b single subs,
  P single -> Forall P subs -> P (mkSchema ty (Some (mkSchemaItems b single subs))).

Fixpoint Schema_nested_ind (s : Schema) : P s :=
  match s with
  | mkSchema ty None => Hleaf ty
  | mkSchema ty (Some (mkSchemaItems b single subs)) =>
      Hitems ty b single subs (Schema_nested_ind single)
        ((fix all (l : list Schema) : Forall P l :=
            match l with
            | [] => Forall_nil_2 P
            | x :: l' => Forall_cons_2 P x l' (Schema_nested_ind x) (all l')
            end) subs)
  end.

End Schema_induction.

Lemma restores_ret : restores (ret tt).
Proof. intros v v' H. by inversion H. Qed.

Lemma restores_bind m k :
  restores m -> restores k -> restores (do_ m; k).
Proof.
  intros Hm Hk v v' H. apply bind_inv in H as [(v1 & [] & H1 & H2)|(e & _ & He)];
    [|by inversion He].
  rewrite (Hk _ _ H2). by apply Hm.
Qed.

Lemma schemaStack_eta (s : schemaStack) : mkSchemaStack (id s) (tokens s) = s.
Proof. by destruct s. Qed.

(** Pushing a schema token, running [m], and popping. *)
Lemma restores_schemaToken token m :
  restores m -> restores (do_ pushSchemaToken token; do_ m; popSchemaToken).
Proof.
  intros Hm v v' H.
  apply bind_inv in H as [(v1 & [] & Hpush & H)|(e & _ & He)]; [|by inversion He].
  apply bind_inv in H as [(v2 & [] & Hrun & Hpop)|(e & _ & He)]; [|by inversion He].
  apply Hm in Hrun.
  unfold pushSchemaToken in Hpush.
  destruct (last (schemas (stack_ v))) as [s|] eqn:Hs; [|by inversion Hpush].
  assert (schemas (stack_ v) <> []) as Hne by (intros E; by rewrite E in Hs).
  inversion Hpush; subst v1; clear Hpush.
  unfold popSchemaToken in Hpop. rewrite Hrun in Hpop.
  cbn [stack_ setStack schemas instance] in Hpop.
  rewrite (last_insert_last _ _ Hne) in Hpop. cbn [tokens id] in Hpop.
  destruct (tokens s ++ [token]) as [|t0 ts] eqn:E;
    [by destruct (tokens s); inversion E|].
  rewrite <- E, removelast_snoc, schemaStack_eta, insert_last_twice in Hpop.
  rewrite (insert_last_id _ _ Hs) in Hpop.
  inversion Hpop; subst v'. simpl. by destruct (stack_ v).
Qed.

Lemma typeError_restores : restores typeError.
Proof.
  apply restores_schemaToken. intros v v' H. unfold reportError in H.
  destruct (last (schemas (stack_ v))); by inversion H.
Qed.

Lemma typeCheck_restores (b : bool) : restores (if b then typeError else ret tt).
Proof. destruct b; [apply typeError_restores|apply restores_ret]. Qed.

Lemma itemStep_restores rec i elem :
  restores (rec elem) -> restores (itemStep rec i elem).
Proof.
  intros Hrec v v' H. unfold itemStep in H.
  apply bind_inv in H as [(v1 & [] & Hpush & H)|(e & _ & He)]; [|by inversion He].
  apply bind_inv in H as [(v2 & [] & Hrun & Hpop)|(e & _ & He)]; [|by inversion He].
  apply Hrec in Hrun. inversion Hpush; subst v1; clear Hpush.
  unfold popInstanceToken in Hpop. rewrite Hrun in Hpop.
  cbn [stack_ setStack schemas instance] in Hpop.
  destruct (instance (stack_ v) ++ [FormatInt i]) as [|t0 ts] eqn:E;
    [by destruct (instance (stack_ v)); inversion E|].
  rewrite <- E, removelast_snoc in Hpop.
  inversion Hpop; subst v'. simpl. by destruct (stack_ v).
Qed.

Lemma tupleStep_restores rec i elem :
  restores (rec elem) -> restores (tupleStep rec i elem).
Proof.
  intros Hrec v v' H. unfold tupleStep in H.
  apply bind_inv in H as [(v1 & [] & HpushI & H)|(e & _ & He)]; [|by inversion He].
  apply bind_inv in H as [(v2 & [] & HpushS & H)|(e & _ & He)]; [|by inversion He].
  apply bind_inv in H as [(v3 & [] & Hrun & H)|(e & _ & He)]; [|by inversion He].
  apply bind_inv in H as [(v4 & [] & HpopI & HpopS)|(e & _ & He)]; [|by inversion He].
  apply Hrec in Hrun. inversion HpushI; subst v1; clear HpushI.
  unfold pushSchemaToken in HpushS. cbn [stack_ setStack schemas instance] in HpushS.
  destruct (last (schemas (stack_ v))) as [s|] eqn:Hs; [|by inversion HpushS].
  assert (schemas (stack_ v) <> []) as Hne by (intros E; by rewrite E in Hs).
  inversion HpushS; subst v2; clear HpushS.
  unfold popInstanceToken in HpopI. rewrite Hrun in HpopI.
  cbn [stack_ setStack schemas instance] in HpopI.
  destruct (instance (stack_ v) ++ [FormatInt i]) as [|t0 ts] eqn:E;
    [by destruct (instance (stack_ v)); inversion E|].
  rewrite <- E, removelast_snoc in HpopI.
  inversion HpopI; subst v4; clear HpopI.
  unfold popSchemaToken in HpopS. cbn [stack_ setStack schemas instance] in HpopS.
  rewrite (last_insert_last _ _ Hne) in HpopS. cbn [tokens id] in HpopS.
  destruct (tokens s ++ [FormatInt i]) as [|t1 ts1] eqn:E1;
    [by destruct (tokens s); inversion E1|].
  rewrite <- E1, removelast_snoc, schemaStack_eta, insert_last_twice in HpopS.
  rewrite (insert_last_id _ _ Hs) in HpopS.
  inversion HpopS; subst v'. simpl. by destruct (stack_ v).
Qed.

Lemma itemsLoop_restores rec val :
  (forall elem, restores (rec elem)) -> forall i, restores (itemsLoop rec i val).
Proof.
  intros Hrec. induction val as [|elem rest IH]; intros i; [apply restores_ret|].
  simpl. apply restores_bind; [by apply itemStep_restores|apply IH].
Qed.

Lemma tupleLoop_restores recs :
  Forall (fun rec => forall elem, restores (rec elem)) recs ->
  forall val i, restores (tupleLoop i recs val).
Proof.
  induction 1 as [|rec recs Hrec _ IH]; intros val i; [apply restores_ret|].
  destruct val as [|elem rest]; [apply restores_ret|].
  simpl. apply restores_bind; [by apply tupleStep_restores|apply IH].
Qed.

(** In this version every check leaves both stacks as it found them. *)
Lemma execSchema_restores schema : forall inst, restores (execSchema schema inst).
Proof.
  induction schema as [ty|ty b single subs IHsingle IHsubs] using Schema_nested_ind;
    intros inst; cbn [execSchema]; (apply restores_bind; [|apply restores_ret]).
  - destruct inst; try apply typeCheck_restores.
    + destruct ty as [ty|]; [apply typeCheck_restores|apply restores_ret].
    + apply restores_bind; [apply typeCheck_restores|apply restores_ret].
    + intros v v' H. by inversion H.
  - destruct inst; try apply typeCheck_restores.
    + destruct ty as [ty|]; [apply typeCheck_restores|apply restores_ret].
    + apply restores_bind; [apply typeCheck_restores|].
      destruct b.
      * apply restores_schemaToken. by apply itemsLoop_restores.
      * apply restores_schemaToken. apply tupleLoop_restores.
        apply Forall_map. by apply (Forall_impl _ _ _ IHsubs).
    + intros v v' H. by inversion H.
Qed.

End VM2Facts.

(** The scenarios of the specification, run. *)
Example items_null_scenario :
  Vm.errors (VM2.execSchema itemsAllNull (VArray [VNil; VFloat 1]) vm2AtRoot).1
  = [Vm.mkValidationError ["1"] ["items"; "type"] URL_zero].
Proof. vm_compute. reflexivity. Qed.

Example null_or_integer_scenario :
  Vm.errors (VM2.execSchema nullOrInteger (VString "x") vm2AtRoot).1
  = [Vm.mkValidationError [] ["type"] URL_zero].
Proof. vm_compute. reflexivity. Qed.

Example tuple_scenario :
  Vm.errors (VM2.execSchema tupleOfNull (VArray [VFloat 1; VFloat 1]) vm2AtRoot).1
  = [Vm.mkValidationError ["0"] ["items"; "0"; "type"] URL_zero].
Proof. vm_compute. reflexivity. Qed.

(** ** C7 *)

(** C7 on vm.go, at [{"type": "null"}] and the instance [true]: the check
    is entered with the schema path [[]] and left with the path [["type"]];
    the later version of [popSchemaToken] leaves [[]]. *)
Theorem vm1_schema_token_not_popped :
  let entered := (Vm.pushNewSchema URL_zero [] vm1Start).1 in
  let left := (VM1.exec URL_zero (VBool true) vm1Start).1 in
  (VM1.exec URL_zero (VBool true) vm1Start).2 = inr tt /\
  Vm.schemas (Vm.stack_ entered) = [Vm.mkSchemaStack URL_zero []] /\
  Vm.schemas (Vm.stack_ left) = [Vm.mkSchemaStack URL_zero ["type"]] /\
  Vm.schemas (Vm.stack_ (VM2.exec URL_zero (VBool true) vm2Start).1)
  = [Vm.mkSchemaStack URL_zero []].
Proof. vm_compute. done. Qed.

(* ===================================================================== *)
(** ** Properties of [Validator.IsValid] *)
(* ===================================================================== *)

Section ValidatorFacts.
Import Validator.
Context {R : RegexpLib} {L : Lib}.

(** ** C5 *)

(** C5. With only [multipleOf = d], [d > 0], and tolerance [e], the check
    is made on [mod = (|i| mod d) / d] and [top = 1 - e] as [float64]
    computes them: a number [i] is valid exactly when [mod <= e] or
    [top <= mod].  This is [min mod (1 - mod) <= e] up to the rounding
    [delta] of [top]: the latter with [e - delta] implies validity, validity
    implies it with [e + delta], the two are the same when [1 - e] is a
    [float64], and [delta] is at most [2^-53] for [e] in [[0, 1]]. *)
Theorem multipleOf_within_tolerance (i d e : Q) :
  (0 < d)%Q ->
  let mod_ := Float.div (Float.Mod (Float.Abs i) d) d in
  let top := Float.sub 1 e in
  let delta := Qabs (top - (1 - e))%Q in
  exists b,
    IsValid (mkValidator (multipleOfOnly d) e) (VFloat i) = Return b /\
    (b = true <-> (mod_ <= e)%Q \/ (top <= mod_)%Q) /\
    ((Qmin mod_ (1 - mod_) <= e - delta)%Q -> b = true) /\
    (b = true -> (Qmin mod_ (1 - mod_) <= e + delta)%Q) /\
    ((top == 1 - e)%Q -> (b = true <-> (Qmin mod_ (1 - mod_) <= e)%Q)) /\
    ((0 <= e <= 1)%Q -> (delta <= 1 # 9007199254740992)%Q).
Proof.
  intros _ mod_ top delta.
  exists (negb (Float.gt mod_ e && Float.lt mod_ top)).
  split.
  { unfold IsValid. cbn. fold mod_. fold top.
    by destruct (Float.gt mod_ e && Float.lt mod_ top). }
  rewrite tolerance_ends.
  assert (- delta <= top - (1 - e) <= delta)%Q as [Hd1 Hd2]
    by (apply Qabs_Qle_condition; apply Qle_refl).
  split; [done|]. split; [|split; [|split]].
  - intros Hmin. apply Q.min_le_iff in Hmin as [H|H]; [left|right]; lra.
  - intros [H|H]; apply Q.min_le_iff; [left|right]; lra.
  - intros Htop. rewrite Q.min_le_iff. split; intros [H|H]; [by left|right|by left|right]; lra.
  - intros [He0 He1]. apply fl_near. apply Qabs_Qle_condition. split; lra.
Qed.

(** ** C6 *)

(** C6 on the code: a pattern that does not compile is accepted by [Parse],
    which does not read [pattern], and makes [IsValid] panic on every
    string. *)
Theorem pattern_compiled_at_validation (pat str : string) (fuel : nat) (e : Q) :
  regexp_Compile pat = None ->
  (Parse (S fuel) [("pattern", VString pat)] (mkParser [] URL_zero [])).2 = inr 0 /\
  IsValid (mkValidator (patternOnly pat) e) (VString str) = Panic.
Proof.
  intros Hbad. split; [done|].
  unfold IsValid. cbn. by rewrite Hbad.
Qed.

End ValidatorFacts.

Lemma multipleOf_within_tolerance_witness :
  let i := 7%Q in
  let d := 2%Q in
  let e := Validator.DefaultEpsilon in
  let mod_ := Float.div (Float.Mod (Float.Abs i) d) d in
  let top := Float.sub 1 e in
  let delta := Qabs (top - (1 - e))%Q in
  (0 < d)%Q /\
  exists b,
    Validator.IsValid (Validator.mkValidator (Validator.multipleOfOnly d) e) (VFloat i)
    = Validator.Return b /\
    (b = true <-> (mod_ <= e)%Q \/ (top <= mod_)%Q) /\
    ((Qmin mod_ (1 - mod_) <= e - delta)%Q -> b = true) /\
    (b = true -> (Qmin mod_ (1 - mod_) <= e + delta)%Q) /\
    ((top == 1 - e)%Q -> (b = true <-> (Qmin mod_ (1 - mod_) <= e)%Q)) /\
    ((0 <= e <= 1)%Q -> (delta <= 1 # 9007199254740992)%Q).
Proof.
  assert (0 < 2)%Q as H by done.
  split; [exact H|].
  exact (multipleOf_within_tolerance 7 2 Validator.DefaultEpsilon H).
Defined.

(** The number [0.999] against [multipleOf = 1] with the default tolerance:
    [1 - 1e-3] is [0.999] in [float64], so the number is not below the
    upper end and is valid, while [min mod (1 - mod)] is above [1e-3]. *)
Lemma multipleOf_counterexample :
  let i := Float.fl (999 # 1000) in
  let e := Validator.DefaultEpsilon in
  let mod_ := Float.div (Float.Mod (Float.Abs i) 1) 1 in
  (0 < 1)%Q /\
  (mod_ == i)%Q /\ (Float.Mod (Float.Abs i) 1 / 1 == i)%Q /\
  (Float.sub 1 e == i)%Q /\
  Validator.IsValid (Validator.NewValidator (Validator.multipleOfOnly 1)) (VFloat i)
  = Validator.Return true /\
  ~ (Qmin mod_ (1 - mod_) <= e)%Q.
Proof.
  split; [done|]. split; [by apply Qeq_bool_iff; vm_compute|].
  split; [by apply Qeq_bool_iff; vm_compute|].
  split; [by apply Qeq_bool_iff; vm_compute|].
  split; [vm_compute; reflexivity|].
  intros H. apply Q.min_le_iff in H as [H|H];
    apply Qle_bool_iff in H; vm_compute in H; discriminate.
Defined.

Lemma pattern_compiled_at_validation_witness :
  regexp_Compile "[[[" = None /\
  (Parse 1 [("pattern", VString "[[[")] (mkParser [] URL_zero [])).2 = inr 0 /\
  Validator.IsValid
    (Validator.mkValidator (Validator.patternOnly "[[[") Validator.DefaultEpsilon)
    (VString "x") = Validator.Panic.
Proof.
  assert (regexp_Compile "[[[" = None) as H by reflexivity.
  split; [exact H|].
  exact (pattern_compiled_at_validation "[[[" "x" 0 Validator.DefaultEpsilon H).
Defined.

(* ===================================================================== *)
(** ** Properties of sealing *)
(* ===================================================================== *)

Section SealFacts.
Import Executor.
Context {L : Lib}.

Lemma parseAll_inv docs :
  forall r roots r' roots',
    parseAll docs r roots = inr (r', roots') ->
    childrenBefore 0 r -> childrenBefore 0 r'.
Proof.
  induction docs as [|doc rest IH]; intros r roots r' roots' H Hcb.
  - by inversion H; subst.
  - cbn [parseAll] in H.
    destruct (Parse (S (depthFields doc)) doc (mkParser r URL_zero []))
      as [p [err|index]] eqn:E; [done|].
    apply IH in H; [done|].
    by destruct (Parse_grows _ _ _ _ _ 0 E) as (_ & Hcb' & _); [simpl; lia|done|].
Qed.

(** The build never runs out of fuel. *)
Lemma parseAll_total docs :
  forall r roots, parseAll docs r roots <> inl errFuel.
Proof.
  induction docs as [|doc rest IH]; intros r roots; [done|].
  cbn [parseAll].
  pose proof (Parse_total (S (depthFields doc)) doc (Nat.lt_succ_diag_r _)
                (mkParser r URL_zero [])) as Hfuel.
  destruct (Parse (S (depthFields doc)) doc (mkParser r URL_zero []))
    as [p [err|index]]; [|apply IH].
  simpl in Hfuel. congruence.
Qed.

Lemma fmap_filter_ext {A B} (f g : A -> B) (P : A -> Prop)
    `{forall x, Decision (P x)} (l : list A) :
  Forall (fun x => f x = g x) l -> f <$> filter P l = g <$> filter P l.
Proof.
  induction 1 as [|x l Hx _ IH]; [done|].
  rewrite filter_cons. destruct (decide (P x)); [|done].
  by rewrite !fmap_cons, Hx, IH.
Qed.

(** ** C3 *)

(** C3. When the build fails at sealing, the list it reports is, for the
    nodes of the registry in the order of their insertion (children before
    parents) that refer to a document not in the registry, the target of
    the reference without its fragment. *)
Theorem seal_reports_missing docs cfg uris :
  NewValidatorWithConfig docs cfg = inl (ErrMissingURIs uris) ->
  exists r roots,
    parseAll docs [] [] = inr (r, roots) /\
    uris = (fun e => withFragment (rURI (Ref e.2)) EmptyString)
             <$> filter (fun e => unresolved r e = true) r /\
    forall j u s, r !! j = Some (u, s) ->
      Forall (fun c => c < j) (Schemas (Items s)).
Proof.
  unfold NewValidatorWithConfig. intros H.
  destruct (parseAll docs [] []) as [err|[r roots]] eqn:E; [done|].
  exists r, roots. split; [done|].
  pose proof (parseAll_inv _ _ _ _ _ E (childrenBefore_nil 0 [] (le_n 0))) as Hcb.
  split.
  - unfold seal in H. destruct (missingURIs r) as [|u us] eqn:Em; [done|].
    inversion H; subst uris. rewrite <- Em. unfold missingURIs.
    apply fmap_filter_ext. apply Forall_lookup. intros j [u' s'] Hlook.
    simpl. by destruct (Hcb j u' s' (Nat.le_0_l j) Hlook) as [_ ->].
  - intros j u s Hlook.
    destruct (Hcb j u s (Nat.le_0_l j) Hlook) as [Hall _].
    eapply Forall_impl; [exact Hall|]. simpl. intros c Hc. lia.
Qed.

End SealFacts.

Lemma seal_reports_missing_witness :
  let uris := [mkURL "http" "example.com" "/2" EmptyString; mkURL "http" "example.com" "/3" EmptyString;
               mkURL "http" "example.com" "/4" EmptyString; mkURL "http" "example.com" "/1" EmptyString] in
  Executor.NewValidatorWithConfig [docMissingRefs] Executor.defaultConfig
    = inl (Executor.ErrMissingURIs uris) /\
  exists r roots,
    Executor.parseAll [docMissingRefs] [] [] = inr (r, roots) /\
    uris = (fun e => withFragment (rURI (Ref e.2)) EmptyString)
             <$> filter (fun e => Executor.unresolved r e = true) r /\
    forall j u s, r !! j = Some (u, s) ->
      Forall (fun c => c < j) (Schemas (Items s)).
Proof.
  intros uris.
  assert (Executor.NewValidatorWithConfig [docMissingRefs] Executor.defaultConfig
          = inl (Executor.ErrMissingURIs uris)) as H by (vm_compute; reflexivity).
  split; [exact H|].
  exact (seal_reports_missing [docMissingRefs] Executor.defaultConfig uris H).
Defined.

(* ===================================================================== *)
(** ** Properties of the executor over the registry *)
(* ===================================================================== *)

Section ExecFacts.
Import Vm Executor.

Lemma NewValidator_selfRef cfg :
  NewValidatorWithConfig [docSelfRef] cfg
  = inr (mkValidator registrySelfRef 0 cfg StopAtCap).
Proof. vm_compute. reflexivity. Qed.

Lemma resolve_selfRef :
  resolve registrySelfRef refToRoot
  = Some (0, (URL_zero,
              nodeOf (mkSchema URL_zero refToRoot schemaType_zero schemaItems_zero))).
Proof. vm_compute. reflexivity. Qed.

Lemma exec_at fuel v depth index inst u nd :
  registry v !! index = Some (u, nd) ->
  exec (S fuel) v depth index inst =
    (do_ refStep (exec fuel v) v depth (Ref (base nd)) inst;
     do_ instanceStep (exec fuel v depth) (config v) (policy v) (base nd) inst;
     do_ allOfStep (fun sub => exec fuel v depth sub inst) (AllOf nd);
     ret tt).
Proof. intros H. cbn [exec]. by rewrite H. Qed.

Lemma refStep_selfRef rec cfg pol depth inst st :
  refStep rec (mkValidator registrySelfRef 0 cfg pol) depth refToRoot inst st =
    let st1 := mkState (mkStack (instance (stack_ st))
                          (schemas (stack_ st) ++ [mkSchemaStack URL_zero []]))
                 (errors st) in
    if bool_decide (MaxStackDepth cfg < depth + 1)
    then (st1, inl ErrStackOverflow)
    else (do_ rec (depth + 1) 0 inst; popSchema) st1.
Proof.
  unfold refStep. change (rIsSet refToRoot) with true. cbn [registry config].
  rewrite resolve_selfRef. unfold bind at 1, pushNewSchema.
  by case_bool_decide.
Qed.

Lemma exec_selfRef cfg pol inst n :
  forall fuel depth st,
    depth + n = MaxStackDepth cfg -> n < fuel ->
    exists st',
      exec fuel (mkValidator registrySelfRef 0 cfg pol) depth 0 inst st
      = (st', inl ErrStackOverflow) /\
      errors st' = errors st.
Proof.
  induction n as [|n IH]; intros fuel depth st Hd Hf;
    (destruct fuel as [|fuel]; [lia|]);
    rewrite (exec_at fuel (mkValidator registrySelfRef 0 cfg pol) depth 0 inst
               URL_zero _ eq_refl);
    unfold bind at 1;
    change (Ref (base (nodeOf _))) with refToRoot;
    rewrite refStep_selfRef; cbv zeta.
  - rewrite bool_decide_eq_true_2 by lia. eexists. split; [reflexivity|done].
  - rewrite bool_decide_eq_false_2 by lia. unfold bind at 1.
    edestruct (IH fuel (depth + 1)) as (st' & -> & Herr); [lia|lia|].
    eexists. split; [reflexivity|]. by rewrite Herr.
Qed.

(** ** C1 *)

(** C1. On the registry built from the one schema [{"$ref": "#"}], a
    validation of any instance, under any configuration, ends: with fuel
    above [MaxStackDepth] the run stops with the stack-overflow error; the
    error is what [Validate] returns, and no violation has been recorded
    on the way. *)
Theorem self_reference_overflows (cfg : ValidatorConfig) (inst : value) (fuel : nat) :
  MaxStackDepth cfg < fuel ->
  exists v,
    NewValidatorWithConfig [docSelfRef] cfg = inr v /\
    Validate fuel v inst = inl ErrStackOverflow /\
    exists st, run fuel v inst = (st, inl ErrStackOverflow) /\ errors st = [].
Proof.
  intros Hfuel. eexists. split; [apply NewValidator_selfRef|].
  destruct (exec_selfRef cfg StopAtCap inst (MaxStackDepth cfg) fuel 0
              (mkState (mkStack [] [mkSchemaStack URL_zero []]) []))
    as (st & Hrun & Herr); [lia|done|].
  assert (run fuel (mkValidator registrySelfRef 0 cfg StopAtCap) inst
          = (st, inl ErrStackOverflow)) as Hr.
  { unfold run. cbn [registry root lookup list_lookup registrySelfRef].
    unfold bind, pushNewSchema. cbn [stack_ instance schemas errors app].
    change (withFragment URL_zero EmptyString) with URL_zero. by rewrite Hrun. }
  split.
  - unfold Validate. by rewrite Hr.
  - by exists st.
Qed.

End ExecFacts.

Lemma self_reference_overflows_witness :
  64 < 65 /\
  exists v,
    Executor.NewValidatorWithConfig [docSelfRef] Executor.defaultConfig = inr v /\
    Executor.Validate 65 v VNil = inl Executor.ErrStackOverflow.
Proof.
  assert (Executor.MaxStackDepth Executor.defaultConfig < 65) as H by (simpl; lia).
  split; [exact H|].
  destruct (self_reference_overflows Executor.defaultConfig VNil 65 H)
    as (v & Hv & Hrun & _).
  by exists v.
Defined.

(* ===================================================================== *)
(** ** The error cap *)
(* ===================================================================== *)

Section CapFacts.
Import Vm Executor.
Context {L : Lib}.
Variable N : nat.

Lemma silent_capped {A} (m : ST state execError A) : silent m -> capped N m.
Proof.
  intros Hm st st' res Hlt H. destruct (Hm _ _ _ H) as [He Hres]. rewrite He.
  by destruct res as [[]|].
Qed.

Lemma capped_ret {A} (a : A) : capped N (ret a).
Proof. apply silent_capped. intros st st' res H. by inversion H. Qed.

Lemma capped_fail {A} e : e <> errMaxErrors -> capped N (@fail state execError A e).
Proof.
  intros He. apply silent_capped. intros st st' res H. inversion H; subst.
  split; [done|congruence].
Qed.

Lemma capped_bind {A B} (m : ST state execError A) (k : A -> ST state execError B) :
  capped N m -> (forall a, capped N (k a)) -> capped N (bind m k).
Proof.
  intros Hm Hk st st' res Hlt H.
  apply bind_inv in H as [(st1 & a & H1 & H2)|(e & H1 & ->)].
  - apply (Hk a st1); [|done]. by apply (Hm _ _ _ Hlt H1).
  - by apply (Hm _ _ _ Hlt H1).
Qed.

Lemma silent_pushNewSchema u toks : silent (pushNewSchema u toks).
Proof. intros st st' res H. by inversion H. Qed.

Lemma silent_popSchema : silent popSchema.
Proof.
  intros st st' res H. unfold popSchema in H.
  destruct (schemas (stack_ st)); by inversion H.
Qed.

Lemma silent_pushSchemaToken t : silent (pushSchemaToken t).
Proof.
  intros st st' res H. unfold pushSchemaToken in H.
  destruct (last (schemas (stack_ st))); by inversion H.
Qed.

Lemma silent_popSchemaToken : silent popSchemaToken.
Proof.
  intros st st' res H. unfold popSchemaToken in H.
  destruct (last (schemas (stack_ st))) as [s|]; [|by inversion H].
  destruct (tokens s); by inversion H.
Qed.

Lemma silent_pushInstanceToken t : silent (pushInstanceToken t).
Proof. intros st st' res H. by inversion H. Qed.

Lemma silent_popInstanceToken : silent popInstanceToken.
Proof.
  intros st st' res H. unfold popInstanceToken in H.
  destruct (instance (stack_ st)); by inversion H.
Qed.

Lemma capped_reportError cfg :
  MaxErrors cfg = N -> capped N (reportError cfg StopAtCap).
Proof.
  intros HN st st' res Hlt H. unfold reportError in H.
  destruct (last (schemas (stack_ st))) as [s|];
    [|inversion H; subst; simpl; lia].
  case_bool_decide as Hlen; inversion H; subst; simpl in *.
  - lia.
  - rewrite length_app in *. simpl in *. lia.
Qed.

Lemma capped_typeError cfg : MaxErrors cfg = N -> capped N (typeError cfg StopAtCap).
Proof.
  intros HN. unfold typeError.
  apply capped_bind; [apply silent_capped, silent_pushSchemaToken|]. intros _.
  apply capped_bind; [by apply capped_reportError|]. intros _.
  apply silent_capped, silent_popSchemaToken.
Qed.

Lemma capped_typeCheck cfg (b : bool) :
  MaxErrors cfg = N -> capped N (if b then typeError cfg StopAtCap else ret tt).
Proof. intros HN. destruct b; [by apply capped_typeError|apply capped_ret]. Qed.

Lemma capped_itemsLoop rec val :
  (forall elem, capped N (rec elem)) -> forall i, capped N (itemsLoop rec i val).
Proof.
  intros Hrec. induction val as [|elem rest IH]; intros i; [apply capped_ret|].
  simpl. apply capped_bind; [apply silent_capped, silent_pushInstanceToken|].
  intros _. apply capped_bind; [apply Hrec|]. intros _.
  apply capped_bind; [apply silent_capped, silent_popInstanceToken|]. intros _.
  apply IH.
Qed.

Lemma capped_tupleLoop rec subs :
  (forall sub elem, capped N (rec sub elem)) ->
  forall val i, capped N (tupleLoop rec i subs val).
Proof.
  intros Hrec. induction subs as [|sub subs IH]; intros val i; [apply capped_ret|].
  destruct val as [|elem rest]; [apply capped_ret|]. simpl.
  apply capped_bind; [apply silent_capped, silent_pushInstanceToken|]. intros _.
  apply capped_bind; [apply silent_capped, silent_pushSchemaToken|]. intros _.
  apply capped_bind; [apply Hrec|]. intros _.
  apply capped_bind; [apply silent_capped, silent_popInstanceToken|]. intros _.
  apply capped_bind; [apply silent_capped, silent_popSchemaToken|]. intros _.
  apply IH.
Qed.

Lemma capped_allOfLoop rec subs :
  (forall sub, capped N (rec sub)) -> forall i, capped N (allOfLoop rec i subs).
Proof.
  intros Hrec. induction subs as [|sub subs IH]; intros i; [apply capped_ret|].
  simpl.
  apply capped_bind; [apply silent_capped, silent_pushSchemaToken|]. intros _.
  apply capped_bind; [apply Hrec|]. intros _.
  apply capped_bind; [apply silent_capped, silent_popSchemaToken|]. intros _.
  apply IH.
Qed.

Lemma capped_refStep rec v depth ref inst :
  (forall d i x, capped N (rec d i x)) -> capped N (refStep rec v depth ref inst).
Proof.
  intros Hrec. unfold refStep. destruct (rIsSet ref); [|apply capped_ret].
  destruct (resolve (registry v) ref) as [[target [uri nd]]|];
    [|by apply capped_fail].
  apply capped_bind; [apply silent_capped, silent_pushNewSchema|]. intros _.
  cbv zeta. case_bool_decide; [by apply capped_fail|].
  apply capped_bind; [apply Hrec|]. intros _.
  apply silent_capped, silent_popSchema.
Qed.

Lemma capped_instanceStep rec cfg s inst :
  MaxErrors cfg = N ->
  (forall sub elem, capped N (rec sub elem)) ->
  capped N (instanceStep rec cfg StopAtCap s inst).
Proof.
  intros HN Hrec. unfold instanceStep.
  destruct inst; try (by apply capped_typeCheck).
  - destruct (tIsSet (Type_ s)); [by apply capped_typeCheck|apply capped_ret].
  - apply capped_bind; [by apply capped_typeCheck|]. intros _.
    destruct (iIsSet (Items s)); [|apply capped_ret].
    destruct (iIsSingle (Items s)).
    + destruct (Schemas (Items s) !! 0) as [sub|]; [|by apply capped_fail].
      apply capped_bind; [apply silent_capped, silent_pushSchemaToken|]. intros _.
      apply capped_bind; [by apply capped_itemsLoop|]. intros _.
      apply silent_capped, silent_popSchemaToken.
    + apply capped_bind; [apply silent_capped, silent_pushSchemaToken|]. intros _.
      apply capped_bind; [by apply capped_tupleLoop|]. intros _.
      apply silent_capped, silent_popSchemaToken.
  - by apply capped_fail.
Qed.

Lemma capped_allOfStep rec subs :
  (forall sub, capped N (rec sub)) -> capped N (allOfStep rec subs).
Proof.
  intros Hrec. unfold allOfStep. destruct subs as [|sub subs]; [apply capped_ret|].
  apply capped_bind; [apply silent_capped, silent_pushSchemaToken|]. intros _.
  apply capped_bind; [by apply capped_allOfLoop|]. intros _.
  apply silent_capped, silent_popSchemaToken.
Qed.

Lemma capped_exec v :
  policy v = StopAtCap -> MaxErrors (config v) = N ->
  forall fuel depth index inst, capped N (exec fuel v depth index inst).
Proof.
  intros Hpol HN. induction fuel as [|fuel IH]; intros depth index inst.
  { by apply capped_fail. }
  cbn [exec]. destruct (registry v !! index) as [[u nd]|]; [|by apply capped_fail].
  apply capped_bind; [by apply capped_refStep|]. intros _.
  apply capped_bind; [rewrite Hpol; by apply capped_instanceStep|]. intros _.
  apply capped_bind; [by apply capped_allOfStep|]. intros _.
  apply capped_ret.
Qed.

End CapFacts.

Section CapTheorem.
Import Vm Executor.
Context {L : Lib}.

(** ** C2 *)

(** C2, as the repository has it.  With [MaxErrors = N > 0] the list of
    recorded errors never grows beyond [N]; the error that fills it ends
    the run, which returns these [N] errors and no failure.  A failure,
    the stack overflow among them, ends only a run that has recorded fewer
    than [N] errors: nothing is traversed after the cap. *)
Theorem error_cap_ends_run (v : Validator) (fuel : nat) (inst : value) :
  policy v = StopAtCap ->
  0 < MaxErrors (config v) ->
  match run fuel v inst with
  | (st, inl errMaxErrors) =>
      length (errors st) = MaxErrors (config v) /\
      Validate fuel v inst = inr (errors st)
  | (st, inl e) =>
      length (errors st) < MaxErrors (config v) /\
      Validate fuel v inst = inl e
  | (st, inr _) =>
      length (errors st) < MaxErrors (config v) /\
      Validate fuel v inst = inr (errors st)
  end.
Proof.
  intros Hpol Hpos. unfold Validate.
  destruct (run fuel v inst) as [st res] eqn:Hrun.
  assert (match res with
          | inl errMaxErrors => length (errors st) = MaxErrors (config v)
          | _ => length (errors st) < MaxErrors (config v)
          end) as Hcap.
  { unfold run in Hrun. destruct (registry v !! root v) as [[uri nd]|].
    - revert Hrun. apply (capped_bind (MaxErrors (config v))); [| |simpl; lia].
      + apply silent_capped, silent_pushNewSchema.
      + intros _. by apply capped_exec.
    - inversion Hrun; subst. simpl. lia. }
  by destruct res as [[]|].
Qed.

End CapTheorem.

Lemma error_cap_ends_run_witness :
  Executor.policy (validatorMaxErrors Executor.StopAtCap) = Executor.StopAtCap /\
  0 < Executor.MaxErrors (Executor.config (validatorMaxErrors Executor.StopAtCap)) /\
  Executor.Validate 100 (validatorMaxErrors Executor.StopAtCap) (VBool true)
  = inr (replicate 5 expectedError).
Proof.
  pose (v := validatorMaxErrors Executor.StopAtCap).
  assert (Executor.policy v = Executor.StopAtCap) as Hpol by reflexivity.
  assert (0 < Executor.MaxErrors (Executor.config v)) as Hpos by (simpl; lia).
  split; [exact Hpol|]. split; [exact Hpos|].
  assert ((Executor.run 100 v (VBool true)).2 = inl Executor.errMaxErrors)
    as Hres by (vm_compute; reflexivity).
  assert (Executor.errors (Executor.run 100 v (VBool true)).1
          = replicate 5 expectedError) as Herrs by (vm_compute; reflexivity).
  pose proof (error_cap_ends_run v 100 (VBool true) Hpol Hpos) as H.
  destruct (Executor.run 100 v (VBool true)) as [st res].
  cbn [fst snd] in Hres, Herrs. subst res.
  destruct H as [_ H]. exact (eq_trans H (f_equal inr Herrs)).
Defined.

(** C2 as stated fails on the input of [TestValidatorMaxErrors]: the schema
    refers to itself without end, so a traversal that went on after the
    fifth error would exceed [MaxStackDepth] (as the run with the list
    left to grow does, and as the run that follows the words of the
    specification does); the run ends with the five errors and no
    failure, which is what the test asserts. *)
Lemma error_cap_counterexample :
  Executor.Validate 100 (validatorMaxErrors Executor.StopAtCap) (VBool true)
  = inr (replicate 5 expectedError) /\
  Executor.Validate 100 validatorUncapped (VBool true)
  = inl Executor.ErrStackOverflow /\
  Executor.Validate 100 (validatorMaxErrors Executor.ContinueAfterCap) (VBool true)
  = inl Executor.ErrStackOverflow /\
  ~ (forall fuel,
       Executor.Validate fuel validatorUncapped (VBool true)
       = inl Executor.ErrStackOverflow ->
       Executor.Validate fuel (validatorMaxErrors Executor.StopAtCap) (VBool true)
       = inl Executor.ErrStackOverflow).
Proof.
  assert (Executor.Validate 100 (validatorMaxErrors Executor.StopAtCap) (VBool true)
          = inr (replicate 5 expectedError)) as H1 by (vm_compute; reflexivity).
  assert (Executor.Validate 100 validatorUncapped (VBool true)
          = inl Executor.ErrStackOverflow) as H2 by (vm_compute; reflexivity).
  split; [exact H1|]. split; [exact H2|]. split; [vm_compute; reflexivity|].
  intros H. specialize (H 100 H2). rewrite H1 in H. discriminate H.
Qed.

(* ===================================================================== *)
(** ** More on the parser *)
(* ===================================================================== *)

Section ParserMore.
Context {L : Lib}.

Lemma parseJSONType_inr (typ : string) t :
  parseJSONType typ = inr t <-> typ = jsonTypeName t.
Proof.
  split.
  - unfold parseJSONType. repeat case_bool_decide; intros Hres; inversion Hres; by subst.
  - intros ->. by destruct t.
Qed.

Lemma parseJSONType_inl (typ : string) e :
  parseJSONType typ = inl e -> e = invalidTypeValue.
Proof.
  unfold parseJSONType. repeat case_bool_decide; intros Hres; by inversion Hres.
Qed.

Lemma parseTypeList_spec typ :
  forall i ts,
    i + length typ <= length ts ->
    match parseTypeList i typ ts with
    | inr ts' =>
        exists types,
          typ = (fun t => VString (jsonTypeName t)) <$> types /\
          ts' = take i ts ++ types ++ drop (i + length typ) ts
    | inl e =>
        e = invalidTypeValue /\
        forall types, typ <> (fun t => VString (jsonTypeName t)) <$> types
    end.
Proof.
  induction typ as [|t rest IH]; intros i ts Hlen.
  - simpl. exists []. split; [done|]. simpl. by rewrite Nat.add_0_r, take_drop.
  - assert (forall types,
              (exists name, t = VString name /\ forall ty, name <> jsonTypeName ty) \/
              (forall name, t <> VString name) ->
              t :: rest <> (fun t => VString (jsonTypeName t)) <$> types) as Hbad.
    { intros [|ty types] Hor Heq; [done|]. inversion Heq; subst.
      destruct Hor as [(name & Hn & Hno)|Hno]; [|by eapply Hno].
      inversion Hn; subst. by eapply Hno. }
    simpl in Hlen.
    destruct t as [| | |name| | |]; simpl;
      try (split; [done|]; intros types; apply Hbad; right; by intros name).
    destruct (parseJSONType name) as [e|ty] eqn:Hp.
    + split; [by apply (parseJSONType_inl name)|].
      intros types. apply Hbad. left. exists name. split; [done|].
      intros ty Hty. apply parseJSONType_inr in Hty. congruence.
    + apply parseJSONType_inr in Hp. subst name.
      specialize (IH (S i) (<[i := ty]> ts)).
      rewrite length_insert in IH. specialize (IH ltac:(lia)).
      destruct (parseTypeList (S i) rest (<[i := ty]> ts)) as [e|ts'].
      * destruct IH as [-> Hno]. split; [done|].
        intros [|ty' types] Heq; [done|]. inversion Heq; subst.
        by eapply Hno.
      * destruct IH as (types & -> & ->). exists (ty :: types).
        split; [done|]. rewrite length_fmap. simpl in Hlen.
        rewrite length_fmap in Hlen.
        rewrite (take_S_r _ _ ty) by (apply list_lookup_insert_eq; lia).
        rewrite take_insert_ge by lia. rewrite drop_insert_lt by lia.
        rewrite <- app_assoc. simpl. by rewrite Nat.add_succ_r.
Qed.

(** X2. The [type] keyword is accepted when it is one of the seven names or
    an array of them, the empty array included; the node then lists the
    types in the order of the array, repeated names kept.  Every other
    value fails with [invalidTypeValue].  The parser itself is left as it
    was. *)
Theorem parseType_values (input : list (string * value)) (s : schema) (p : parser) :
  match mapIndex "type" input with
  | None => parseType input s p = (p, inr s)
  | Some (VString typ) =>
      (exists t, typ = jsonTypeName t /\
         parseType input s p =
           (p, inr (mkSchema (ID s) (Ref s) (mkSchemaType true true [t]) (Items s)))) \/
      ((forall t, typ <> jsonTypeName t) /\
         parseType input s p = (p, inl invalidTypeValue))
  | Some (VArray typ) =>
      (exists types, typ = (fun t => VString (jsonTypeName t)) <$> types /\
         parseType input s p =
           (p, inr (mkSchema (ID s) (Ref s) (mkSchemaType true false types) (Items s)))) \/
      ((forall types, typ <> (fun t => VString (jsonTypeName t)) <$> types) /\
         parseType input s p = (p, inl invalidTypeValue))
  | Some _ => parseType input s p = (p, inl invalidTypeValue)
  end.
Proof.
  unfold parseType. destruct (mapIndex "type" input) as [[| | |typ|typ| |]|]; try done.
  - destruct (parseJSONType typ) as [e|t] eqn:Hp.
    + right. rewrite (parseJSONType_inl typ e Hp). split; [|done].
      intros t Ht. apply parseJSONType_inr in Ht. congruence.
    + left. exists t. split; [|done]. by apply parseJSONType_inr.
  - pose proof (parseTypeList_spec typ 0 (replicate (length typ) jsonTypeNull)) as H.
    rewrite length_replicate in H. specialize (H (le_n _)).
    destruct (parseTypeList 0 typ _) as [e|ts].
    + right. by destruct H as [-> Hno].
    + left. destruct H as (types & -> & ->). exists types. split; [done|].
      rewrite drop_ge by (rewrite length_replicate; simpl; lia).
      by rewrite app_nil_r.
Qed.

(** X3. [Parse] reads four members of an object, [$id], [$ref], [type] and
    [items]; two objects that agree on these parse alike, whatever else
    they hold. *)
Theorem Parse_reads_four_keywords fuel (input input' : list (string * value)) p :
  mapIndex "$id" input' = mapIndex "$id" input ->
  mapIndex "$ref" input' = mapIndex "$ref" input ->
  mapIndex "type" input' = mapIndex "type" input ->
  mapIndex "items" input' = mapIndex "items" input ->
  Parse fuel input' p = Parse fuel input p.
Proof.
  intros Hid Href Htype Hitems. destruct fuel as [|fuel]; [done|].
  rewrite !Parse_S. unfold parseID, parseRef, parseType.
  by rewrite Hid, Href, Htype, Hitems.
Qed.

(** X4. A call of [Parse] that returns leaves the token stack as it found
    it: every [Push] has met its [Pop]. *)
Theorem Parse_restores_token_stack fuel input p p' idx :
  Parse fuel input p = (p', inr idx) -> tokens p' = tokens p.
Proof.
  intros H. destruct (Parse_keeps fuel input p p' (inr idx) H) as [Htok _].
  by apply (Htok idx).
Qed.

Lemma Parse_last_key fuel input p p' idx :
  Parse fuel input p = (p', inr idx) ->
  exists s, p_registry p' !! idx = Some (URI p', s).
Proof.
  destruct fuel as [|fuel]; intros H; [by inversion H|].
  rewrite Parse_S in H.
  apply bind_inv in H as [(p1 & s1 & H1 & H)|(e & _ & He)]; [|by inversion He].
  apply bind_inv in H as [(p2 & s2 & H2 & H)|(e & _ & He)]; [|by inversion He].
  apply bind_inv in H as [(p3 & s3 & H3 & H)|(e & _ & He)]; [|by inversion He].
  apply bind_inv in H as [(p4 & s4 & H4 & H)|(e & _ & He)]; [|by inversion He].
  unfold Insert in H. inversion H; subst. exists s4. simpl.
  by rewrite list_lookup_middle.
Qed.

(** X6. The node a call of [Parse] returns is registered under the base URI
    with the pointer of the token stack as its fragment. *)
Theorem Parse_registers_under_pointer fuel input p p' idx :
  Parse fuel input p = (p', inr idx) ->
  exists s,
    p_registry p' !! idx
    = Some (withFragment (baseURI p') (Ptr_String (tokens p)), s).
Proof.
  intros H. destruct (Parse_last_key _ _ _ _ _ H) as [s Hs].
  exists s. rewrite Hs. unfold URI.
  destruct (Parse_keeps fuel input p p' (inr idx) H) as [Htok _].
  by rewrite (Htok idx).
Qed.

Lemma Parse_inv fuel input p p' idx :
  Parse (S fuel) input p = (p', inr idx) ->
  exists p1 s1 s2 s3 p4 s4,
    parseID input schema_zero p = (p1, inr s1) /\
    parseRef input s1 p1 = (p1, inr s2) /\
    parseType input s2 p1 = (p1, inr s3) /\
    match mapIndex "items" input with
    | Some itemsValue =>
        match itemsValue with
        | VMap items =>
            do_ Push "items";
            do subSchema <- Parse fuel items;
            let s := mkSchema (ID s3) (Ref s3) (Type_ s3)
                       (mkSchemaItems true true [subSchema]) in
            do_ Pop;
            ret s
        | VArray items =>
            do_ Push "items";
            let s := mkSchema (ID s3) (Ref s3) (Type_ s3)
                       (mkSchemaItems true false (replicate (length items) 0)) in
            do s <- parseItemsList (Parse fuel) 0 items s;
            do_ Pop;
            ret s
        | _ => fail schemaNotObject
        end
    | None => ret s3
    end p1 = (p4, inr s4) /\
    p' = mkParser (p_registry p4 ++ [(URI p4, s4)]) (baseURI p4) (tokens p4) /\
    idx = length (p_registry p4).
Proof.
  intros H. rewrite Parse_S in H.
  apply bind_inv in H as [(p1 & s1 & H1 & H)|(e & _ & He)]; [|by inversion He].
  apply bind_inv in H as [(p2 & s2 & H2 & H)|(e & _ & He)]; [|by inversion He].
  apply bind_inv in H as [(p3 & s3 & H3 & H)|(e & _ & He)]; [|by inversion He].
  apply bind_inv in H as [(p4 & s4 & H4 & H)|(e & _ & He)]; [|by inversion He].
  pose proof (parseRef_inv _ _ _ _ _ H2) as [-> _].
  pose proof (parseType_inv _ _ _ _ _ H3) as [-> _].
  exists p1, s1, s2, s3, p4, s4. repeat (split; [done|]).
  unfold Insert in H. by inversion H.
Qed.

Lemma Parse_child_key fuel items q q' sub :
  Parse fuel items q = (q', inr sub) ->
  tokens q <> [] ->
  tokens q' = tokens q /\ baseURI q' = baseURI q /\
  (length (p_registry q) <= sub /\ S sub = length (p_registry q')) /\
  (exists added, p_registry q' = p_registry q ++ added) /\
  exists c,
    p_registry q' !! sub = Some (withFragment (baseURI q) (Ptr_String (tokens q)), c).
Proof.
  intros H Hne.
  destruct (Parse_keeps fuel items q q' (inr sub) H) as [Htok Hbase].
  specialize (Htok sub eq_refl). specialize (Hbase Hne).
  destruct (Parse_grows fuel items q q' (inr sub) (length (p_registry q)) H (le_n _)
              (childrenBefore_nil _ _ (le_n _))) as (Hadd & _ & Hidx).
  destruct (Hidx sub eq_refl) as [Hlo Hhi].
  destruct (Parse_last_key _ _ _ _ _ H) as [c Hc].
  repeat split; [done|done|done|done|done|].
  exists c. rewrite Hc. unfold URI. by rewrite Htok, Hbase.
Qed.

Lemma bind_inr {S E A B} (m : ST S E A) (k : A -> ST S E B) p p1 a :
  m p = (p1, inr a) -> bind m k p = k a p1.
Proof. intros H. unfold bind. by rewrite H. Qed.

Lemma bind_inl {S E A B} (m : ST S E A) (k : A -> ST S E B) p p1 e :
  m p = (p1, inl e) -> bind m k p = (p1, inl e).
Proof. intros H. unfold bind. by rewrite H. Qed.

(** A tuple that stops at an element that is no object: the elements
    before it have been parsed as in the tuple that ends there. *)
Lemma parseItemsList_stops fuel good bad rest :
  (forall fields, bad <> VMap fields) ->
  forall i s s0 p q s0',
    parseItemsList (Parse fuel) i (VMap <$> good) s0 p = (q, inr s0') ->
    (exists p',
       parseItemsList (Parse fuel) i ((VMap <$> good) ++ bad :: rest) s p
       = (p', inl schemaNotObject) /\
       p_registry p' = p_registry q) /\
    exists added,
      p_registry q = p_registry p ++ added /\ length good <= length added.
Proof.
  intros Hbad. induction good as [|g gs IH]; intros i s s0 p q s0' H.
  - inversion H; subst. split.
    + exists (mkParser (p_registry q) (baseURI q) (tokens q ++ [FormatInt i])).
      split; [|reflexivity]. simpl.
      rewrite (bind_inr (Push (FormatInt i)) _ _ _ tt eq_refl).
      destruct bad as [| | | | |fields|]; try reflexivity. by destruct (Hbad fields).
    + exists []. by rewrite app_nil_r.
  - simpl in H.
    apply bind_inv in H as [(q1 & [] & Hpush & H)|(e & _ & He)]; [|by inversion He].
    inversion Hpush; subst q1; clear Hpush.
    apply bind_inv in H as [(q2 & sub & Hsub & H)|(e & _ & He)]; [|by inversion He].
    apply bind_inv in H as [(q3 & [] & Hpop & H)|(e & _ & He)]; [|by inversion He].
    inversion Hpop; subst q3; clear Hpop.
    destruct (IH (S i) (setItem s i sub) _ _ _ _ H)
      as [(p' & Hfail & Hreg) (added2 & Hadd2 & Hlen2)].
    pose proof (Parse_child_key _ _ _ _ _ Hsub) as Hkey.
    destruct Hkey as (_ & _ & [Hlo Hhi] & [added1 Hadd1] & _);
      [by destruct (tokens p)|].
    simpl in Hadd1, Hadd2, Hlo, Hhi. split.
    + exists p'. split; [|done]. simpl.
      rewrite (bind_inr (Push (FormatInt i)) _ _ _ tt eq_refl).
      rewrite (bind_inr _ _ _ _ _ Hsub).
      rewrite (bind_inr Pop _ _ _ tt eq_refl). exact Hfail.
    + exists (added1 ++ added2). split; [by rewrite Hadd2, Hadd1, app_assoc|].
      rewrite Hadd1, length_app in Hhi. rewrite length_app. simpl. lia.
Qed.

(** X5. [Parse] has no rollback.  Where a tuple under [items] holds an
    element that is no object, the call fails with [schemaNotObject], and
    the nodes of the elements before it are in the registry: it holds what
    the parse of the tuple cut before that element leaves, all but the node
    of the parent, and what was there before, at least one node more for
    each of these elements. *)
Theorem Parse_no_rollback fuel input input' good bad rest p q idx :
  mapIndex "items" input = Some (VArray ((VMap <$> good) ++ bad :: rest)) ->
  (forall fields, bad <> VMap fields) ->
  mapIndex "$id" input' = mapIndex "$id" input ->
  mapIndex "$ref" input' = mapIndex "$ref" input ->
  mapIndex "type" input' = mapIndex "type" input ->
  mapIndex "items" input' = Some (VArray (VMap <$> good)) ->
  Parse fuel input' p = (q, inr idx) ->
  exists p' node added,
    Parse fuel input p = (p', inl schemaNotObject) /\
    p_registry q = p_registry p' ++ [node] /\
    p_registry p' = p_registry p ++ added /\
    length good <= length added.
Proof.
  intros Hitems Hbad Hid Href Htype Hitems' H.
  destruct fuel as [|fuel]; [by inversion H|].
  apply Parse_inv in H
    as (p1 & s1 & s2 & s3 & p4 & s4 & H1 & H2 & H3 & H4 & -> & ->).
  unfold parseID in H1. rewrite Hid in H1.
  unfold parseRef in H2. rewrite Href in H2.
  unfold parseType in H3. rewrite Htype in H3.
  pose proof (parseID_inv input schema_zero p p1 (inr s1) H1) as (Hreg1 & _).
  rewrite Hitems' in H4.
  apply bind_inv in H4 as [(q1 & [] & Hpush & H4)|(e & _ & He)]; [|by inversion He].
  inversion Hpush; subst q1; clear Hpush.
  apply bind_inv in H4 as [(q2 & s5 & Hl & H4)|(e & _ & He)]; [|by inversion He].
  apply bind_inv in H4 as [(q3 & [] & Hpop & H4)|(e & _ & He)]; [|by inversion He].
  inversion Hpop; subst q3; clear Hpop. inversion H4; subst p4 s4; clear H4.
  destruct (parseItemsList_stops fuel good bad rest Hbad 0
              (mkSchema (ID s3) (Ref s3) (Type_ s3)
                 (mkSchemaItems true false
                    (replicate (length ((VMap <$> good) ++ bad :: rest)) 0)))
              _ _ _ _ Hl)
    as [(p' & Hfail & Hreg) (added & Hadd & Hlen)].
  simpl in Hadd. exists p', (URI (mkParser (p_registry q2) (baseURI q2)
                                     (removelast (tokens q2))), s5), added.
  split; [|split; [|split]].
  - rewrite Parse_S.
    rewrite (bind_inr _ _ _ _ _ H1), (bind_inr _ _ _ _ _ H2), (bind_inr _ _ _ _ _ H3).
    rewrite Hitems.
    apply bind_inl. rewrite (bind_inr (Push "items") _ _ _ tt eq_refl).
    by apply bind_inl.
  - simpl. by rewrite Hreg.
  - by rewrite Hreg, Hadd, Hreg1.
  - done.
Qed.

(** X7. With an object under [items], the node holds one index, the one
    just below its own, and that index is the node registered under the
    pointer of the parent extended by [items], on the parent's base URI. *)
Theorem Parse_items_object fuel input items p p' idx :
  mapIndex "items" input = Some (VMap items) ->
  Parse fuel input p = (p', inr idx) ->
  exists u s c,
    p_registry p' !! idx = Some (u, s) /\
    Items s = mkSchemaItems true true [idx - 1] /\
    0 < idx /\
    p_registry p' !! (idx - 1)
    = Some (withFragment (baseURI p') (Ptr_String (tokens p ++ ["items"])), c).
Proof.
  intros Hitems H. destruct fuel as [|fuel]; [by inversion H|].
  apply Parse_inv in H
    as (p1 & s1 & s2 & s3 & p4 & s4 & H1 & _ & _ & H4 & -> & ->).
  apply parseID_inv in H1 as (_ & Htok1 & _).
  rewrite Hitems in H4.
  apply bind_inv in H4 as [(q1 & [] & Hpush & H4)|(e & _ & He)]; [|by inversion He].
  inversion Hpush; subst q1; clear Hpush.
  apply bind_inv in H4 as [(q2 & sub & Hsub & H4)|(e & _ & He)]; [|by inversion He].
  apply bind_inv in H4 as [(q3 & [] & Hpop & H4)|(e & _ & He)]; [|by inversion He].
  inversion Hpop; subst q3; clear Hpop. inversion H4; subst p4 s4; clear H4.
  apply Parse_child_key in Hsub as (_ & Hbase & [_ Hlen] & [added Hadd] & c & Hc);
    [|by destruct (tokens p1)].
  simpl in *.
  eexists _, _, c. split; [by apply list_lookup_middle|].
  rewrite <- Hlen. simpl. rewrite Nat.sub_0_r. split; [done|]. split; [lia|].
  rewrite lookup_app_l by lia. by rewrite Hc, Hbase, Htok1.
Qed.

Lemma parseItemsList_keys fuel items :
  forall i s p p' s',
    parseItemsList (Parse fuel) i items s p = (p', inr s') ->
    i + length items <= length (Schemas (Items s)) ->
    tokens p' = tokens p /\ baseURI p' = baseURI p /\
    (exists added, p_registry p' = p_registry p ++ added) /\
    (ID s' = ID s /\ Ref s' = Ref s /\ Type_ s' = Type_ s /\
     iIsSet (Items s') = iIsSet (Items s) /\
     iIsSingle (Items s') = iIsSingle (Items s) /\
     length (Schemas (Items s')) = length (Schemas (Items s))) /\
    Forall (fun item => exists fields, item = VMap fields) items /\
    (forall k, k < i -> Schemas (Items s') !! k = Schemas (Items s) !! k) /\
    (forall k, i <= k < i + length items ->
       exists sub c,
         Schemas (Items s') !! k = Some sub /\
         p_registry p' !! sub
         = Some (withFragment (baseURI p) (Ptr_String (tokens p ++ [FormatInt k])), c)).
Proof.
  induction items as [|item rest IH]; intros i s p p' s' H Hlen.
  - inversion H; subst. repeat split; try done.
    + by exists []; rewrite app_nil_r.
    + simpl. intros k Hk. lia.
  - simpl in H, Hlen.
    apply bind_inv in H as [(q1 & [] & Hpush & H)|(e & _ & He)]; [|by inversion He].
    inversion Hpush; subst q1; clear Hpush.
    destruct item as [| | | | |fields|]; try (by inversion H).
    apply bind_inv in H as [(q2 & sub & Hsub & H)|(e & _ & He)]; [|by inversion He].
    apply bind_inv in H as [(q3 & [] & Hpop & H)|(e & _ & He)]; [|by inversion He].
    inversion Hpop; subst q3; clear Hpop.
    apply Parse_child_key in Hsub
      as (Htok & Hbase & [_ Hsublen] & [added Hadd] & c & Hc);
      [|by destruct (tokens p)].
    simpl in Htok, Hbase, Hadd, Hc.
    apply IH in H as (Htok' & Hbase' & [added' Hadd'] & Hs & Hall & Hlow & Hkeys);
      [|simpl; rewrite length_insert; lia].
    simpl in Htok', Hbase', Hadd', Hs, Hlow, Hkeys.
    rewrite Htok, removelast_snoc in Htok', Hkeys.
    rewrite Hbase in Hbase', Hkeys.
    rewrite length_insert in Hs.
    repeat split; try (by intuition).
    + exists (added ++ added'). by rewrite Hadd', Hadd, app_assoc.
    + constructor; [by eexists|done].
    + intros k Hk. rewrite Hlow by lia. apply list_lookup_insert_ne. lia.
    + intros k Hk. destruct (decide (k = i)) as [->|Hne].
      * exists sub, c. split.
        -- rewrite Hlow by lia. apply list_lookup_insert_eq. lia.
        -- rewrite Hadd'. rewrite lookup_app_l by lia. done.
      * simpl in Hk. apply Hkeys. lia.
Qed.

(** X8. With an array under [items], every element has to be an object, and
    the node holds one index for each of them, in the order of the array:
    the [k]-th is the node registered under the pointer of the parent
    extended by [items] and [k] in decimal, on the parent's base URI. *)
Theorem Parse_items_array fuel input items p p' idx :
  mapIndex "items" input = Some (VArray items) ->
  Parse fuel input p = (p', inr idx) ->
  Forall (fun item => exists fields, item = VMap fields) items /\
  exists u s,
    p_registry p' !! idx = Some (u, s) /\
    iIsSet (Items s) = true /\ iIsSingle (Items s) = false /\
    length (Schemas (Items s)) = length items /\
    forall k, k < length items ->
      exists sub c,
        Schemas (Items s) !! k = Some sub /\ sub < idx /\
        p_registry p' !! sub
        = Some (withFragment (baseURI p')
                  (Ptr_String (tokens p ++ ["items"; FormatInt k])), c).
Proof.
  intros Hitems H. destruct fuel as [|fuel]; [by inversion H|].
  apply Parse_inv in H
    as (p1 & s1 & s2 & s3 & p4 & s4 & H1 & _ & _ & H4 & -> & ->).
  apply parseID_inv in H1 as (_ & Htok1 & _).
  rewrite Hitems in H4.
  apply bind_inv in H4 as [(q1 & [] & Hpush & H4)|(e & _ & He)]; [|by inversion He].
  inversion Hpush; subst q1; clear Hpush.
  apply bind_inv in H4 as [(q2 & s5 & Hl & H4)|(e & _ & He)]; [|by inversion He].
  apply bind_inv in H4 as [(q3 & [] & Hpop & H4)|(e & _ & He)]; [|by inversion He].
  inversion Hpop; subst q3; clear Hpop. inversion H4; subst p4 s4; clear H4.
  apply parseItemsList_keys in Hl
    as (_ & Hbase & _ & (_ & _ & _ & Hset & Hsingle & Hlen) & Hall & _ & Hkeys);
    [|simpl; by rewrite length_replicate].
  simpl in *. rewrite length_replicate in Hlen.
  split; [done|]. eexists _, _. split; [by apply list_lookup_middle|].
  repeat (split; [done|]).
  intros k Hk. destruct (Hkeys k ltac:(lia)) as (sub & c & Hsub & Hc).
  exists sub, c. split; [done|].
  pose proof (lookup_lt_Some _ _ _ Hc) as Hlt. split; [done|].
  rewrite lookup_app_l by done.
  by rewrite Hc, Hbase, Htok1, <- app_assoc.
Qed.

(** X9. What [parseRootSchema] returns on success is the last node of the
    registry, registered under its own [ID] with the pointer of no tokens
    as fragment; the [ID] is the URL of the document's [$id], the zero URL
    without one. *)
Theorem parseRootSchema_returns_root fuel (r r' : registry) input o :
  parseRootSchema fuel r input = (r', inr o) ->
  exists s,
    o = Some s /\
    last r' = Some (withFragment (ID s) (Ptr_String []), s) /\
    ID s = match mapIndex "$id" input with
           | Some (VString idStr) => default URL_zero (url_Parse idStr)
           | _ => URL_zero
           end.
Proof.
  unfold parseRootSchema, parseSubSchema.
  destruct (Parse fuel input (mkParser r URL_zero [])) as [p' [e|idx]] eqn:H;
    intros Heq; inversion Heq; subst; clear Heq.
  destruct (Parse_node _ _ _ _ _ H) as (p1 & s1 & s2 & s & H1 & _ & Hget & HID & _).
  pose proof (Parse_base _ _ _ _ _ H) as Hbase. rewrite H1 in Hbase. simpl in Hbase.
  destruct (Parse_last_key _ _ _ _ _ H) as [s' Hkey].
  destruct (Parse_keeps fuel input _ _ _ H) as [Htok _].
  specialize (Htok idx eq_refl). simpl in Htok.
  destruct (Parse_grows fuel input _ _ _ (length r) H (le_n _)
              (childrenBefore_nil _ _ (le_n _))) as (_ & _ & Hidx).
  destruct (Hidx idx eq_refl) as [_ Hlen].
  unfold GetIndex in Hget. rewrite Hkey in Hget. simpl in Hget.
  inversion Hget; subst s'; clear Hget.
  assert (baseURI p1 = ID s1 /\
          ID s1 = match mapIndex "$id" input with
                  | Some (VString idStr) => default URL_zero (url_Parse idStr)
                  | _ => URL_zero
                  end) as [Hb1 Hid1].
  { unfold parseID in H1. simpl in H1.
    destruct (mapIndex "$id" input) as [[| | |idStr| | |]|];
      try (by inversion H1).
    destruct (url_Parse idStr); by inversion H1. }
  exists s. split; [unfold GetIndex; by rewrite Hkey|]. split; [|by rewrite HID].
  rewrite last_lookup, <- Hlen. simpl. rewrite Hkey. unfold URI.
  by rewrite Htok, Hbase, Hb1, HID.
Qed.

Lemma fuelRefines_refl {A} (m : M A) : fuelRefines m m.
Proof. by intros p p' res H _. Qed.

Lemma fuelRefines_bind {A B} (m m' : M A) (k k' : A -> M B) :
  fuelRefines m m' -> (forall a, fuelRefines (k a) (k' a)) ->
  fuelRefines (bind m k) (bind m' k').
Proof.
  intros Hm Hk p p' res H Hres. unfold bind in *.
  destruct (m p) as [p1 [e|a]] eqn:E.
  - inversion H; subst. rewrite (Hm p p' (inl e) E); [done|].
    intros Heq. apply Hres. by inversion Heq.
  - rewrite (Hm p p1 (inr a) E) by done. by apply Hk.
Qed.

Lemma parseItemsList_fuelRefines rec rec' :
  (forall item, fuelRefines (rec item) (rec' item)) ->
  forall items i s,
    fuelRefines (parseItemsList rec i items s) (parseItemsList rec' i items s).
Proof.
  intros Hrec. induction items as [|item rest IH]; intros i s;
    [apply fuelRefines_refl|].
  simpl. apply fuelRefines_bind; [apply fuelRefines_refl|]. intros _.
  destruct item as [| | | | |item|]; try apply fuelRefines_refl.
  apply fuelRefines_bind; [apply Hrec|]. intros sub.
  apply fuelRefines_bind; [apply fuelRefines_refl|]. intros _. apply IH.
Qed.

Lemma Parse_fuel_S fuel :
  forall input, fuelRefines (Parse fuel input) (Parse (S fuel) input).
Proof.
  induction fuel as [|fuel IH]; intros input.
  { intros p p' res H Hres. by inversion H; subst. }
  rewrite (Parse_S (S fuel)), (Parse_S fuel).
  apply fuelRefines_bind; [apply fuelRefines_refl|]. intros s1.
  apply fuelRefines_bind; [apply fuelRefines_refl|]. intros s2.
  apply fuelRefines_bind; [apply fuelRefines_refl|]. intros s3.
  apply fuelRefines_bind; [|intros s4; apply fuelRefines_refl].
  destruct (mapIndex "items" input) as [[| | | |items|items|]|];
    try apply fuelRefines_refl.
  - apply fuelRefines_bind; [apply fuelRefines_refl|]. intros _.
    apply fuelRefines_bind; [|intros s4; apply fuelRefines_refl].
    by apply parseItemsList_fuelRefines.
  - apply fuelRefines_bind; [apply fuelRefines_refl|]. intros _.
    apply fuelRefines_bind; [apply IH|]. intros sub. apply fuelRefines_refl.
Qed.

Lemma Parse_fuel_le fuel fuel' input :
  fuel <= fuel' -> fuelRefines (Parse fuel input) (Parse fuel' input).
Proof.
  induction 1 as [|fuel' Hle IH]; [apply fuelRefines_refl|].
  intros p p' res H Hres. apply Parse_fuel_S; [|done]. by apply IH.
Qed.

(** X10. The recursion of [Parse] is no deeper than the nesting of the
    document: run with any two bounds above the nesting depth it gives the
    same result, and this result is not the bound being hit. *)
Theorem Parse_depth_bounded fuel fuel' input p :
  depthFields input < fuel -> depthFields input < fuel' ->
  Parse fuel input p = Parse fuel' input p /\
  (Parse fuel input p).2 <> inl errFuel.
Proof.
  intros Hd Hd'. pose proof (Parse_total fuel input Hd p) as Hno.
  split; [|done].
  pose proof (Parse_total (S (depthFields input)) input (Nat.lt_succ_diag_r _) p) as Hmin.
  destruct (Parse (S (depthFields input)) input p) as [p' res] eqn:E.
  simpl in Hmin.
  rewrite (Parse_fuel_le _ fuel input Hd p p' res E Hmin).
  by rewrite (Parse_fuel_le _ fuel' input Hd' p p' res E Hmin).
Qed.

(** X23. The node of an object with [$ref] holds the reference resolved
    against the base URI as the [$id] block of the same object left it,
    the same URI without its fragment, and the tokens of the fragment; the
    index of the target is left at zero.  Without [$ref] the reference is
    not set. *)
Theorem Parse_ref_resolved fuel input p p' idx :
  Parse fuel input p = (p', inr idx) ->
  exists u s,
    p_registry p' !! idx = Some (u, s) /\
    match mapIndex "$ref" input with
    | None => Ref s = schemaRef_zero
    | Some refValue =>
        exists refStr uri ptr,
          refValue = VString refStr /\
          URL_Parse (baseURI p') refStr = Some uri /\
          jsonpointer_New (Fragment uri) = Some ptr /\
          Ref s = mkSchemaRef true 0 uri (withFragment uri EmptyString) ptr
    end.
Proof.
  intros H.
  destruct (Parse_node _ _ _ _ _ H) as (p1 & s1 & s2 & s & H1 & H2 & Hget & _ & HRef).
  pose proof (Parse_base _ _ _ _ _ H) as Hbase. rewrite H1 in Hbase. simpl in Hbase.
  destruct (Parse_last_key _ _ _ _ _ H) as [s' Hkey].
  unfold GetIndex in Hget. rewrite Hkey in Hget. simpl in Hget.
  inversion Hget; subst s'; clear Hget.
  apply parseID_inv in H1 as (_ & _ & _ & Hs1).
  destruct (Hs1 s1 eq_refl) as (_ & HRef1 & _).
  exists (URI p'), s. split; [done|]. rewrite HRef, Hbase.
  unfold parseRef in H2.
  destruct (mapIndex "$ref" input) as [[| | |refStr| | |]|]; try (by inversion H2).
  - destruct (URL_Parse (baseURI p1) refStr) as [uri|] eqn:Eu; [|by inversion H2].
    destruct (jsonpointer_New (Fragment uri)) as [ptr|] eqn:Ep; [|by inversion H2].
    inversion H2; subst s2. exists refStr, uri, ptr. simpl. by rewrite HRef1.
  - inversion H2; subst s2. by rewrite HRef1.
Qed.

End ParserMore.

Lemma Parse_reads_four_keywords_witness :
  let root := mkParser [] URL_zero [] in
  mapIndex "pattern" docWithPattern <> mapIndex "pattern" [("type", VString "null")] /\
  Parse 1 docWithPattern root = Parse 1 [("type", VString "null")] root.
Proof.
  split; [discriminate|].
  apply (Parse_reads_four_keywords 1 [("type", VString "null")] docWithPattern);
    reflexivity.
Defined.

Lemma Parse_restores_token_stack_witness :
  let p := mkParser [] (mkURL "http" "example.com" "/root" EmptyString) ["items"] in
  (Parse 2 nestedWithID p).2 = inr 0 /\
  tokens (Parse 2 nestedWithID p).1 = ["items"].
Proof.
  split; [vm_compute; reflexivity|].
  apply (Parse_restores_token_stack 2 nestedWithID
           (mkParser [] (mkURL "http" "example.com" "/root" EmptyString) ["items"])
           _ 0).
  vm_compute. reflexivity.
Defined.

Lemma Parse_no_rollback_witness :
  let root := mkParser [] URL_zero [] in
  exists p' node added,
    Parse 2 docBadTuple root = (p', inl schemaNotObject) /\
    p_registry (Parse 2 [("items", VArray [VMap []])] root).1
    = p_registry p' ++ [node] /\
    p_registry p' = [] ++ added /\
    length [[] : list (string * value)] <= length added.
Proof.
  apply (Parse_no_rollback 2 docBadTuple [("items", VArray [VMap []])]
           [[]] (VString "foo") [] (mkParser [] URL_zero []) _ 1);
    try reflexivity.
  discriminate.
Defined.

Lemma Parse_registers_under_pointer_witness :
  let p := mkParser [] (mkURL "http" "example.com" "/root" EmptyString) ["items"] in
  exists s,
    p_registry (Parse 2 nestedWithID p).1 !! 0
    = Some (withFragment (baseURI (Parse 2 nestedWithID p).1)
              (Ptr_String ["items"]), s).
Proof.
  apply (Parse_registers_under_pointer 2 nestedWithID
           (mkParser [] (mkURL "http" "example.com" "/root" EmptyString) ["items"])
           _ 0).
  vm_compute. reflexivity.
Defined.

Lemma Parse_items_object_witness :
  let run := Parse 3 docNestedID (mkParser [] URL_zero []) in
  exists u s c,
    p_registry run.1 !! 1 = Some (u, s) /\
    Items s = mkSchemaItems true true [1 - 1] /\
    0 < 1 /\
    p_registry run.1 !! (1 - 1)
    = Some (withFragment (baseURI run.1) (Ptr_String ([] ++ ["items"])), c).
Proof.
  apply (Parse_items_object 3 docNestedID nestedWithID (mkParser [] URL_zero []) _ 1).
  - reflexivity.
  - vm_compute. reflexivity.
Defined.

Lemma Parse_items_array_witness :
  let run := Parse 3 docMissingRefs (mkParser [] URL_zero []) in
  (Schemas ∘ Items ∘ snd) <$> p_registry run.1 !! 3 = Some [0; 1; 2] /\
  fst <$> p_registry run.1 !! 2
  = Some (withFragment (baseURI run.1) (Ptr_String ["items"; "2"])).
Proof.
  split; [vm_compute; reflexivity|].
  assert (Parse 3 docMissingRefs (mkParser [] URL_zero [])
          = ((Parse 3 docMissingRefs (mkParser [] URL_zero [])).1, inr 3)) as Hrun
    by (vm_compute; reflexivity).
  destruct (Parse_items_array 3 docMissingRefs _ _ _ 3 eq_refl Hrun)
    as (_ & u & s & Hs & _ & _ & _ & Hk).
  destruct (Hk 2 ltac:(simpl; lia)) as (sub & c & Hsub & _ & Hc).
  assert (sub = 2) as ->; [|by rewrite Hc].
  assert (Schemas (Items s) = [0; 1; 2]) as Heq; [|rewrite Heq in Hsub; by inversion Hsub].
  assert (p_registry (Parse 3 docMissingRefs (mkParser [] URL_zero [])).1 !! 3
          = Some (URL_zero,
                  mkSchema URL_zero
                    (mkSchemaRef true 0 (mkURL "http" "example.com" "/1" EmptyString)
                       (mkURL "http" "example.com" "/1" EmptyString) [])
                    schemaType_zero (mkSchemaItems true false [0; 1; 2]))) as Hreg
    by (vm_compute; reflexivity).
  rewrite Hreg in Hs. by inversion Hs.
Defined.

Lemma parseRootSchema_returns_root_witness :
  exists s,
    (parseRootSchema 3 [] docNestedID).2 = inr (Some s) /\
    ID s = mkURL "http" "example.com" "/root" EmptyString.
Proof.
  assert (parseRootSchema 3 [] docNestedID
          = ((parseRootSchema 3 [] docNestedID).1,
             inr (Some (mkSchema (mkURL "http" "example.com" "/root" EmptyString)
                          schemaRef_zero schemaType_zero
                          (mkSchemaItems true true [0]))))) as Hrun
    by (vm_compute; reflexivity).
  destruct (parseRootSchema_returns_root 3 [] _ docNestedID _ Hrun)
    as (s & Ho & _ & Hid).
  exists s. split; [|by rewrite Hid]. rewrite Hrun. simpl. by rewrite Ho.
Defined.

Lemma Parse_ref_resolved_witness :
  let run := Parse 3 docNestedID (mkParser [] URL_zero []) in
  exists u s,
    p_registry run.1 !! 0 = Some (u, s) /\
    rURI (Ref s) = mkURL "http" "example.com" "/root" EmptyString.
Proof.
  assert (Parse 2 nestedWithID
            (mkParser [] (mkURL "http" "example.com" "/root" EmptyString) ["items"])
          = ((Parse 2 nestedWithID
                (mkParser [] (mkURL "http" "example.com" "/root" EmptyString)
                   ["items"])).1, inr 0)) as Hrun by (vm_compute; reflexivity).
  destruct (Parse_ref_resolved 2 nestedWithID _ _ 0 Hrun) as (u & s & Hs & Href).
  assert (p_registry (Parse 3 docNestedID (mkParser [] URL_zero [])).1 !! 0
          = p_registry
              (Parse 2 nestedWithID
                 (mkParser [] (mkURL "http" "example.com" "/root" EmptyString)
                    ["items"])).1 !! 0) as Hsame by (vm_compute; reflexivity).
  exists u, s. cbv zeta. rewrite Hsame. split; [done|].
  destruct Href as (refStr & uri & ptr & Hstr & Huri & _ & ->).
  simpl. inversion Hstr; subst refStr.
  assert (URL_Parse
            (baseURI (Parse 2 nestedWithID
                        (mkParser [] (mkURL "http" "example.com" "/root" EmptyString)
                           ["items"])).1) "#"
          = Some (mkURL "http" "example.com" "/root" EmptyString)) as Hu
    by (vm_compute; reflexivity).
  rewrite Hu in Huri. by inversion Huri.
Defined.

Lemma Parse_depth_bounded_witness :
  let root := mkParser [] URL_zero [] in
  depthFields docMissingRefs = 2 /\
  Parse 3 docMissingRefs root = Parse 10 docMissingRefs root /\
  (Parse 3 docMissingRefs root).2 <> inl errFuel.
Proof.
  split; [reflexivity|].
  apply (Parse_depth_bounded 3 10 docMissingRefs (mkParser [] URL_zero []));
    vm_compute; lia.
Defined.

(* ===================================================================== *)
(** ** More on the executor with [items] *)
(* ===================================================================== *)

Section VM2More.
Import Vm VM2.

Lemma checks_ret J : checks J true (ret tt).
Proof.
  intros v s Hs. exists v, (inr tt), []. repeat split; try done.
  by rewrite app_nil_r.
Qed.

Lemma checks_fail V e : checks false V (fail e).
Proof.
  intros v s Hs. exists v, (inl e), []. repeat split; try done.
  by rewrite app_nil_r.
Qed.

Lemma checks_weaken J J' V V' m :
  (J' = true -> J = true) -> V = V' -> checks J V m -> checks J' V' m.
Proof.
  intros HJ <- Hm v s Hs.
  destruct (Hm v s Hs) as (v' & res & new & H1 & H2 & H3 & H4 & H5 & H6).
  exists v', res, new. repeat (split; [done|]). intros HJ'. by apply H6, HJ.
Qed.

Lemma rootedAt_weaken inst inst' s s' e :
  id s = id s' -> inst `prefix_of` inst' -> tokens s `prefix_of` tokens s' ->
  rootedAt inst' s' e -> rootedAt inst s e.
Proof.
  intros Hid Hi Ht (Hu & Hpi & Hpt). split; [congruence|].
  split; by etrans.
Qed.

Lemma checks_bind J V1 V2 m k :
  checks J V1 m -> checks J V2 k -> checks J (V1 && V2) (do_ m; k).
Proof.
  intros Hm Hk v s Hs.
  destruct (Hm v s Hs) as (v1 & r1 & new1 & H1 & Hreg1 & Herr1 & Hroot1 & Hst1 & HJ1).
  destruct r1 as [e|[]].
  - exists v1, (inl e), new1. unfold bind. rewrite H1. repeat (split; [done|]).
    intros HJ. by destruct (HJ1 HJ).
  - specialize (Hst1 eq_refl).
    destruct (Hk v1 s) as (v2 & r2 & new2 & H2 & Hreg2 & Herr2 & Hroot2 & Hst2 & HJ2);
      [by rewrite Hst1|].
    exists v2, r2, (new1 ++ new2). unfold bind. rewrite H1. split; [done|].
    split; [congruence|]. split; [by rewrite Herr2, Herr1, app_assoc|].
    split; [apply Forall_app; split; [done|by rewrite <- Hst1]|].
    split; [intros Hr; by rewrite (Hst2 Hr)|].
    intros HJ. destruct (HJ1 HJ) as [_ Hv1]. destruct (HJ2 HJ) as [Hr2 Hv2].
    split; [done|]. rewrite andb_true_iff, <- Hv1, <- Hv2. split.
    + intros Happ. by apply app_eq_nil in Happ.
    + by intros [-> ->].
Qed.

Lemma checks_reportError J : checks J false reportError.
Proof.
  intros v s Hs. unfold reportError. rewrite Hs.
  eexists _, (inr tt), [_]. split; [reflexivity|]. repeat split; try done.
  constructor; [|done]. by split.
Qed.

(** Pushing a schema token, running [m], and popping. *)
Lemma checks_schemaToken J V token m :
  checks J V m -> checks J V (do_ pushSchemaToken token; do_ m; popSchemaToken).
Proof.
  intros Hm v s Hs.
  assert (schemas (stack_ v) <> []) as Hne by (intros E; by rewrite E in Hs).
  pose (s1 := mkSchemaStack (id s) (tokens s ++ [token])).
  pose (v1 := setStack v (mkStack (instance (stack_ v))
                            (<[length (schemas (stack_ v)) - 1 := s1]>
                               (schemas (stack_ v))))).
  assert (pushSchemaToken token v = (v1, inr tt)) as Hpush
    by (unfold pushSchemaToken; by rewrite Hs).
  destruct (Hm v1 s1) as (v2 & r2 & new & H2 & Hreg & Herr & Hroot & Hst & HJ).
  { simpl. by apply last_insert_last. }
  assert (Forall (rootedAt (instance (stack_ v)) s) new) as Hroot'.
  { eapply Forall_impl; [exact Hroot|]. intros e. simpl.
    apply rootedAt_weaken; [done|done|]. simpl. by apply prefix_app_r. }
  unfold bind. rewrite Hpush, H2.
  destruct r2 as [e|[]].
  - exists v2, (inl e), new. repeat (split; [done|]).
    intros HJ'. by destruct (HJ HJ').
  - specialize (Hst eq_refl). simpl in Hst.
    unfold popSchemaToken. rewrite Hst. cbn [schemas instance].
    rewrite (last_insert_last _ _ Hne). unfold s1. cbn [tokens id].
    destruct (tokens s ++ [token]) as [|t0 ts] eqn:E;
      [by destruct (tokens s); inversion E|].
    rewrite <- E, removelast_snoc, schemaStack_eta, insert_last_twice.
    rewrite (insert_last_id _ _ Hs).
    eexists _, (inr tt), new. split; [reflexivity|]. repeat (split; [done|]).
    split; [intros _; simpl; by destruct (stack_ v)|].
    intros HJ'. by destruct (HJ HJ').
Qed.

Lemma checks_typeError J : checks J false typeError.
Proof.
  apply (checks_weaken J J (false && true) false); [done|done|].
  unfold typeError. apply checks_schemaToken.
  apply (checks_weaken J J (false && true) false); [done|done|].
  apply checks_reportError.
Qed.

Lemma checks_typeCheck J (b : bool) :
  checks J (negb b) (if b then typeError else ret tt).
Proof. destruct b; [apply checks_typeError|apply checks_ret]. Qed.

Lemma checks_itemStep J V rec i elem :
  checks J V (rec elem) -> checks J V (itemStep rec i elem).
Proof.
  intros Hrec v s Hs. unfold itemStep.
  pose (v1 := setStack v (mkStack (instance (stack_ v) ++ [FormatInt i])
                            (schemas (stack_ v)))).
  destruct (Hrec v1 s Hs) as (v2 & r2 & new & H2 & Hreg & Herr & Hroot & Hst & HJ).
  assert (Forall (rootedAt (instance (stack_ v)) s) new) as Hroot'.
  { eapply Forall_impl; [exact Hroot|]. intros e. simpl.
    apply rootedAt_weaken; [done| |done]. by apply prefix_app_r. }
  unfold bind, pushInstanceToken. fold v1. rewrite H2.
  destruct r2 as [e|[]].
  - exists v2, (inl e), new. repeat (split; [done|]).
    intros HJ'. by destruct (HJ HJ').
  - specialize (Hst eq_refl). simpl in Hst.
    unfold popInstanceToken. rewrite Hst. cbn [schemas instance].
    destruct (instance (stack_ v) ++ [FormatInt i]) as [|t0 ts] eqn:E;
      [by destruct (instance (stack_ v)); inversion E|].
    rewrite <- E, removelast_snoc.
    eexists _, (inr tt), new. split; [reflexivity|]. repeat (split; [done|]).
    split; [intros _; simpl; by destruct (stack_ v)|].
    intros HJ'. by destruct (HJ HJ').
Qed.

Lemma checks_tupleStep J V rec i elem :
  checks J V (rec elem) -> checks J V (tupleStep rec i elem).
Proof.
  intros Hrec v s Hs. unfold tupleStep.
  assert (schemas (stack_ v) <> []) as Hne by (intros E; by rewrite E in Hs).
  pose (s1 := mkSchemaStack (id s) (tokens s ++ [FormatInt i])).
  pose (v1 := setStack v (mkStack (instance (stack_ v) ++ [FormatInt i])
                            (schemas (stack_ v)))).
  pose (v2 := setStack v1 (mkStack (instance (stack_ v) ++ [FormatInt i])
                             (<[length (schemas (stack_ v)) - 1 := s1]>
                                (schemas (stack_ v))))).
  assert (pushSchemaToken (FormatInt i) v1 = (v2, inr tt)) as Hpush
    by (unfold pushSchemaToken; simpl; by rewrite Hs).
  destruct (Hrec v2 s1) as (v3 & r3 & new & H3 & Hreg & Herr & Hroot & Hst & HJ).
  { simpl. by apply last_insert_last. }
  assert (Forall (rootedAt (instance (stack_ v)) s) new) as Hroot'.
  { eapply Forall_impl; [exact Hroot|]. intros e. simpl.
    apply rootedAt_weaken; [done| |]; simpl; by apply prefix_app_r. }
  unfold bind at 1. unfold pushInstanceToken. fold v1.
  unfold bind at 1. rewrite Hpush. unfold bind at 1. rewrite H3.
  destruct r3 as [e|[]].
  - exists v3, (inl e), new. repeat (split; [done|]).
    intros HJ'. by destruct (HJ HJ').
  - specialize (Hst eq_refl). simpl in Hst.
    unfold bind, popInstanceToken. rewrite Hst. cbn [schemas instance].
    destruct (instance (stack_ v) ++ [FormatInt i]) as [|t0 ts] eqn:E;
      [by destruct (instance (stack_ v)); inversion E|].
    rewrite <- E, removelast_snoc.
    unfold popSchemaToken. cbn [stack_ setStack schemas instance].
    rewrite (last_insert_last _ _ Hne). unfold s1. cbn [tokens id].
    destruct (tokens s ++ [FormatInt i]) as [|t1 ts1] eqn:E1;
      [by destruct (tokens s); inversion E1|].
    rewrite <- E1, removelast_snoc, schemaStack_eta, insert_last_twice.
    rewrite (insert_last_id _ _ Hs).
    eexists _, (inr tt), new. split; [reflexivity|]. repeat (split; [done|]).
    split; [intros _; simpl; by destruct (stack_ v)|].
    intros HJ'. by destruct (HJ HJ').
Qed.

Lemma checks_itemsLoop rec (ok : value -> bool) :
  (forall elem, checks (isJSON elem) (ok elem) (rec elem)) ->
  forall val i, checks (forallb isJSON val) (forallb ok val) (itemsLoop rec i val).
Proof.
  intros Hrec. induction val as [|elem rest IH]; intros i; [apply checks_ret|].
  simpl. apply checks_bind.
  - apply checks_itemStep.
    apply (checks_weaken (isJSON elem) _ (ok elem) _); [|done|apply Hrec].
    intros HJ. by apply andb_true_iff in HJ as [-> _].
  - apply (checks_weaken (forallb isJSON rest) _ (forallb ok rest) _); [|done|apply IH].
    intros HJ. by apply andb_true_iff in HJ as [_ ->].
Qed.

Lemma checks_tupleLoop subs :
  Forall (fun sub => forall elem,
            checks (isJSON elem) (valid sub elem) (execSchema sub elem)) subs ->
  forall val i,
    checks (forallb isJSON val) (allPairs (map valid subs) val)
      (tupleLoop i (map execSchema subs) val).
Proof.
  induction 1 as [|sub subs Hsub _ IH]; intros val i.
  { apply (checks_weaken true _ true _); [done|by destruct val|apply checks_ret]. }
  destruct val as [|elem rest].
  { apply (checks_weaken true _ true _); [done|done|apply checks_ret]. }
  simpl. apply checks_bind.
  - apply checks_tupleStep.
    apply (checks_weaken (isJSON elem) _ (valid sub elem) _); [|done|apply Hsub].
    intros HJ. by apply andb_true_iff in HJ as [-> _].
  - apply (checks_weaken (forallb isJSON rest) _
             (allPairs (map valid subs) rest) _); [|done|apply IH].
    intros HJ. by apply andb_true_iff in HJ as [_ ->].
Qed.

Lemma checks_execSchema schema :
  forall inst, checks (isJSON inst) (valid schema inst) (execSchema schema inst).
Proof.
  assert (forall ty inst,
            (forall val, inst <> VArray val) -> (forall n, inst <> VInt n) ->
            checks (isJSON inst) (typeValid ty inst)
              match inst with
              | VNil => if typeMismatch ty jsonTypeNull then typeError else ret tt
              | VBool _ => if typeMismatch ty jsonTypeBoolean then typeError else ret tt
              | VFloat val =>
                  match ty with
                  | Some ty =>
                      if negb (if contains ty jsonTypeInteger
                               then Float.eq val (Float.Round val) else false)
                         && negb (contains ty jsonTypeNumber)
                      then typeError else ret tt
                  | None => ret tt
                  end
              | VString _ => if typeMismatch ty jsonTypeString then typeError else ret tt
              | VMap _ => if typeMismatch ty jsonTypeObject then typeError else ret tt
              | _ => ret tt
              end) as Hscalar.
  { intros ty inst Harr Hint.
    destruct inst as [|b|val|str|elems|fields|n];
      try (by destruct (Harr elems)); try (by destruct (Hint n));
      try (eapply checks_weaken; [| |apply checks_typeCheck]; [done|];
           destruct ty as [ty|]; simpl; [by rewrite negb_involutive|done]).
    destruct ty as [ty|]; [|apply checks_ret].
    eapply checks_weaken; [| |apply checks_typeCheck]; [done|]. simpl.
    destruct (contains ty jsonTypeInteger), (contains ty jsonTypeNumber),
      (Float.eq val (Float.Round val)); done. }
  assert (forall ty val,
            checks (forallb isJSON val) (typeValid ty (VArray val))
              (if typeMismatch ty jsonTypeArray then typeError else ret tt)) as Harray.
  { intros ty val. eapply checks_weaken; [| |apply checks_typeCheck]; [done|].
    destruct ty as [ty|]; simpl; [by rewrite negb_involutive|done]. }
  induction schema as [ty|ty b single subs IHsingle IHsubs] using Schema_nested_ind;
    intros inst; cbn [execSchema valid].
  - eapply checks_weaken; [| |apply checks_bind; [|apply (checks_ret (isJSON inst))]];
      [done|apply andb_true_r|].
    destruct inst as [|b|val|str|elems|fields|n];
      try (match goal with
           | |- checks (isJSON ?i) _ _ =>
               eapply checks_weaken; [| |by apply (Hscalar ty i)]; [done|];
               by rewrite andb_true_r
           end).
    + eapply checks_weaken; [| |apply checks_bind; [apply Harray|apply checks_ret]];
        [done|]. done.
    + apply checks_fail.
  - eapply checks_weaken; [| |apply checks_bind; [|apply (checks_ret (isJSON inst))]];
      [done|apply andb_true_r|].
    destruct inst as [|b'|val|str|elems|fields|n];
      try (match goal with
           | |- checks (isJSON ?i) _ _ =>
               eapply checks_weaken; [| |by apply (Hscalar ty i)]; [done|];
               by rewrite andb_true_r
           end).
    + apply checks_bind; [apply Harray|].
      destruct b.
      * apply checks_schemaToken. by apply checks_itemsLoop.
      * apply checks_schemaToken. by apply checks_tupleLoop.
    + apply checks_fail.
Qed.

(** X11. Run on a JSON value with a schema on the stack, [execSchema] of
    the executor with [items] returns, leaves the stacks and the registry as
    they were, and records no error exactly when the value is valid: its
    type is admitted, and for an array so are its elements by the schemas
    under [items]. *)
Theorem execSchema_decides_validity schema inst (v : vm Schema) :
  schemas (stack_ v) <> [] ->
  isJSON inst = true ->
  exists v',
    execSchema schema inst v = (v', inr tt) /\
    stack_ v' = stack_ v /\ registry v' = registry v /\
    (errors v' = errors v <-> valid schema inst = true).
Proof.
  intros Hne HJ. destruct (last_is_Some _ Hne) as [s Hs].
  destruct (checks_execSchema schema inst v s Hs)
    as (v' & res & new & Hrun & Hreg & Herr & _ & Hst & Hval).
  destruct (Hval HJ) as [-> Hiff]. exists v'.
  split; [done|]. split; [by apply Hst|]. split; [done|].
  rewrite <- Hiff, Herr. split.
  - intros Heq. rewrite <- (app_nil_r (errors v)) in Heq at 2.
    by apply app_inv_head in Heq.
  - intros ->. by rewrite app_nil_r.
Qed.

(** X12. Whatever the instance, and also when the run ends in a panic,
    [execSchema] only appends to the errors, and every error it appends
    carries the id of the schema on top of the stack, an instance path that
    extends the instance path at the start and a schema path that extends
    the tokens at the start. *)
Theorem execSchema_errors_rooted schema inst (v : vm Schema) s :
  last (schemas (stack_ v)) = Some s ->
  exists new,
    errors (execSchema schema inst v).1 = errors v ++ new /\
    Forall (rootedAt (instance (stack_ v)) s) new.
Proof.
  intros Hs.
  destruct (checks_execSchema schema inst v s Hs)
    as (v' & res & new & Hrun & _ & Herr & Hroot & _).
  exists new. by rewrite Hrun.
Qed.

Section WithLib.
Context {L : Lib}.

(** X14. [exec] on a registered URI whose fragment is a pointer, and a JSON
    value: it returns, leaves on the schema stack the entry it pushed (the
    URI without its fragment, with the tokens of the fragment), appends
    errors that carry this URI and extend these tokens, and appends none
    exactly when the value is valid against the registered schema. *)
Theorem exec_validates uri inst (v : vm Schema) schema toks :
  registry v !! withFragment uri EmptyString = Some schema ->
  jsonpointer_New (Fragment uri) = Some toks ->
  isJSON inst = true ->
  let entry := mkSchemaStack (withFragment uri EmptyString) toks in
  exists v' new,
    exec uri inst v = (v', inr tt) /\
    registry v' = registry v /\
    stack_ v' = mkStack (instance (stack_ v)) (schemas (stack_ v) ++ [entry]) /\
    errors v' = errors v ++ new /\
    Forall (rootedAt (instance (stack_ v)) entry) new /\
    (new = [] <-> valid schema inst = true).
Proof.
  intros Hreg Hptr HJ entry. unfold exec. rewrite Hreg, Hptr.
  unfold bind, pushNewSchema.
  destruct (checks_execSchema schema inst
              (setStack v (mkStack (instance (stack_ v)) (schemas (stack_ v) ++ [entry])))
              entry)
    as (v' & res & new & Hrun & Hreg' & Herr & Hroot & Hst & Hval).
  { simpl. by rewrite last_snoc. }
  destruct (Hval HJ) as [-> Hiff].
  exists v', new. fold entry. rewrite Hrun. repeat (split; [done|]).
  split; [by apply Hst|]. done.
Qed.

End WithLib.

End VM2More.

Lemma execSchema_decides_validity_witness :
  exists v',
    VM2.execSchema tupleOfNull (VArray [VNil; VFloat 1]) vm2AtRoot = (v', inr tt) /\
    Vm.errors v' = Vm.errors vm2AtRoot.
Proof.
  destruct (execSchema_decides_validity tupleOfNull (VArray [VNil; VFloat 1]) vm2AtRoot)
    as (v' & Hrun & _ & _ & Hiff); [done|reflexivity|].
  exists v'. split; [done|]. by apply Hiff.
Defined.

Lemma execSchema_errors_rooted_witness :
  exists new,
    Vm.errors (VM2.execSchema itemsAllNull (VArray [VNil; VInt 1]) vm2AtRoot).1
    = [] ++ new /\
    Forall (rootedAt [] (Vm.mkSchemaStack URL_zero [])) new.
Proof.
  apply (execSchema_errors_rooted itemsAllNull (VArray [VNil; VInt 1]) vm2AtRoot).
  reflexivity.
Defined.

Lemma exec_validates_witness :
  exists v' new,
    VM2.exec URL_zero VNil vm2Start = (v', inr tt) /\
    Vm.registry v' = Vm.registry vm2Start /\
    Vm.stack_ v' = Vm.mkStack [] [Vm.mkSchemaStack URL_zero []] /\
    Vm.errors v' = [] ++ new /\
    Forall (rootedAt [] (Vm.mkSchemaStack URL_zero [])) new /\
    (new = [] <-> valid (VM2.mkSchema (Some typeNull) None) VNil = true).
Proof.
  apply (exec_validates URL_zero VNil vm2Start (VM2.mkSchema (Some typeNull) None) []);
    vm_compute; reflexivity.
Defined.

(* ===================================================================== *)
(** ** More on [IsValid] *)
(* ===================================================================== *)

Section ValidatorMore.
Import Validator.
Context {R : RegexpLib}.
Local Open Scope Q_scope.

(** X15. For a number, with no [multipleOf] and no [type]: [IsValid]
    returns, and returns [true] exactly when the number is at least the
    [minimum], above the [exclusiveMinimum], at most the [maximum] and
    below the [exclusiveMaximum], each where it is given.  The keywords for
    strings take no part. *)
Theorem IsValid_bounds (v : Validator) (x : Q) :
  IsTrivial (schema_ v) = false ->
  MultipleOf (Document_ (schema_ v)) = None ->
  Type_ (Document_ (schema_ v)) = None ->
  exists b,
    IsValid v (VFloat x) = Return b /\
    (b = true <->
     (forall m, Minimum (Document_ (schema_ v)) = Some m -> m <= x) /\
     (forall m, ExclusiveMinimum (Document_ (schema_ v)) = Some m -> m < x) /\
     (forall m, Maximum (Document_ (schema_ v)) = Some m -> x <= m) /\
     (forall m, ExclusiveMaximum (Document_ (schema_ v)) = Some m -> x < m)).
Proof.
  destruct v as [[triv tv [mn emn mx emx mo maxl minl pat ty]] eps].
  simpl. intros -> -> ->. unfold IsValid.
  assert (forall r : result,
            (if match maxl with Some _ | _ => false end then Return false else
             if match minl with Some _ | _ => false end then Return false else
             match match pat with Some _ | _ => @None result end with
             | Some r' => r'
             | None => r
             end) = r) as Hstr by (intros r; by destruct maxl, minl, pat).
  cbn [schema_ IsTrivial TrivialValue Document_ Minimum ExclusiveMinimum Maximum
         ExclusiveMaximum MultipleOf MaxLength MinLength Pattern Type_ Epsilon].
  rewrite Hstr. clear Hstr.
  destruct mn as [mn|];
    [destruct (Float.lt x mn) eqn:E1; [apply lt_true in E1|apply lt_false in E1]|];
  (destruct emn as [emn|];
    [destruct (Float.le x emn) eqn:E2; [apply le_true in E2|apply le_false in E2]|]);
  (destruct mx as [mx|];
    [destruct (Float.gt x mx) eqn:E3; [apply lt_true in E3|apply lt_false in E3]|]);
  (destruct emx as [emx|];
    [destruct (Float.ge x emx) eqn:E4; [apply le_true in E4|apply le_false in E4]|]);
  (eexists; split; [reflexivity|]); (split; [|try done]);
  try (intros _; repeat split; intros m Hm; inversion Hm; subst; lra);
  try done;
  intros (H1 & H2 & H3 & H4);
  repeat match goal with
         | H : forall m, Some ?a = Some m -> _ |- _ => specialize (H a eq_refl)
         end;
  lra.
Qed.

(** X16. For a string, with no [type] and a [pattern] that compiles if
    there is one: [IsValid] returns, and returns [true] exactly when the
    number of code points is at most [maxLength] and at least [minLength],
    each where it is given, and the compiled [pattern] matches.  The
    keywords for numbers take no part. *)
Theorem IsValid_string (v : Validator) (str : string) :
  IsTrivial (schema_ v) = false ->
  Type_ (Document_ (schema_ v)) = None ->
  (forall pat, Pattern (Document_ (schema_ v)) = Some pat -> regexp_Compile pat <> None) ->
  exists b,
    IsValid v (VString str) = Return b /\
    (b = true <->
     (forall n, MaxLength (Document_ (schema_ v)) = Some n ->
        (RuneCountInString str <= n)%Z) /\
     (forall n, MinLength (Document_ (schema_ v)) = Some n ->
        (n <= RuneCountInString str)%Z) /\
     (forall pat re, Pattern (Document_ (schema_ v)) = Some pat ->
        regexp_Compile pat = Some re -> MatchString re str = true)).
Proof.
  destruct v as [[triv tv [mn emn mx emx mo maxl minl pat ty]] eps].
  simpl. intros -> -> Hpat. unfold IsValid.
  cbn [schema_ IsTrivial TrivialValue Document_ Minimum ExclusiveMinimum Maximum
         ExclusiveMaximum MultipleOf MaxLength MinLength Pattern Type_ Epsilon].
  destruct mn, emn, mx, emx, mo; cbn [negb andb];
  (destruct maxl as [maxl|];
    [destruct (Z.ltb_spec maxl (RuneCountInString str)) as [E1|E1]|]);
  (destruct minl as [minl|];
    [destruct (Z.ltb_spec (RuneCountInString str) minl) as [E2|E2]|]);
  (destruct pat as [pat|];
    [destruct (regexp_Compile pat) as [re|] eqn:Ec;
       [destruct (MatchString re str) eqn:Em|by destruct (Hpat pat)]|]);
  cbn [negb];
  (eexists; split; [reflexivity|]); (split; [|try done]);
  try (intros _; repeat split;
       [intros n Hn; inversion Hn; subst; lia
       |intros n Hn; inversion Hn; subst; lia
       |intros pat0 re0 Hp Hc; inversion Hp; subst; congruence]);
  try done;
  intros (H1 & H2 & H3);
  repeat match goal with
         | H : forall n, Some ?a = Some n -> _ |- _ => specialize (H a eq_refl)
         end;
  first [lia|specialize (H3 _ _ eq_refl Ec); congruence].
Qed.

Lemma allFailedAfter_existsb l data :
  forall acc,
    allFailedAfter l data acc
    = acc && negb (existsb (fun t => assertSimpleType t data) l).
Proof.
  induction l as [|t rest IH]; intros acc; simpl; [by rewrite andb_true_r|].
  rewrite IH. destruct (assertSimpleType t data), acc; simpl; try done.
Qed.

Lemma typeCheck_typeAccepts ty data :
  (if IsSingle ty then negb (assertSimpleType (Single ty) data)
   else allFailedAfter (List_ ty) data true)
  = negb (typeAccepts ty data).
Proof.
  unfold typeAccepts. destruct (IsSingle ty); [done|].
  by rewrite allFailedAfter_existsb.
Qed.

Ltac IsValid_open :=
  unfold IsValid, withoutType;
  cbn [schema_ IsTrivial TrivialValue Document_ Minimum ExclusiveMinimum Maximum
         ExclusiveMaximum MultipleOf MaxLength MinLength Pattern Type_ Epsilon].

(** X17. [type] is the last keyword [IsValid] looks at: the call gives what
    the other keywords give, a panic included, and where they give [true]
    it gives whether the type admits the value, for a list of types
    whether one of them does.  An empty list admits nothing. *)
Theorem IsValid_type_last (v : Validator) (data : value) ty :
  IsTrivial (schema_ v) = false ->
  Type_ (Document_ (schema_ v)) = Some ty ->
  IsValid v data =
    match IsValid (withoutType v) data with
    | Return true => Return (typeAccepts ty data)
    | r => r
    end.
Proof.
  destruct v as [[triv tv [mn emn mx emx mo maxl minl pat ty']] eps].
  simpl. intros -> ->. IsValid_open. rewrite typeCheck_typeAccepts.
  repeat match goal with
         | |- context [if ?c then Return false else _] =>
             lazymatch c with
             | negb (typeAccepts _ _) => fail
             | _ => destruct c; [reflexivity|]
             end
         end.
  destruct pat as [pat|], data as [| | |str| | |];
    try (by destruct (typeAccepts ty _)).
  destruct (regexp_Compile pat) as [re|]; [|done].
  destruct (MatchString re str); [|done]. by destruct (typeAccepts ty _).
Qed.

(** X18. For a value that is neither a number nor a string only [type]
    counts: [IsValid] returns whether the type admits the value, [true]
    without a [type]. *)
Theorem IsValid_only_type (v : Validator) (data : value) :
  IsTrivial (schema_ v) = false ->
  (forall x, data <> VFloat x) ->
  (forall str, data <> VString str) ->
  IsValid v data =
    Return match Type_ (Document_ (schema_ v)) with
           | Some ty => typeAccepts ty data
           | None => true
           end.
Proof.
  destruct v as [[triv tv [mn emn mx emx mo maxl minl pat ty]] eps].
  simpl. intros -> Hnum Hstr. IsValid_open.
  destruct data as [| |x|str| | |];
    try (by destruct (Hnum x)); try (by destruct (Hstr str));
    destruct mn, emn, mx, emx, mo, maxl, minl, pat; cbn [negb andb];
    (destruct ty as [ty|]; [|done]);
    rewrite typeCheck_typeAccepts; by destruct (typeAccepts ty _).
Qed.

(** X19. [IsValid] panics in one case only: the value is a string that
    passed [maxLength] and [minLength], and the [pattern] does not compile.
    The keywords for numbers and [type] do not matter for it. *)
Theorem IsValid_panics_iff (v : Validator) (data : value) :
  IsValid v data = Panic <->
  IsTrivial (schema_ v) = false /\
  exists pat str,
    Pattern (Document_ (schema_ v)) = Some pat /\
    data = VString str /\
    regexp_Compile pat = None /\
    (forall n, MaxLength (Document_ (schema_ v)) = Some n ->
       (RuneCountInString str <= n)%Z) /\
    (forall n, MinLength (Document_ (schema_ v)) = Some n ->
       (n <= RuneCountInString str)%Z).
Proof.
  destruct v as [[triv tv [mn emn mx emx mo maxl minl pat ty]] eps].
  simpl. destruct triv; [split; [done|by intros [? _]]|].
  IsValid_open.
  destruct data as [| |x|str| | |].
  1-3, 5-7:
    split; [|by intros (_ & pat0 & str0 & _ & ? & _)];
    repeat match goal with
           | |- context [if ?c then Return false else _] => destruct c; [done|]
           end;
    destruct pat; cbn;
    (destruct ty as [ty|];
      [rewrite typeCheck_typeAccepts; by destruct (typeAccepts ty _)|done]).
  destruct mn, emn, mx, emx, mo; cbn [negb andb];
  (destruct maxl as [maxl|];
    [destruct (Z.ltb_spec maxl (RuneCountInString str)) as [E1|E1]|]);
  (destruct minl as [minl|];
    [destruct (Z.ltb_spec (RuneCountInString str) minl) as [E2|E2]|]);
  (destruct pat as [pat|];
    [destruct (regexp_Compile pat) as [re|] eqn:Ec;
       [destruct (MatchString re str) eqn:Em|]|]);
  cbn [negb];
  try (destruct ty as [ty|];
         [rewrite typeCheck_typeAccepts; destruct (typeAccepts ty _)|]; cbn [negb]);
  (split;
   [first [done
          |intros _; split; [done|]; eexists _, _;
           repeat split; try done; intros n Hn; inversion Hn; subst; lia]
   |first [done
          |intros (_ & pat0 & str0 & Hp & Hs & Hc & H1 & H2);
           inversion Hp; inversion Hs; subst;
           repeat match goal with
                  | H : forall n, Some ?a = Some n -> _ |- _ =>
                      specialize (H a eq_refl)
                  end;
           first [lia|congruence]]]).
Qed.

Lemma Qabs_opp_eq (x : Q) : Qabs (- x) = Qabs x.
Proof. destruct x as [n d]. unfold Qabs, Qopp. simpl. by rewrite Z.abs_opp. Qed.

Lemma IsValid_multipleOfOnly (i d e : Q) :
  IsValid (mkValidator (multipleOfOnly d) e) (VFloat i)
  = let mod_ := Float.div (Float.Mod (Float.Abs i) d) d in
    if Float.gt mod_ e && Float.lt mod_ (Float.sub 1 e)
    then Return false else Return true.
Proof. reflexivity. Qed.

(** X20. With only [multipleOf = d], [d > 0], and a tolerance that is not
    negative, every whole multiple of [d] is valid; and a number is valid
    exactly when its opposite is. *)
Theorem multipleOf_whole_multiples (k : Z) (d e : Q) :
  0 < d -> 0 <= e ->
  IsValid (mkValidator (multipleOfOnly d) e) (VFloat (inject_Z k * d)) = Return true /\
  forall i,
    IsValid (mkValidator (multipleOfOnly d) e) (VFloat (- i))
    = IsValid (mkValidator (multipleOfOnly d) e) (VFloat i).
Proof.
  intros Hd He. split.
  - rewrite IsValid_multipleOfOnly. cbv zeta.
    assert (Float.Abs (inject_Z k * d) == inject_Z (Z.abs k) * d) as Habs.
    { unfold Float.Abs. rewrite Qabs_Qmult.
      rewrite (Qabs_pos d) by lra. reflexivity. }
    assert (Float.Mod (Float.Abs (inject_Z k * d)) d / d == 0) as Hmod.
    { unfold Float.Mod.
      rewrite (Trunc_comp _ (inject_Z (Z.abs k)))
        by (rewrite Habs; field; lra).
      rewrite Trunc_int, Habs. field. lra. }
    unfold Float.div. rewrite (fl_zero _ Hmod).
    assert (Float.gt 0 e = false) as -> by (by apply lt_false).
    done.
  - intros i. rewrite !IsValid_multipleOfOnly. unfold Float.Abs.
    by rewrite Qabs_opp_eq.
Qed.

End ValidatorMore.

Lemma IsValid_bounds_witness :
  let v := Validator.mkValidator
             (Validator.mkSchema false false
                (Validator.mkDocument (Some 1%Q) None None (Some 3%Q) None
                   (Some 0%Z) None (Some "[") None))
             Validator.DefaultEpsilon in
  exists b,
    Validator.IsValid v (VFloat 1) = Validator.Return b /\
    (b = true <->
     (forall m, Some 1%Q = Some m -> (m <= 1)%Q) /\
     (forall m, @None Q = Some m -> (m < 1)%Q) /\
     (forall m, @None Q = Some m -> (1 <= m)%Q) /\
     (forall m, Some 3%Q = Some m -> (1 < m)%Q)).
Proof.
  apply (IsValid_bounds
           (Validator.mkValidator
              (Validator.mkSchema false false
                 (Validator.mkDocument (Some 1%Q) None None (Some 3%Q) None
                    (Some 0%Z) None (Some "[") None))
              Validator.DefaultEpsilon) 1%Q); reflexivity.
Defined.

Lemma IsValid_string_witness :
  let v := Validator.mkValidator
             (Validator.mkSchema false false
                (Validator.mkDocument (Some 1%Q) None None None None
                   (Some 3%Z) (Some 1%Z) (Some "b") None))
             Validator.DefaultEpsilon in
  exists b,
    Validator.IsValid v (VString "abc") = Validator.Return b /\
    (b = true <->
     (forall n, Some 3%Z = Some n -> (Validator.RuneCountInString "abc" <= n)%Z) /\
     (forall n, Some 1%Z = Some n -> (n <= Validator.RuneCountInString "abc")%Z) /\
     (forall pat re, Some "b" = Some pat ->
        regexp_Compile pat = Some re -> MatchString re "abc" = true)).
Proof.
  apply (IsValid_string
           (Validator.mkValidator
              (Validator.mkSchema false false
                 (Validator.mkDocument (Some 1%Q) None None None None
                    (Some 3%Z) (Some 1%Z) (Some "b") None))
              Validator.DefaultEpsilon) "abc"); try reflexivity.
  intros pat Hp. inversion Hp; subst. discriminate.
Defined.

Lemma IsValid_type_last_witness :
  let ty := Validator.mkSchemaType false Validator.NullSimpleType
              [Validator.StringSimpleType; Validator.IntegerSimpleType] in
  let v := Validator.mkValidator
             (Validator.mkSchema false false
                (Validator.mkDocument (Some 1%Q) None None None None
                   None None None (Some ty)))
             Validator.DefaultEpsilon in
  Validator.IsValid v (VFloat (5 # 2)) = Validator.Return false /\
  Validator.IsValid v (VFloat 2) = Validator.Return true /\
  Validator.IsValid v (VFloat 0) = Validator.Return false.
Proof.
  pose (ty := Validator.mkSchemaType false Validator.NullSimpleType
                [Validator.StringSimpleType; Validator.IntegerSimpleType]).
  pose (v := Validator.mkValidator
               (Validator.mkSchema false false
                  (Validator.mkDocument (Some 1%Q) None None None None
                     None None None (Some ty)))
               Validator.DefaultEpsilon).
  split; [|split].
  - exact (IsValid_type_last v (VFloat (5 # 2)) ty eq_refl eq_refl).
  - exact (IsValid_type_last v (VFloat 2) ty eq_refl eq_refl).
  - exact (IsValid_type_last v (VFloat 0) ty eq_refl eq_refl).
Defined.

Lemma IsValid_only_type_witness :
  let v := Validator.mkValidator
             (Validator.mkSchema false false
                (Validator.mkDocument (Some 1%Q) None None None (Some 2%Q)
                   (Some 0%Z) None (Some "[") None))
             Validator.DefaultEpsilon in
  Validator.IsValid v (VArray []) = Validator.Return true.
Proof.
  apply (IsValid_only_type
           (Validator.mkValidator
              (Validator.mkSchema false false
                 (Validator.mkDocument (Some 1%Q) None None None (Some 2%Q)
                    (Some 0%Z) None (Some "[") None))
              Validator.DefaultEpsilon) (VArray [])); [reflexivity|discriminate..].
Defined.

Lemma multipleOf_whole_multiples_witness :
  Validator.IsValid
    (Validator.mkValidator (Validator.multipleOfOnly (1 # 10)) 0) (VFloat (-3 * (1 # 10)))
  = Validator.Return true.
Proof.
  apply (multipleOf_whole_multiples (-3) (1 # 10) 0); [reflexivity|discriminate].
Defined.

(* ===================================================================== *)
(** ** More on the executor of vm.go *)
(* ===================================================================== *)

Section VM1More.
Import Vm VM1.

Lemma execSchema_run_exact schema inst (v : vm Schema) s :
  last (schemas (stack_ v)) = Some s ->
  exists v',
    execSchema schema inst v = (v', inr tt) /\
    registry v' = registry v /\
    instance (stack_ v') = instance (stack_ v) /\
    errors v' =
      errors v ++
      if typeOk (VM1.Type_ schema) inst then []
      else [mkValidationError (instance (stack_ v)) (tokens s ++ ["type"]) (id s)].
Proof.
  intros Hs. pose proof (typeError_run v s Hs) as Hte.
  unfold execSchema, bind.
  destruct inst as [|b|val|str|elems|fields|n]; simpl;
    try (destruct (contains (VM1.Type_ schema) _) eqn:Ec; simpl;
         [|rewrite Hte]; eexists; (split; [reflexivity|]); simpl;
         by rewrite ?app_nil_r).
  - destruct (contains (VM1.Type_ schema) jsonTypeInteger) eqn:Ei;
      destruct (contains (VM1.Type_ schema) jsonTypeNumber) eqn:En;
      try destruct (Float.eq val (Float.Round val)) eqn:Er; simpl;
      try rewrite Hte; eexists; (split; [reflexivity|]); simpl;
      by rewrite ?app_nil_r.
  - rewrite Hte. eexists. split; [reflexivity|]. done.
Qed.

(** X21. With a schema on the stack, [execSchema] of vm.go returns and
    leaves the registry and the instance path alone; it records nothing
    when the type admits the instance, and otherwise one error, with the
    instance path as it stands, the tokens of the schema followed by
    [type], and the id of the schema.  A schema without types admits
    nothing. *)
Theorem vm1_execSchema_error schema inst (v : vm Schema) s :
  last (schemas (stack_ v)) = Some s ->
  (exists v',
     execSchema schema inst v = (v', inr tt) /\
     registry v' = registry v /\
     instance (stack_ v') = instance (stack_ v) /\
     errors v' =
       errors v ++
       if typeOk (VM1.Type_ schema) inst then []
       else [mkValidationError (instance (stack_ v)) (tokens s ++ ["type"]) (id s)]) /\
  (Types (VM1.Type_ schema) = [] -> typeOk (VM1.Type_ schema) inst = false).
Proof.
  intros Hs. split; [by apply execSchema_run_exact|].
  intros Hnil. unfold typeOk, contains. rewrite Hnil.
  by destruct inst.
Qed.

(** X22. [execSchema] of vm.go is to be entered through [exec]: on an empty
    schema stack it returns only when the type admits the instance, and
    panics on the index [len - 1] when it has an error to report. *)
Theorem vm1_execSchema_empty_stack schema inst (v : vm Schema) :
  schemas (stack_ v) = [] ->
  execSchema schema inst v =
    (v, if typeOk (VM1.Type_ schema) inst then inr tt else inl panicBounds).
Proof.
  intros Hnil.
  assert (typeError v = (v, inl panicBounds)) as Hte.
  { unfold typeError, bind, pushSchemaToken. by rewrite Hnil. }
  unfold execSchema, bind.
  destruct inst as [|b|val|str|elems|fields|n]; simpl;
    try (destruct (contains (VM1.Type_ schema) _) eqn:Ec; simpl;
         [|rewrite Hte]; done).
  - destruct (contains (VM1.Type_ schema) jsonTypeInteger) eqn:Ei;
      destruct (contains (VM1.Type_ schema) jsonTypeNumber) eqn:En;
      try destruct (Float.eq val (Float.Round val)) eqn:Er; simpl;
      try rewrite Hte; done.
  - by rewrite Hte.
Qed.

Section WithLib.
Context {L : Lib}.

(** X24. [exec] of vm.go looks the schema up under the URI without its
    fragment and fails, the machine untouched, when there is none or when
    the fragment is no pointer.  Otherwise it returns, and the schema found
    is checked whatever the fragment: the fragment only heads the schema
    path of the error. *)
Theorem vm1_exec_run uri inst (v : vm Schema) :
  let absoluteURI := withFragment uri EmptyString in
  match registry v !! absoluteURI with
  | None => exec uri inst v = (v, inl (errNoSchema absoluteURI))
  | Some schema =>
      match jsonpointer_New (Fragment uri) with
      | None => exec uri inst v = (v, inl errPointer)
      | Some toks =>
          exists v',
            exec uri inst v = (v', inr tt) /\
            registry v' = registry v /\
            errors v' =
              errors v ++
              if typeOk (VM1.Type_ schema) inst then []
              else [mkValidationError (instance (stack_ v)) (toks ++ ["type"])
                      absoluteURI]
      end
  end.
Proof.
  intros absoluteURI. unfold exec. fold absoluteURI.
  destruct (registry v !! absoluteURI) as [schema|]; [|done].
  destruct (jsonpointer_New (Fragment uri)) as [toks|]; [|done].
  unfold bind, pushNewSchema.
  destruct (execSchema_run_exact schema inst
              (setStack v (mkStack (instance (stack_ v))
                             (schemas (stack_ v) ++ [mkSchemaStack absoluteURI toks])))
              (mkSchemaStack absoluteURI toks))
    as (v' & Hrun & Hreg & _ & Herr).
  { simpl. by rewrite last_snoc. }
  exists v'. by rewrite Hrun.
Qed.

End WithLib.

End VM1More.

Lemma vm1_execSchema_error_witness :
  exists v',
    VM1.execSchema (VM1.mkSchema schemaType_zero) VNil vmAtRoot = (v', inr tt) /\
    Vm.errors v' = [Vm.mkValidationError [] ["type"] URL_zero].
Proof.
  destruct (vm1_execSchema_error (VM1.mkSchema schemaType_zero) VNil vmAtRoot
              (Vm.mkSchemaStack URL_zero []) eq_refl)
    as [(v' & Hrun & _ & _ & Herr) _].
  exists v'. split; [done|]. by rewrite Herr.
Defined.

Lemma vm1_execSchema_empty_stack_witness :
  VM1.execSchema (VM1.mkSchema typeNull) (VBool true) vm1Start
  = (vm1Start, inl Vm.panicBounds).
Proof.
  apply (vm1_execSchema_empty_stack (VM1.mkSchema typeNull) (VBool true) vm1Start).
  reflexivity.
Defined.
